(** * stempy [features/zps.py]: Zernike polynomials and Zernike moments

    A shallow embedding of [src/features/zps.py].

    Conventions of the embedding:
    - numpy integer arrays are [list Z]; Python's [//] and [%] with a
      positive divisor are [Z.div] and [Z.modulo];
    - [float64] values are idealised as real numbers [R] (no rounding, no
      overflow, no [nan]/[inf]); [complex128] values are pairs of reals;
    - a Python exception is the [Raise] branch of [result];
    - the helpers imported from [.utils] ([nm2j], [j2nm], [nm2j_complex],
      [grid_rt]) are not part of this file of the repository; the functions
      that call them take them as parameters. *)

From Stdlib Require Import ZArith Reals Lra Lia.
From stdpp Require Import base list gmap sorting strings.

(** ** Python exceptions *)

Inductive pyerr :=
  AssertionError | ValueError | IndexError | KeyError | TypeError | LinAlgError.

Inductive result (A : Type) :=
| Ok (a : A)
| Raise (e : pyerr).
Arguments Ok {A} a.
Arguments Raise {A} e.

Definition rbind {A B} (r : result A) (f : A -> result B) : result B :=
  match r with Ok a => f a | Raise e => Raise e end.

Notation "'let*' x ':=' e 'in' k" := (rbind e (fun x => k))
  (at level 10, x name, e at level 100, k at level 200,
   format "'[v' 'let*'  x  ':='  e  'in' '/' k ']'").
Notation "e ';;' k" := (rbind e (fun _ => k))
  (at level 100, k at level 200, right associativity).

#[global] Instance result_ret : MRet result := fun A a => Ok a.
#[global] Instance result_bind : MBind result := fun A B f r => rbind r f.

Definition raises {A} (r : result A) : Prop :=
  match r with Ok _ => False | Raise _ => True end.

(** [assert b] *)
Definition py_assert (b : bool) : result unit :=
  if b then Ok tt else Raise AssertionError.

(** [a[i]] on a Python sequence, for an index that is already a natural
    number: [IndexError] out of range. *)
Definition getitem {A} (a : list A) (i : nat) : result A :=
  match a !! i with Some x => Ok x | None => Raise IndexError end.

(** ** One-dimensional integer arrays *)

(** [a.max()]: numpy raises [ValueError] on an empty array. *)
Definition np_max (a : list Z) : result Z :=
  match a with
  | [] => Raise ValueError
  | x :: l => Ok (foldr Z.max x l)
  end.

(** [np.arange(a, b)] for integers. *)
Definition arange (a b : Z) : list Z := seqZ a (b - a).

(** Element-wise binary operation on two one-dimensional arrays under
    numpy's broadcasting: equal lengths, or one of them of length one. *)
Definition broadcast1 {A B C} (f : A -> B -> C) (a : list A) (b : list B)
  : result (list C) :=
  if decide (length a = length b) then Ok (zip_with f a b)
  else match a, b with
       | [x], _ => Ok (f x <$> b)
       | _, [y] => Ok ((fun x => f x y) <$> a)
       | _, _ => Raise ValueError
       end.

(** [np.array(l)] for a list of rows: the rows must have one length. *)
Definition np_array {A} (l : list (list A)) : result (list (list A)) :=
  match l with
  | [] => Ok []
  | r :: _ =>
      if forallb (fun r' => Nat.eqb (length r') (length r)) l
      then Ok l else Raise ValueError
  end.

(** ** Special functions (scipy.special) *)

(** Pascal's triangle. *)
Fixpoint binomial (n k : nat) : nat :=
  match n, k with
  | _, O => 1
  | O, S _ => 0
  | S n', S k' => binomial n' k' + binomial n' (S k')
  end.

(** [scipy.special.binom(n, k)] at integer arguments with [0 <= n]: the
    binomial coefficient, and [0] for a negative [k]. *)
Definition binom (n k : Z) : R :=
  if (k <? 0)%Z then 0%R
  else INR (binomial (Z.to_nat n) (Z.to_nat k)).

(** [scipy.special.factorial(k)]: [k!], and [0] for a negative [k]. *)
Definition factorial (k : Z) : R :=
  if (k <? 0)%Z then 0%R else INR (fact (Z.to_nat k)).

(** The rising factorial [x (x+1) ... (x+k-1)]. *)
Fixpoint rising (x : R) (k : nat) : R :=
  match k with
  | O => 1%R
  | S k' => (x * rising (x + 1) k')%R
  end.

(** [scipy.special.poch(x, k)] (Pochhammer symbol) at an integer [k >= 0]. *)
Definition poch (x : R) (k : Z) : R := rising x (Z.to_nat k).

(** ** Zernike polynomials: coefficients *)

Definition zp_norm (n m : list Z) : result (list R) :=
  (* norm[mask] = ... with mask = (m == 0): the boolean mask must have the
     length of n *)
  if decide (length n = length m) then
    Ok (zip_with (fun en em =>
                    if decide (em = 0%Z) then sqrt (IZR (en + 1))
                    else sqrt (IZR (2 * en + 2))) n m)
  else Raise IndexError.

(** The row [c] built by one iteration of the loop of [zp_get_coeffs]
    ([m] is already [|m|]). *)
Definition zp_row (n_max n m : Z) : list R :=
  let num := ((n - m) `div` 2)%Z in
  replicate (Z.to_nat (n_max - n)) 0%R ++
  imap (fun i k =>
          if decide ((Z.of_nat i `mod` 2)%Z = 0%Z)
          then (IZR ((-1) ^ k) * binom (n - k) k
                * binom (n - 2 * k) (num - k))%R
          else 0%R)
       ((fun x => x `div` 2)%Z <$> arange 0 (n + 1)).

Definition zp_get_coeffs (n m : list Z) (normalize : bool)
  : result (list (list R)) :=
  let N := n in
  let M := m in
  let* n_max := np_max N in
  let M_abs := Z.abs <$> M in
  let* d := broadcast1 Z.sub N M_abs in
  py_assert (forallb (fun x => (x `mod` 2 =? 0)%Z) d);;
  let l := (fun nm => zp_row n_max nm.1 nm.2) <$> zip N M_abs in
  let* c_matrix := np_array l in
  if normalize then
    let* nrm := zp_norm N M in
    Ok (zip_with (fun row f => (fun x => x * f)%R <$> row) c_matrix nrm)
  else Ok c_matrix.

(** ** Generalized pseudo-Zernike polynomials: coefficients *)

Definition gpzp_norm (n m : list Z) (alpha : R) : result (list R) :=
  let m_abs := Z.abs <$> m in
  broadcast1 Z.add n m_abs;;
  if decide (length n = length m) then
    Ok (zip_with (fun en em =>
          let b := (en - Z.abs em)%Z in
          let q := (poch (IZR b + alpha + 1) (2 * Z.abs em + 1)
                    / poch (IZR (b + 1)) (2 * Z.abs em + 1))%R in
          if decide (em = 0%Z)
          then sqrt ((IZR en + alpha / 2 + 1) * q)
          else sqrt ((IZR (2 * en) + alpha + 2) * q)) n m)
  else Raise IndexError.

(** The list [coeffs] built by one iteration of the loop of
    [gpzp_get_coeffs], padding included. *)
Definition gpzp_row (n_max : Z) (alpha : R) (a b : Z) (c : R) (n : Z)
  : list R :=
  let coeffs :=
    (fun k => (c * IZR ((-1) ^ k) * poch (alpha + 1) (2 * n + 1 - k)
               / (factorial k * factorial (a + 1 - k) * factorial (b - k)))%R)
      <$> arange 0 (b + 1) in
  replicate (Z.to_nat (n_max - n)) 0%R ++ coeffs
    ++ replicate (Z.to_nat (n - b)) 0%R.

Definition gpzp_get_coeffs (n m : list Z) (alpha : R) (normalize : bool)
  : result (list (list R)) :=
  let N := n in
  let M := m in
  let M_abs := Z.abs <$> M in
  let* n_max := np_max N in
  let* A := broadcast1 Z.add N M_abs in
  let* B := broadcast1 Z.sub N M_abs in
  let C := (fun a => (factorial (a + 1) / poch (alpha + 1) (a + 1))%R) <$> A in
  let* l := mapM (fun i =>
              let* a := getitem A i in
              let* b := getitem B i in
              let* c := getitem C i in
              let* n := getitem N i in
              Ok (gpzp_row n_max alpha a b c n))
           (seq 0 (length N)) in
  let* c_matrix := np_array l in
  if normalize then
    let* nrm := gpzp_norm N M alpha in
    Ok (zip_with (fun row f => (fun x => x * f)%R <$> row) c_matrix nrm)
  else Ok c_matrix.

(** Entry [i] (counted after the zero padding) of the row of [zp_get_coeffs]
    for the pair [(n, m)], [m] being [|m|]: the coefficient of [r^(n-i)]. *)
Definition zp_entry (n m : Z) (i : nat) : R :=
  let k := (Z.of_nat i `div` 2)%Z in
  if decide ((Z.of_nat i `mod` 2)%Z = 0%Z)
  then (IZR ((-1) ^ k) * binom (n - k) k
        * binom (n - 2 * k) ((n - m) `div` 2 - k))%R
  else 0%R.

(** The index arrays the coefficient generator is meant for: one pair per
    polynomial, with [|m| <= n] and [n - |m|] even. *)
Definition valid_nm (N M : list Z) : Prop :=
  N <> [] /\
  Forall2 (fun n m => (0 <= Z.abs m <= n)%Z /\ ((n - Z.abs m) `mod` 2 = 0)%Z) N M.

(** The factor [zp_get_coeffs] multiplies the row of [(n, m)] with. *)
Definition zp_scale (normalize : bool) (n m : Z) : R :=
  if normalize
  then (if decide (m = 0%Z) then sqrt (IZR (n + 1)) else sqrt (IZR (2 * n + 2)))
  else 1%R.

(** ** The azimuthal-state filter *)

(** The [states] argument: [None], a number, or an iterable of numbers. *)
Inductive states_arg :=
| StatesNone
| StatesScalar (s : Z)
| StatesIter (l : list Z).

(** [np.unique(a)]: the sorted distinct values. *)
Definition np_unique (a : list Z) : list Z := merge_sort Z.le (remove_dups a).

Definition _get_m_states (m : list Z) (states : states_arg) : list Z :=
  match states with
  | StatesNone =>
      (* list(set(np.abs(m))) *)
      elements (list_to_set (Z.abs <$> m) : gset Z)
  | StatesScalar s =>
      if (s <? 0)%Z then
        let uniq := np_unique (Z.abs <$> m) in
        filter (fun x => x <> 0%Z) uniq
      else [s]
  | StatesIter l => np_unique (Z.abs <$> l)
  end.

(** [np.in1d(a, s)] *)
Definition np_in1d (a s : list Z) : list bool :=
  (fun x => bool_decide (x ∈ s)) <$> a.

(** [np.where(mask)[0]]: the positions of the true entries, counted from
    [i]. *)
Fixpoint where_from (i : nat) (mask : list bool) : list nat :=
  match mask with
  | [] => []
  | b :: mask' => (if b then [i] else []) ++ where_from (S i) mask'
  end.

Definition np_where (mask : list bool) : list nat := where_from 0 mask.

(** [a[ind]] for an array of positions [ind]. *)
Definition take_index {A} (a : list A) (ind : list nat) : result (list A) :=
  mapM (getitem a) ind.

(** The entries of [a] at the true positions of [mask] ([np.compress]):
    what [a[np.where(mask)[0]]] is when [a] is at least as long as [mask]. *)
Fixpoint compress {A} (mask : list bool) (a : list A) : list A :=
  match mask, a with
  | b :: mask', x :: a' => (if b then [x] else []) ++ compress mask' a'
  | _, _ => []
  end.

(** ** Scalars: [float64] and [complex128] *)

Record complex128 := Cx { Re : R; Im : R }.

Definition Cadd (x y : complex128) : complex128 :=
  Cx (Re x + Re y) (Im x + Im y).
Definition Cmul (x y : complex128) : complex128 :=
  Cx (Re x * Re y - Im x * Im y) (Re x * Im y + Im x * Re y).
Definition Cabs (x : complex128) : R := sqrt (Re x * Re x + Im x * Im x).
Definition C_of_R (x : R) : complex128 := Cx x 0.
Definition Ci : complex128 := Cx 0 1.

#[global] Instance R_eq_dec : EqDecision R := Req_dec_T.
#[global] Instance complex128_eq_dec : EqDecision complex128.
Proof. solve_decision. Defined.

(** What the array operations need of an element type; [s_of_R] is numpy's
    promotion of a [float64] to the type. *)
Class Scalar (T : Type) := {
  s_zero : T;
  s_add : T -> T -> T;
  s_mul : T -> T -> T;
  s_of_R : R -> T;
  s_abs : T -> R;
}.

#[global] Instance R_scalar : Scalar R :=
  {| s_zero := 0%R; s_add := Rplus; s_mul := Rmult;
     s_of_R := fun x => x; s_abs := Rabs |}.

#[global] Instance complex128_scalar : Scalar complex128 :=
  {| s_zero := Cx 0 0; s_add := Cadd; s_mul := Cmul;
     s_of_R := C_of_R; s_abs := Cabs |}.

(** [x / d] for a real divisor [d]. *)
Definition s_divR {T} `{Scalar T} (x : T) (d : R) : T := s_mul x (s_of_R (/ d)).

Definition ssum {T} `{Scalar T} (l : list T) : T := foldr s_add s_zero l.

(** ** Two-dimensional arrays *)

Record matrix (T : Type) := Mat {
  nrows : nat;
  ncols : nat;
  rows : list (list T);
}.
Arguments Mat {T} nrows ncols rows.
Arguments nrows {T} _.
Arguments ncols {T} _.
Arguments rows {T} _.

(** The row lists agree with the recorded shape. *)
Definition wf_matrix {T} (A : matrix T) : Prop :=
  length (rows A) = nrows A /\ Forall (fun r => length r = ncols A) (rows A).

Definition entry {T} `{Scalar T} (A : matrix T) (i j : nat) : T :=
  default s_zero (rows A !! i ≫= fun r => r !! j).

Definition mk_matrix {T} (r c : nat) (f : nat -> nat -> T) : matrix T :=
  Mat r c ((fun i => f i <$> seq 0 c) <$> seq 0 r).

Definition zeros {T} `{Scalar T} (r c : nat) : matrix T :=
  mk_matrix r c (fun _ _ => s_zero).

Definition matrix_map {T U} (f : T -> U) (A : matrix T) : matrix U :=
  Mat (nrows A) (ncols A) ((fun r : list T => f <$> r) <$> rows A).

(** [A.T] *)
Definition transpose {T} `{Scalar T} (A : matrix T) : matrix T :=
  mk_matrix (ncols A) (nrows A) (fun i j => entry A j i).

(** [A.dot(B)] for two-dimensional [A] and [B]. *)
Definition dot {T} `{Scalar T} (A B : matrix T) : result (matrix T) :=
  if decide (ncols A = nrows B) then
    Ok (mk_matrix (nrows A) (ncols B) (fun i j =>
          ssum ((fun k => s_mul (entry A i k) (entry B k j))
                  <$> seq 0 (ncols A))))
  else Raise ValueError.

(** [A.dot(v)] for a one-dimensional [v]. *)
Definition dot_vec {T} `{Scalar T} (A : matrix T) (v : list T)
  : result (list T) :=
  if decide (ncols A = length v) then
    Ok ((fun i => ssum ((fun k => s_mul (entry A i k) (default s_zero (v !! k)))
                          <$> seq 0 (ncols A)))
          <$> seq 0 (nrows A))
  else Raise ValueError.

(** numpy's promotion of a [float64] array to the element type [T]. *)
Definition promote {T} `{Scalar T} (A : matrix R) : matrix T :=
  matrix_map s_of_R A.

(** An index as numpy reads it on an axis of length [len]: negative
    indices count from the end. *)
Definition norm_index (len : nat) (j : Z) : result nat :=
  if decide (0 <= j < Z.of_nat len)%Z then Ok (Z.to_nat j)
  else if decide (- Z.of_nat len <= j < 0)%Z then Ok (Z.to_nat (j + Z.of_nat len))
  else Raise IndexError.

(** [A[i, j] = v] *)
Definition setitem2 {T} (A : matrix T) (i j : Z) (v : T) : result (matrix T) :=
  let* i' := norm_index (nrows A) i in
  let* j' := norm_index (ncols A) j in
  Ok (Mat (nrows A) (ncols A)
        (alter (fun r => <[j' := v]> r) i' (rows A))).

(** [A[:, ind]] for an array of positions (a copy). *)
Definition take_cols {T} (A : matrix T) (ind : list nat) : result (matrix T) :=
  if forallb (fun j => j <? ncols A) ind then
    let* rs := mapM (fun r => take_index r ind) (rows A) in
    Ok (Mat (nrows A) (length ind) rs)
  else Raise IndexError.

(** [A[:, mask] = f(A[:, mask])] for a boolean [mask], [f] applied
    entry by entry: the mask must have the length of the axis. *)
Definition map_cols_where {T} (mask : list bool) (f : T -> T) (A : matrix T)
  : result (matrix T) :=
  if decide (length mask = ncols A) then
    Ok (Mat (nrows A) (ncols A)
          ((fun r => zip_with (fun (b : bool) x => if b then f x else x) mask r)
             <$> rows A))
  else Raise IndexError.

(** ** N-dimensional arrays *)

(** A numpy array of any rank: its shape and its entries in row-major order. *)
Record ndarray (T : Type) := NdArray {
  shape : list nat;
  data : list T;
}.
Arguments NdArray {T} shape data.
Arguments shape {T} _.
Arguments data {T} _.

Definition numel (s : list nat) : nat := foldr Nat.mul 1 s.

Definition wf_ndarray {T} (a : ndarray T) : Prop :=
  length (data a) = numel (shape a).

Definition ndim {T} (a : ndarray T) : nat := length (shape a).

(** ** The helpers of [.utils]

    [nm2j], [j2nm] and [nm2j_complex] convert between a polynomial's index
    pair and its linear index (applied entry by entry to arrays);
    [grid_rt size] is the polar grid [(r, t)]. *)
Class Utils := {
  nm2j : Z -> Z -> option R -> Z;
  j2nm : Z -> option R -> Z * Z;
  nm2j_complex : Z -> Z -> option R -> Z;
  grid_rt : Z -> ndarray R * ndarray R;
}.

(** [for i, x in enumerate(l): s = body(i, x, s)], counting from [i]. *)
Fixpoint for_enumerate {A St} (body : nat -> A -> St -> result St)
    (i : nat) (l : list A) (s : St) : result St :=
  match l with
  | [] => Ok s
  | x :: l' => let* s' := body i x s in for_enumerate body (S i) l' s'
  end.

Definition np_deg2rad (theta : R) : R := (theta * (PI / 180))%R.

Section TransformMatrices.
Context `{Utils}.

Definition construct_complex_matrix (n m : list Z) (alpha : option R)
  : result (matrix complex128) :=
  let* j1 := broadcast1 (fun en em => nm2j en em alpha) n m in
  let* j2 := broadcast1 (fun en em => nm2j_complex en em alpha) n (Z.abs <$> m) in
  (* j2 has duplicate elements *)
  let uniq_j2 := np_unique j2 in
  let num_rows := length uniq_j2 in
  let num_cols := length j1 in
  (* vals[m >= 0] = 1; vals[m < 0] = 1j: the masks have the length of m *)
  let* vals :=
    if decide (length m = length j1)
    then Ok ((fun em => if decide (0 <= em)%Z then Cx 1 0 else Ci) <$> m)
    else Raise IndexError in
  let d : gmap Z nat := list_to_map (zip uniq_j2 (seq 0 num_rows)) in
  let c_matrix : matrix complex128 := zeros num_rows num_cols in
  for_enumerate
    (fun i (iv : Z * complex128) c_matrix =>
       let* r := match d !! iv.1 with
                 | Some r => Ok r
                 | None => Raise KeyError
                 end in
       setitem2 c_matrix (Z.of_nat r) (Z.of_nat i) iv.2)
    0 (zip j2 vals) c_matrix.

Definition construct_rot_matrix (n m : list Z) (theta : R) (alpha : option R)
  : result (matrix R) :=
  let theta := np_deg2rad theta in
  let rot_matrix : matrix R := zeros (length n) (length n) in
  for_enumerate
    (fun i (nm : Z * Z) rot_matrix =>
       let en := nm.1 in
       let em := nm.2 in
       if decide (em = 0)%Z then
         setitem2 rot_matrix (Z.of_nat i) (nm2j en em alpha) 1%R
       else if decide (em < 0)%Z then
         (* DON'T forget to multiply m *)
         let t := (theta * IZR (- em))%R in
         let* rot_matrix :=
           setitem2 rot_matrix (Z.of_nat i) (nm2j en em alpha) (cos t) in
         setitem2 rot_matrix (Z.of_nat i) (nm2j en (- em) alpha) (- sin t)%R
       else
         let t := (theta * IZR em)%R in
         let* rot_matrix :=
           setitem2 rot_matrix (Z.of_nat i) (nm2j en em alpha) (cos t) in
         setitem2 rot_matrix (Z.of_nat i) (nm2j en (- em) alpha) (sin t))
    0 (zip n m) rot_matrix.

Definition construct_ref_matrix (n m : list Z) (theta : R) (alpha : option R)
  : result (matrix R) :=
  let theta := (2 * np_deg2rad theta)%R in
  let ref_matrix : matrix R := zeros (length n) (length n) in
  for_enumerate
    (fun i (nm : Z * Z) ref_matrix =>
       let en := nm.1 in
       let em := nm.2 in
       if decide (em = 0)%Z then
         setitem2 ref_matrix (Z.of_nat i) (nm2j en em alpha) 1%R
       else if decide (em < 0)%Z then
         let t := (theta * IZR (- em))%R in
         let* ref_matrix :=
           setitem2 ref_matrix (Z.of_nat i) (nm2j en em alpha) (- cos t)%R in
         setitem2 ref_matrix (Z.of_nat i) (nm2j en (- em) alpha) (- sin t)%R
       else
         let t := (theta * IZR em)%R in
         let* ref_matrix :=
           setitem2 ref_matrix (Z.of_nat i) (nm2j en em alpha) (cos t) in
         setitem2 ref_matrix (Z.of_nat i) (nm2j en (- em) alpha) (- sin t)%R)
    0 (zip n m) ref_matrix.

End TransformMatrices.

Definition construct_rot_weight_matrix (n_fold : Z) (m : list Z)
  : result (list (list R)) :=
  py_assert (negb (n_fold =? 1)%Z);;
  let a := replicate (length m) 0%R in
  let a :=
    foldl (fun a n =>
             zip_with Rplus a
               ((fun em => cos (IZR (Z.abs em) * 2 * PI / IZR n_fold * IZR n))
                  <$> m))
          a (arange 1 n_fold) in
  let a := (fun x => x / IZR (n_fold - 1))%R <$> a in
  (* a[:, np.newaxis] *)
  Ok ((fun x => [x]) <$> a).

(** ** sklearn and scipy helpers used by the moment arrays *)

Definition rsum (l : list R) : R := foldr Rplus 0%R l.

(** [sklearn.preprocessing.normalize(X, axis=1, norm=norm)]: every row is
    divided by its norm, a zero norm counting as one. *)
Definition sk_normalize (X : matrix R) (norm : string) : result (matrix R) :=
  if negb (bool_decide (norm ∈ ["l1"; "l2"; "max"]%string)) then Raise ValueError
  else if (nrows X =? 0) || (ncols X =? 0) then Raise ValueError
  else
    let norms :=
      (fun r =>
         if decide (norm = "l1"%string) then rsum (Rabs <$> r)
         else if decide (norm = "l2"%string)
              then sqrt (rsum ((fun x => x * x)%R <$> r))
              else foldr Rmax 0%R (Rabs <$> r)) <$> rows X in
    let norms := (fun x => if decide (x = 0%R) then 1%R else x) <$> norms in
    Ok (Mat (nrows X) (ncols X)
          (zip_with (fun r d => (fun x => x / d)%R <$> r) (rows X) norms)).

(** [x.astype(int)] of a [float64]: truncation towards zero. *)
Definition np_astype_int (x : R) : Z :=
  if Rle_dec 0 x then Int_part x else (- Int_part (- x))%Z.

(** ** The store of array buffers

    A numpy array object is a view on a block of memory; different objects
    can view one block ([.real], [.view(cls)], [return self]).  The store
    maps addresses to blocks; an array object names the address it views. *)

Definition addr := nat.

Inductive buffer :=
| FloatBuf (A : matrix R)
| ComplexBuf (A : matrix complex128).

#[global] Instance buffer_inhabited : Inhabited buffer :=
  populate (FloatBuf (Mat 0 0 [])).

(** The whole block, or the real parts of a complex block ([.real]). *)
Inductive view := Whole | RealPart.

Abbreviation store := (gmap addr buffer).

Definition heapM (A : Type) : Type := store -> result (A * store).

Definition hret {A} (a : A) : heapM A := fun σ => Ok (a, σ).

Definition hbind {A B} (c : heapM A) (f : A -> heapM B) : heapM B :=
  fun σ => match c σ with
           | Ok (a, σ') => f a σ'
           | Raise e => Raise e
           end.

Definition lift {A} (r : result A) : heapM A :=
  fun σ => match r with Ok a => Ok (a, σ) | Raise e => Raise e end.

Notation "'let!' x ':=' e 'in' k" := (hbind e (fun x => k))
  (at level 10, x name, e at level 100, k at level 200,
   format "'[v' 'let!'  x  ':='  e  'in' '/' k ']'").
Notation "e ';;!' k" := (hbind e (fun _ => k))
  (at level 100, k at level 200, right associativity).

Definition buf_real (b : buffer) : buffer :=
  match b with
  | FloatBuf A => FloatBuf A
  | ComplexBuf A => FloatBuf (matrix_map Re A)
  end.

Definition view_buffer (v : view) (b : buffer) : buffer :=
  match v with Whole => b | RealPart => buf_real b end.

(** What is written back to a block when the array seen through the view
    [v] is replaced by [new]. *)
Definition merge_view (v : view) (old new : buffer) : buffer :=
  match v, old, new with
  | RealPart, ComplexBuf A, FloatBuf B =>
      ComplexBuf (Mat (nrows A) (ncols A)
                    (zip_with (zip_with (fun z x => Cx x (Im z)))
                       (rows A) (rows B)))
  | _, _, _ => new
  end.

(** A new block holding [b]. *)
Definition alloc (b : buffer) : heapM addr :=
  fun σ => let a := fresh (dom σ) in Ok (a, <[a := b]> σ).

(** The array seen at address [a] through the view [v]. *)
Definition read (a : addr) (v : view) : heapM buffer :=
  fun σ => Ok (view_buffer v (σ !!! a), σ).

(** In-place change of the array seen at [a] through [v]. *)
Definition update (a : addr) (v : view) (f : buffer -> result buffer)
  : heapM unit :=
  fun σ =>
    let old := σ !!! a in
    let* new := f (view_buffer v old) in
    Ok (tt, <[a := merge_view v old new]> σ).

Definition buf_ncols (b : buffer) : nat :=
  match b with FloatBuf A => ncols A | ComplexBuf A => ncols A end.

Definition buf_nrows (b : buffer) : nat :=
  match b with FloatBuf A => nrows A | ComplexBuf A => nrows A end.

Definition is_complex (b : buffer) : bool :=
  match b with FloatBuf _ => false | ComplexBuf _ => true end.

Definition buf_take_cols (b : buffer) (ind : list nat) : result buffer :=
  match b with
  | FloatBuf A => let* A' := take_cols A ind in Ok (FloatBuf A')
  | ComplexBuf A => let* A' := take_cols A ind in Ok (ComplexBuf A')
  end.

(** [b[:, mask] = np.abs(b[:, mask])] *)
Definition buf_abs_where (mask : list bool) (b : buffer) : result buffer :=
  match b with
  | FloatBuf A => let* A' := map_cols_where mask Rabs A in Ok (FloatBuf A')
  | ComplexBuf A =>
      let* A' := map_cols_where mask (fun z => C_of_R (Cabs z)) A in
      Ok (ComplexBuf A')
  end.

(** [M.dot(X.T).T] for a [float64] matrix [M]. *)
Definition apply_left {T} `{Scalar T} (M : matrix R) (X : matrix T)
  : result (matrix T) :=
  let* p := dot (promote M) (transpose X) in
  Ok (transpose p).

Definition buf_apply_left (M : matrix R) (b : buffer) : result buffer :=
  match b with
  | FloatBuf X => let* Y := apply_left M X in Ok (FloatBuf Y)
  | ComplexBuf X => let* Y := apply_left M X in Ok (ComplexBuf Y)
  end.

(** ** Zernike moments: [class zmarray(np.ndarray)]

    A moment array object: the memory it views and its attributes [N],
    [n], [m] and [alpha].  The attributes are set once, in [__new__]; no
    method assigns them afterwards. *)
Record zmarray := ZM {
  z_data : addr;
  z_view : view;
  z_N : nat;
  z_n : list Z;
  z_m : list Z;
  z_alpha : option R;
}.

(** The body of [maps] after the weights [a] are built, on the copy [t]. *)
Definition maps_on {T} `{Scalar T} (t : matrix T) (m : list Z)
    (a : list (list R)) (reshape : bool) : result (ndarray T) :=
  (* abs(m) = 0, 1 components contribute too much to similarity, make then
     all zeros *)
  let* t := map_cols_where ((fun em => bool_decide (Z.abs em = 0%Z)) <$> m)
              (fun _ => s_zero) t in
  let* t := map_cols_where ((fun em => bool_decide (Z.abs em = 1%Z)) <$> m)
              (fun _ => s_zero) t in
  let nn := (fun r => sqrt (rsum ((fun x => s_abs x * s_abs x)%R <$> r)))
              <$> rows t in
  let t2 := Mat (nrows t) (ncols t)
              (zip_with (fun r d => (fun x => let y := s_divR x d in s_mul y y)
                                      <$> r) (rows t) nn) in
  let* ss := dot t2 (promote (Mat (length a) 1 a)) in
  let ss := (fun i => entry ss i 0) <$> seq 0 (nrows ss) in
  let size := Nat.sqrt (length ss) in
  if reshape && (size * size =? length ss)
  then Ok (NdArray [size; size] ss)
  else Ok (NdArray [length ss] ss).

Section ZmArray.
Context `{Utils}.

(** [zmarray.__new__(cls, input_array, n, m, alpha)], [input_array] being
    the array seen at [a] through [v]: the new object views the same
    memory. *)
Definition zmarray_new (a : addr) (v : view) (n m : option (list Z))
    (alpha : option R) : heapM zmarray :=
  let! b := read a v in
  let N := buf_ncols b in
  let n := match n with
           | None => (fun j => (j2nm (Z.of_nat j) alpha).1) <$> seq 0 N
           | Some n => n
           end in
  let m := match m with
           | None => (fun j => (j2nm (Z.of_nat j) alpha).2) <$> seq 0 N
           | Some m => m
           end in
  hret (ZM a v N n m alpha).

Definition select (self : zmarray) (states : states_arg) : heapM zmarray :=
  let states := _get_m_states (z_m self) states in
  let ind := np_where (np_in1d (Z.abs <$> z_m self) states) in
  let! b := read (z_data self) (z_view self) in
  let! cols := lift (buf_take_cols b ind) in
  let! a := alloc cols in
  let! n := lift (take_index (z_n self) ind) in
  let! m := lift (take_index (z_m self) ind) in
  zmarray_new a Whole (Some n) (Some m) (z_alpha self).

Definition complex (self : zmarray) : heapM zmarray :=
  let! b := read (z_data self) (z_view self) in
  match b with
  | FloatBuf X =>
      let! c_matrix :=
        lift (construct_complex_matrix (z_n self) (z_m self) (z_alpha self)) in
      let! p := lift (dot c_matrix (promote (transpose X))) in
      let! zm_complex := alloc (ComplexBuf (transpose p)) in
      (* update n and m *)
      let c_matrix :=
        matrix_map (fun z => if decide (z = Ci) then Cx 0 0 else z) c_matrix in
      let! m := lift (dot_vec c_matrix
                        ((fun x => C_of_R (IZR (Z.abs x))) <$> z_m self)) in
      let m := (fun z => np_astype_int (Re z)) <$> m in
      let! n := lift (dot_vec c_matrix
                        ((fun x => C_of_R (IZR (Z.abs x))) <$> z_n self)) in
      let n := (fun z => np_astype_int (Re z)) <$> n in
      zmarray_new zm_complex Whole (Some n) (Some m) (z_alpha self)
  | ComplexBuf _ => hret self
  end.

Definition rotinv (self : zmarray) : heapM zmarray :=
  let! zm_complex := complex self in
  let mask := (fun em => bool_decide (em = 0%Z)) <$> z_m zm_complex in
  update (z_data zm_complex) (z_view zm_complex)
         (buf_abs_where (negb <$> mask));;!
  (* zm_rotinv = zm_complex.real: a view on the memory of zm_complex *)
  zmarray_new (z_data zm_complex) RealPart
              (Some (z_n zm_complex)) (Some (z_m zm_complex)) (z_alpha self).

Definition rot (self : zmarray) (theta : R) : heapM zmarray :=
  let! rot_matrix :=
    lift (construct_rot_matrix (z_n self) (z_m self) theta None) in
  let! b := read (z_data self) (z_view self) in
  let! zm_rot := lift (buf_apply_left rot_matrix b) in
  let! a := alloc zm_rot in
  zmarray_new a Whole (Some (z_n self)) (Some (z_m self)) (z_alpha self).

Definition ref (self : zmarray) (theta : R) : heapM zmarray :=
  let! ref_matrix :=
    lift (construct_ref_matrix (z_n self) (z_m self) theta None) in
  let! b := read (z_data self) (z_view self) in
  let! zm_rot := lift (buf_apply_left ref_matrix b) in
  let! a := alloc zm_rot in
  zmarray_new a Whole (Some (z_n self)) (Some (z_m self)) (z_alpha self).

Definition maps (self : zmarray) (n_fold : Z) (reshape : bool)
  : heapM (ndarray R + ndarray complex128) :=
  let! a := lift (construct_rot_weight_matrix n_fold (z_m self)) in
  (* t = self.copy() *)
  let! t := read (z_data self) (z_view self) in
  match t with
  | FloatBuf t => let! ss := lift (maps_on t (z_m self) a reshape) in hret (inl ss)
  | ComplexBuf t => let! ss := lift (maps_on t (z_m self) a reshape) in hret (inr ss)
  end.

Definition normalize (self : zmarray) (norm : string) : heapM zmarray :=
  let! b := read (z_data self) (z_view self) in
  match b with
  | FloatBuf X =>
      let! Y := lift (sk_normalize X norm) in
      let! a := alloc (FloatBuf Y) in
      zmarray_new a Whole (Some (z_n self)) (Some (z_m self)) None
  | ComplexBuf _ => hret self
  end.

End ZmArray.

(** ** Operations on N-dimensional arrays *)

(** The rows of a row-major list: [r] rows of [c] entries. *)
Fixpoint chunks {T} (c r : nat) (l : list T) : list (list T) :=
  match r with
  | O => []
  | S r' => take c l :: chunks c r' (drop c l)
  end.

(** [a.reshape(r, -1)]: numpy cannot infer the second axis when [r] is
    zero or does not divide the number of entries. *)
Definition reshape_rows {T} (a : ndarray T) (r : nat) : result (matrix T) :=
  let total := numel (shape a) in
  if (r =? 0) then Raise ValueError
  else if (total `mod` r =? 0)
       then Ok (Mat r (total / r) (chunks (total / r) r (data a)))
       else Raise ValueError.

(** [a.reshape(newshape)] for an explicit shape; a negative length is
    refused (the only negative shapes the module can ask for have two
    entries [-1] or an entry below [-1]). *)
Definition np_reshape {T} (a : ndarray T) (newshape : list Z)
  : result (ndarray T) :=
  if forallb (fun d => (0 <=? d)%Z) newshape then
    let s := Z.to_nat <$> newshape in
    if numel s =? numel (shape a) then Ok (NdArray s (data a))
    else Raise ValueError
  else Raise ValueError.

(** A two-dimensional array as an [ndarray]. *)
Definition flatten {T} (A : matrix T) : ndarray T :=
  NdArray [nrows A; ncols A] (concat (rows A)).

(** The array [np.array(l)] of a list of rows as a matrix;
    [np.array([])] has shape [(0,)]. *)
Definition matrix_of_rows {T} (l : list (list T)) : matrix T :=
  Mat (length l) (length (default [] (head l))) l.

(** [for p in a]: the sub-arrays along the first axis. *)
Definition iter_axis0 {T} (a : ndarray T) : result (list (ndarray T)) :=
  match shape a with
  | [] => Raise TypeError
  | k :: s => Ok (NdArray s <$> chunks (numel s) k (data a))
  end.

(** numpy's broadcasting of two shapes, read from the last axis. *)
Fixpoint broadcast_rev (s1 s2 : list nat) : result (list nat) :=
  match s1, s2 with
  | [], s => Ok s
  | s, [] => Ok s
  | a :: s1', b :: s2' =>
      let* rest := broadcast_rev s1' s2' in
      if a =? b then Ok (a :: rest)
      else if a =? 1 then Ok (b :: rest)
      else if b =? 1 then Ok (a :: rest)
      else Raise ValueError
  end.

Definition broadcast_shapes (s1 s2 : list nat) : result (list nat) :=
  let* r := broadcast_rev (reverse s1) (reverse s2) in
  Ok (reverse r).

(** The multi-indices of a shape in row-major order. *)
Fixpoint indices (t : list nat) : list (list nat) :=
  match t with
  | [] => [[]]
  | d :: t' => i ← seq 0 d; (fun idx => i :: idx) <$> indices t'
  end.

(** The row-major position, in an array of shape [s], of the entry that
    the multi-index [idx] of a broadcast shape reads: the axes are aligned
    at the end and an axis of length one is repeated. *)
Definition offset (s idx : list nat) : nat :=
  foldl (fun acc (di : nat * nat) =>
           acc * di.1 + (if di.1 =? 1 then 0 else di.2))
        0 (zip s (drop (length idx - length s) idx)).

Definition broadcast_data (a : ndarray R) (t : list nat) : list R :=
  (fun idx => default 0%R (data a !! offset (shape a) idx)) <$> indices t.

(** [a * b] *)
Definition np_mul (a b : ndarray R) : result (ndarray R) :=
  let* t := broadcast_shapes (shape a) (shape b) in
  Ok (NdArray t (zip_with Rmult (broadcast_data a t) (broadcast_data b t))).

(** [np.broadcast_to(X, (k,) + X.shape)] *)
Definition np_broadcast_to {T} (X : ndarray T) (k : nat) : ndarray T :=
  NdArray (k :: shape X) (concat (replicate k (data X))).

Definition nd_map {T U} (f : T -> U) (a : ndarray T) : ndarray U :=
  NdArray (shape a) (f <$> data a).

(** [x ** y] on [float64]; the cases in which numpy answers [inf] or [nan]
    (a zero base with a negative exponent, a negative base) lie outside the
    real-number idealisation. *)
Definition np_float_power (x y : R) : R :=
  if decide (x = 0%R) then (if decide (y = 0%R) then 1%R else 0%R)
  else Rpower x y.

(** [sklearn.utils.check_array(X, allow_nd=True)]: at least two axes, at
    least one sample, and for a two-dimensional array at least one feature. *)
Definition check_array (X : ndarray R) : result (ndarray R) :=
  match shape X with
  | [] => Raise ValueError
  | [_] => Raise ValueError
  | n_samples :: rest =>
      if n_samples =? 0 then Raise ValueError
      else match rest with
           | [n_features] =>
               if n_features =? 0 then Raise ValueError else Ok X
           | _ => Ok X
           end
  end.

(** ** Numerical kernels of numpy and scipy

    [np.linalg.inv] ([None]: the matrix is singular), [np.linalg.pinv] and
    the entries that [scipy.signal.fftconvolve(in1, in2, mode='same',
    axes=[1, 2])] computes. *)
Class Kernels := {
  inv_entries : matrix R -> option (list (list R));
  pinv_entries : matrix R -> list (list R);
  fftconvolve_entries : ndarray R -> ndarray R -> list R;
}.

Section Extractor.
Context `{Utils} `{Kernels}.

Definition np_linalg_inv (A : matrix R) : result (matrix R) :=
  if decide (nrows A = ncols A) then
    match inv_entries A with
    | Some r => Ok (Mat (nrows A) (ncols A) r)
    | None => Raise LinAlgError
    end
  else Raise LinAlgError.

Definition np_linalg_pinv (A : matrix R) : matrix R :=
  Mat (ncols A) (nrows A) (pinv_entries A).

(** [fftconvolve(in1, in2, mode='same', axes=[1, 2])] *)
Definition fftconvolve (in1 in2 : ndarray R) : result (ndarray R) :=
  if negb (ndim in1 =? ndim in2) then Raise ValueError
  else if (numel (shape in1) =? 0) || (numel (shape in2) =? 0)
       then Ok (NdArray [0] [])
  else if ndim in1 <? 3 then Raise ValueError
  else
    (* off the convolved axes the shapes must broadcast *)
    if forallb (fun a : nat * (nat * nat) =>
                  (a.1 =? 1) || (a.1 =? 2) || (a.2.1 =? a.2.2)
                  || (a.2.1 =? 1) || (a.2.2 =? 1))
               (zip (seq 0 (ndim in1)) (zip (shape in1) (shape in2)))
    then Ok (NdArray (shape in1) (fftconvolve_entries in1 in2))
    else Raise ValueError.

(** *** Basis images *)

Definition get_Rn_matrix (n : list Z) (size : Z) (alpha : option R)
  : result (matrix R) :=
  let* n_max := np_max n in
  let r := (grid_rt size).1 in
  let disk_array := nd_map (fun x => if Rlt_dec 0 x then 1%R else 0%R) r in
  (* disk_array[size // 2, size // 2] = 1. *)
  let* disk_array :=
    match shape disk_array with
    | [a; b] =>
        let* i := norm_index a (size `div` 2) in
        let* j := norm_index b (size `div` 2) in
        Ok (NdArray [a; b] (<[i * b + j := 1%R]> (data disk_array)))
    | _ => Raise IndexError
    end in
  let w :=
    match alpha with
    | None => nd_map (fun _ => 1%R) r
    | Some alpha =>
        NdArray (shape r)
          (zip_with (fun x d => np_float_power (1 - x) (alpha / 2) * d)%R
             (data r) (data disk_array))
    end in
  let Rn_matrix :=
    ((fun i => zip_with (fun x w => x ^ Z.to_nat i * w)%R (data r) (data w))
       <$> reverse (arange 1 (n_max + 1)))
    ++ [zip_with Rmult (data disk_array) (data w)] in
  if (n_max + 1 <=? 0)%Z then Raise ValueError
  else reshape_rows (NdArray (length Rn_matrix :: shape r) (concat Rn_matrix))
         (Z.to_nat (n_max + 1)).

Definition get_mt_matrix (m : list Z) (size : Z) : matrix R :=
  let t := data (grid_rt size).2 in
  matrix_of_rows
    ((fun em => (fun x => if decide (0 <= em)%Z
                          then cos (IZR (Z.abs em) * x)
                          else sin (IZR (Z.abs em) * x)) <$> t) <$> m).

Definition generate_data_from_nm (n m : list Z) (size : Z) (alpha : option R)
    (reshape : bool) : result (ndarray R) :=
  let* Rn_matrix := get_Rn_matrix n size alpha in
  let mt_matrix := get_mt_matrix m size in
  let* c_matrix :=
    match alpha with
    | None => zp_get_coeffs n m true
    | Some alpha => gpzp_get_coeffs n m alpha true
    end in
  let c_matrix := matrix_of_rows c_matrix in
  let* Rnm_ := dot c_matrix Rn_matrix in
  let* prod := np_mul (flatten Rnm_) (flatten mt_matrix) in
  if reshape
  then np_reshape prod [Z.of_nat (nrows c_matrix); size; size]
  else Ok prod.

(** *** [class ZPs] *)

Record ZPs := {
  zps_n_max : Z;
  zps_size : Z;
  zps_alpha : option R;
  zps_states : states_arg;
  zps_j_max : Z;
  zps_n : list Z;
  zps_m : list Z;
  zps_n_components_ : nat;
  zps_data : ndarray R;
  zps_moments : option zmarray;
  zps_n_samples_ : option nat;
  zps_n_features_ : option nat;
}.

Definition ZPs_init (n_max size : Z) (alpha : option R) (states : states_arg)
  : result ZPs :=
  let j_max := nm2j n_max n_max alpha in
  let nm := (fun j => j2nm j alpha) <$> arange 0 (j_max + 1) in
  let n := fst <$> nm in
  let m := snd <$> nm in
  let states' := _get_m_states m states in
  let ind := np_where (np_in1d (Z.abs <$> m) states') in
  let* n := take_index n ind in
  let* m := take_index m ind in
  let n_components_ := length n in
  let* data := generate_data_from_nm n m size alpha true in
  Ok {| zps_n_max := n_max; zps_size := size; zps_alpha := alpha;
        zps_states := states; zps_j_max := j_max; zps_n := n; zps_m := m;
        zps_n_components_ := n_components_; zps_data := data;
        zps_moments := None; zps_n_samples_ := None;
        zps_n_features_ := None |}.

Definition set_moments (self : ZPs) (z : zmarray) : ZPs :=
  {| zps_n_max := zps_n_max self; zps_size := zps_size self;
     zps_alpha := zps_alpha self; zps_states := zps_states self;
     zps_j_max := zps_j_max self; zps_n := zps_n self; zps_m := zps_m self;
     zps_n_components_ := zps_n_components_ self; zps_data := zps_data self;
     zps_moments := Some z; zps_n_samples_ := zps_n_samples_ self;
     zps_n_features_ := zps_n_features_ self |}.

Definition set_samples (self : ZPs) (n_samples_ n_features_ : nat) : ZPs :=
  {| zps_n_max := zps_n_max self; zps_size := zps_size self;
     zps_alpha := zps_alpha self; zps_states := zps_states self;
     zps_j_max := zps_j_max self; zps_n := zps_n self; zps_m := zps_m self;
     zps_n_components_ := zps_n_components_ self; zps_data := zps_data self;
     zps_moments := zps_moments self; zps_n_samples_ := Some n_samples_;
     zps_n_features_ := Some n_features_ |}.

(** [self.moments = zmarray(moments, self.n, self.m, self.alpha)] for a
    freshly computed array [moments]. *)
Definition store_moments (self : ZPs) (moments : matrix R) : heapM ZPs :=
  let! a := alloc (FloatBuf moments) in
  let! z := zmarray_new a Whole (Some (zps_n self)) (Some (zps_m self))
              (zps_alpha self) in
  hret (set_moments self z).

(** The part of [fit] after the shape of [X] is settled: the dispatch on
    [method]. *)
Definition fit_method (self : ZPs) (X : ndarray R) (method : string)
  : heapM ZPs :=
  let! n_samples_ := lift (getitem (shape X) 0) in
  let n_features_ := numel (drop 1 (shape X)) in
  let self := set_samples self n_samples_ n_features_ in
  if decide (method = "matrix"%string) then
    let! X := lift (reshape_rows X n_samples_) in
    let! N := lift (getitem (shape (zps_data self)) 0) in
    let! data_ := lift (reshape_rows (zps_data self) N) in
    (* linear regression method *)
    let! g := lift (dot data_ (transpose data_)) in
    let! gi := lift (np_linalg_inv g) in
    let! p := lift (dot gi data_) in
    let! moments := lift (dot p (transpose X)) in
    store_moments self (transpose moments)
  (* this is very slow, here for validation *)
  else if decide (method = "direct"%string) then
    let zps := zps_data self in
    let! s := lift (getitem (shape X) 1) in
    let num_zps := length (zps_n self) in
    let! ps := lift (iter_axis0 X) in
    let! zs := lift (iter_axis0 zps) in
    let! moments :=
      lift (mapM (fun pz : ndarray R * ndarray R =>
                    let* q := np_mul pz.1 pz.2 in Ok (rsum (data q)))
              (p ← ps; (fun zp => (p, zp)) <$> zs)) in
    let! moments :=
      lift (np_reshape (NdArray [length moments] moments)
              [Z.of_nat n_samples_; Z.of_nat num_zps]) in
    let moments :=
      (fun x => x / (INR s * INR s / 4) / PI)%R <$> data moments in
    store_moments self (Mat n_samples_ num_zps (chunks num_zps n_samples_ moments))
  else if decide (method = "transpose"%string) then
    let! X := lift (reshape_rows X n_samples_) in
    let! N := lift (getitem (shape (zps_data self)) 0) in
    let! data_ := lift (reshape_rows (zps_data self) N) in
    let d := Nat.sqrt (ncols X) in
    let area := (PI * INR d * INR d / 4)%R in
    let! moments := lift (dot X (transpose data_)) in
    store_moments self (matrix_map (fun x => x / area)%R moments)
  else if decide (method = "pseudo"%string) then
    let! X := lift (reshape_rows X n_samples_) in
    let! N := lift (getitem (shape (zps_data self)) 0) in
    let! data_ := lift (reshape_rows (zps_data self) N) in
    let! moments := lift (dot X (np_linalg_pinv data_)) in
    store_moments self moments
  else if decide (method = "fftconv"%string) then
    let! moments := lift (fftconvolve X (zps_data self)) in
    let f := (fun en => if decide (1 - en `mod` 2 = 0)%Z then (-1)%R
                        else IZR (1 - en `mod` 2)) <$> zps_n self in
    let! d1 := lift (getitem (shape (zps_data self)) 1) in
    let area := (PI * INR d1 ^ 2 / 4)%R in
    let! moments :=
      lift (np_mul moments (NdArray [length f; 1; 1] f)) in
    let moments := nd_map (fun x => x / area)%R moments in
    let! moments := lift (reshape_rows moments (length (zps_m self))) in
    store_moments self (transpose moments)
  else hret self.

Definition fit (self : ZPs) (X : ndarray R) (method : string) : heapM ZPs :=
  let! X := lift (check_array X) in
  let! Xm :=
    lift (if ndim X =? 2 then
            let* x0 := getitem (shape X) 0 in
            let* x1 := getitem (shape X) 1 in
            let* d1 := getitem (shape (zps_data self)) 1 in
            if x0 =? d1 then
              (* X[np.newaxis, :] *)
              Ok (NdArray (1 :: shape X) (data X), method)
            else if d1 <? x0 then
              Ok (np_broadcast_to X (zps_n_components_ self), "fftconv"%string)
            else Ok (X, method)
          else Ok (X, method)) in
  fit_method self Xm.1 Xm.2.

End Extractor.

(** ** Notions used to state the properties *)

Definition wf_buffer (b : buffer) : Prop :=
  match b with FloatBuf A => wf_matrix A | ComplexBuf A => wf_matrix A end.

(** The array a moment array object shows in the store [σ]. *)
Definition zm_buffer (σ : store) (z : zmarray) : buffer :=
  view_buffer (z_view z) (σ !!! z_data z).

(** A moment array of the store: its memory is allocated, its rows agree
    with its shape, and the metadata has one entry per column. *)
Definition wf_zmarray (σ : store) (z : zmarray) : Prop :=
  is_Some (σ !! z_data z) /\
  wf_buffer (zm_buffer σ z) /\
  buf_ncols (zm_buffer σ z) = z_N z /\
  length (z_n z) = z_N z /\
  length (z_m z) = z_N z.

(** The columns of [A] at the true positions of [mask]. *)
Definition compress_cols {T} (mask : list bool) (A : matrix T) : matrix T :=
  Mat (nrows A) (length (np_where mask)) (compress mask <$> rows A).

Definition buf_compress_cols (mask : list bool) (b : buffer) : buffer :=
  match b with
  | FloatBuf A => FloatBuf (compress_cols mask A)
  | ComplexBuf A => ComplexBuf (compress_cols mask A)
  end.

(** The columns kept by the state filter: those whose [|m|] is among the
    resolved states. *)
Definition states_mask (m : list Z) (states : states_arg) : list bool :=
  np_in1d (Z.abs <$> m) (_get_m_states m states).

(** ** A concrete instance of the helpers, for the examples

    The module [.utils] is not among the sources; the examples below run
    the model with the OSA/ANSI single index [j = (n (n + 2) + m) / 2], its
    inverse, and a constant grid. *)

Definition osa_nm2j (n m : Z) (alpha : option R) : Z :=
  ((n * (n + 2) + m) `div` 2)%Z.

Definition osa_j2nm (j : Z) (alpha : option R) : Z * Z :=
  let n := ((Z.sqrt (8 * j + 1) - 1) `div` 2)%Z in
  (n, 2 * j - n * (n + 2))%Z.

Definition example_grid (size : Z) : ndarray R * ndarray R :=
  let k := Z.to_nat size in
  (NdArray [k; k] (replicate (k * k) (1 / 2)%R),
   NdArray [k; k] (replicate (k * k) 0%R)).

Definition example_utils : Utils :=
  {| nm2j := osa_nm2j; j2nm := osa_j2nm;
     nm2j_complex := fun n m alpha => osa_nm2j n m alpha;
     grid_rt := example_grid |}.

(** The projection weight as the specification words it: the average of
    [cos(|m| 2 pi k / n_fold)] over [k = 1 .. n_fold - 1]. *)
Definition average_cos_weight (n_fold m : Z) : R :=
  (rsum ((fun k => cos (IZR (Z.abs m) * 2 * PI * IZR k / IZR n_fold))
           <$> arange 1 n_fold)
   / IZR (n_fold - 1))%R.

(** ** Rotation in the canonical order

    [construct_rot_matrix] writes row [i] at the columns [nm2j(n_i, m_i)]
    and [nm2j(n_i, -m_i)]: it rotates a moment array whose column [i] is the
    polynomial of linear index [i], the partner [(n_i, -m_i)] of every
    column being a column as well. *)
Section CanonicalOrder.
Context `{Utils}.

Definition canonical_order (n m : list Z) : Prop :=
  length n = length m /\
  forall i en em, n !! i = Some en -> m !! i = Some em ->
    nm2j en em None = Z.of_nat i /\
    exists i', nm2j en (- em) None = Z.of_nat i' /\
               n !! i' = Some en /\ m !! i' = Some (- em)%Z.

(** Entry [(i, j)] of the rotation matrix of a moment array in the
    canonical order. *)
Definition rot_entry (theta : R) (n m : list Z) (i j : nat) : R :=
  match n !! i, m !! i with
  | Some en, Some em =>
      if decide (em = 0%Z) then (if decide (j = i) then 1%R else 0%R)
      else
        let t := (np_deg2rad theta * IZR (Z.abs em))%R in
        if decide (Z.of_nat j = nm2j en (- em) None)
        then (if decide (em < 0)%Z then (- sin t)%R else sin t)
        else if decide (j = i) then cos t else 0%R
  | _, _ => 0%R
  end.

End CanonicalOrder.

(** [x % 360] on [float64] (the sign of the divisor, as Python's [%]). *)
Definition mod360 (x : R) : R := (x - 360 * IZR (Int_part (x / 360)))%R.

(** The laws of the element types that the rotation identities use:
    addition is a commutative monoid and multiplication by a promoted
    real is linear. *)
Class ScalarLaws (T : Type) `{Scalar T} := {
  s_add_comm : forall x y : T, s_add x y = s_add y x;
  s_add_assoc : forall x y z : T, s_add x (s_add y z) = s_add (s_add x y) z;
  s_add_0_l : forall x : T, s_add s_zero x = x;
  s_mul_R0 : forall x : T, s_mul (s_of_R 0) x = s_zero;
  s_mul_R_add : forall (a : R) (x y : T),
    s_mul (s_of_R a) (s_add x y) =
    s_add (s_mul (s_of_R a) x) (s_mul (s_of_R a) y);
  s_mul_R_mul : forall (a b : R) (x : T),
    s_mul (s_of_R a) (s_mul (s_of_R b) x) = s_mul (s_of_R (a * b)) x;
  s_mul_R_plus : forall (a b : R) (x : T),
    s_add (s_mul (s_of_R a) x) (s_mul (s_of_R b) x) =
    s_mul (s_of_R (a + b)) x;
}.

Section RotationAction.
Context `{Utils} {T : Type} `{Scalar T}.

(** Entry [i] of the row [u] after [M.dot(u)] with the rotation matrix of
    [n], [m] and [theta]. *)
Definition rotated (theta : R) (n m : list Z) (u : nat -> T) (i : nat) : T :=
  ssum ((fun k => s_mul (s_of_R (rot_entry theta n m i k)) (u k))
          <$> seq 0 (length n)).

Definition rotate_matrix (theta : R) (n m : list Z) (X : matrix T) : matrix T :=
  mk_matrix (nrows X) (length n) (fun s i => rotated theta n m (entry X s) i).

End RotationAction.

Definition rotate_buffer `{Utils} (theta : R) (n m : list Z) (b : buffer)
  : buffer :=
  match b with
  | FloatBuf X => FloatBuf (rotate_matrix theta n m X)
  | ComplexBuf X => ComplexBuf (rotate_matrix theta n m X)
  end.

(** The sign of the sine entry in the row of [m]. *)
Definition msign (em : Z) : R := if decide (em < 0)%Z then (-1)%R else 1%R.

(** The rotation-composition property as it reads for every moment array
    of the store: [rot(a)] then [rot(b)] and [rot((a + b) mod 360)] all
    return, and return arrays with the same entries and metadata. *)
Definition rot_composition_at `{Utils} (σ : store) (self : zmarray) (a b : R)
  : Prop :=
  exists z1 σ1 z2 σ2 z3 σ3,
    rot self a σ = Ok (z1, σ1) /\
    rot z1 b σ1 = Ok (z2, σ2) /\
    rot self (mod360 (a + b)) σ = Ok (z3, σ3) /\
    zm_buffer σ2 z2 = zm_buffer σ3 z3 /\
    z_N z2 = z_N z3 /\ z_n z2 = z_n z3 /\ z_m z2 = z_m z3 /\
    z_alpha z2 = z_alpha z3.

Definition rot_composition_everywhere (U : Utils) : Prop :=
  forall (σ : store) (self : zmarray) (a b : R),
    wf_zmarray σ self -> rot_composition_at σ self a b.

(** A configured extractor with grid size [size]: the basis tensor has one
    [size x size] slice per polynomial, and there is at least one
    polynomial. *)
Definition configured (self : ZPs) (size : nat) : Prop :=
  shape (zps_data self) = [zps_n_components_ self; size; size] /\
  1 <= zps_n_components_ self /\
  length (zps_n self) = zps_n_components_ self /\
  length (zps_m self) = zps_n_components_ self.

(** Kernels for the examples: they are never reached there. *)
Definition example_kernels : Kernels :=
  {| inv_entries := fun _ => None; pinv_entries := fun _ => [];
     fftconvolve_entries := fun _ _ => [] |}.

(** A configured extractor for the examples: the single polynomial
    [(0, 0)] on a [2 x 2] grid. *)
Definition example_zps : ZPs :=
  {| zps_n_max := 0; zps_size := 2; zps_alpha := None;
     zps_states := StatesNone; zps_j_max := 0;
     zps_n := [0%Z]; zps_m := [0%Z]; zps_n_components_ := 1;
     zps_data := NdArray [1; 2; 2] [1; 1; 1; 1]%R;
     zps_moments := None; zps_n_samples_ := None; zps_n_features_ := None |}.

(** Every block of [σ] is still there, unchanged, in [σ']. *)
Definition preserved (σ σ' : store) : Prop :=
  forall a, is_Some (σ !! a) -> σ' !! a = σ !! a.

(** ** Laws of the element types, and proof tactics *)

#[global] Instance R_scalar_laws : ScalarLaws R.
Proof. split; intros; simpl; ring. Qed.

#[global] Instance complex128_scalar_laws : ScalarLaws complex128.
Proof.
  split; intros; repeat match goal with x : complex128 |- _ => destruct x end;
    unfold s_add, s_mul, s_zero, s_of_R; simpl;
    unfold Cadd, Cmul, C_of_R; simpl; f_equal; ring.
Qed.

(** Evaluates the integer constants under [IZR]. *)
Ltac norm_IZR :=
  repeat match goal with
         | |- context [IZR ?z] =>
             let z' := eval vm_compute in z in progress change z with z'
         end.

(** Unfolds the operations of the store monad. *)
Ltac heap_unfold :=
  repeat progress
    (try unfold zmarray_new in *; try unfold hbind in *;
     try unfold read in *; try unfold lift in *; try unfold alloc in *;
     try unfold update in *; try unfold hret in *; cbv beta in * ).
(** ** Further notions used to state the properties *)

(** The factor [gpzp_get_coeffs] multiplies the row of [(n, m)] with. *)
Definition gpzp_scale (normalize : bool) (alpha : R) (n m : Z) : R :=
  if normalize then
    let b := (n - Z.abs m)%Z in
    let q := (poch (IZR b + alpha + 1) (2 * Z.abs m + 1)
              / poch (IZR (b + 1)) (2 * Z.abs m + 1))%R in
    if decide (m = 0%Z) then sqrt ((IZR n + alpha / 2 + 1) * q)
    else sqrt ((IZR (2 * n) + alpha + 2) * q)
  else 1%R.

(** The moment of one image with one basis image as the methods [direct]
    and [transpose] of [fit] compute it: the sum of the products of the
    pixels, divided by the area [pi size^2 / 4] of the disk. *)
Definition projection (size : nat) (img zp : list R) : R :=
  (rsum (zip_with Rmult img zp) / (PI * INR size * INR size / 4))%R.

(** Entry [(r, i)] of the matrix of [construct_complex_matrix]: column [i]
    holds [vals[i]] in the row whose distinct complex index is [j2[i]]. *)
Definition complex_matrix_entry (uniq_j2 j2 : list Z) (vals : list complex128)
    (r i : nat) : complex128 :=
  match j2 !! i, vals !! i with
  | Some j, Some v => if decide (uniq_j2 !! r = Some j) then v else Cx 0 0
  | _, _ => Cx 0 0
  end.

(** The sum of the entries of row [s] of [X] over the columns that [keep]
    selects. *)
Definition row_sum_where (X : matrix R) (s : nat) (keep : nat -> bool) : R :=
  rsum ((fun i => if keep i then entry X s i else 0%R) <$> seq 0 (ncols X)).

(** Column [i] of a real moment array feeds the complex column of the
    distinct complex index [j]: [nm2j_complex(n_i, |m_i|) = j], with the
    sign of [m_i] as [nonneg] says. *)
Definition feeds `{Utils} (n m : list Z) (alpha : option R) (j : Z)
    (nonneg : bool) (i : nat) : bool :=
  match n !! i, m !! i with
  | Some en, Some em =>
      bool_decide (nm2j_complex en (Z.abs em) alpha = j) &&
      (if nonneg then bool_decide (0 <= em)%Z else bool_decide (em < 0)%Z)
  | _, _ => false
  end.

(** Multiplication by the promoted real [1] is the identity. *)
Class ScalarUnit (T : Type) `{Scalar T} := {
  s_mul_R1 : forall x : T, s_mul (s_of_R 1) x = x;
}.

#[global] Instance R_scalar_unit : ScalarUnit R.
Proof. split; intros; simpl; ring. Qed.

#[global] Instance complex128_scalar_unit : ScalarUnit complex128.
Proof.
  split; intros [a b]. unfold s_mul, s_of_R. simpl.
  unfold Cmul, C_of_R. simpl. f_equal; ring.
Qed.

(** ** Reflection in the canonical order *)

Section CanonicalReflection.
Context `{Utils}.

(** Entry [(i, j)] of the reflection matrix of a moment array in the
    canonical order. *)
Definition ref_entry (theta : R) (n m : list Z) (i j : nat) : R :=
  match n !! i, m !! i with
  | Some en, Some em =>
      if decide (em = 0%Z) then (if decide (j = i) then 1%R else 0%R)
      else
        let t := (2 * np_deg2rad theta * IZR (Z.abs em))%R in
        if decide (Z.of_nat j = nm2j en (- em) None) then (- sin t)%R
        else if decide (j = i)
             then (if decide (em < 0)%Z then (- cos t)%R else cos t)
             else 0%R
  | _, _ => 0%R
  end.

Context {T : Type} `{Scalar T}.

(** Entry [i] of the row [u] after [M.dot(u)] with the reflection matrix
    of [n], [m] and [theta]. *)
Definition reflected (theta : R) (n m : list Z) (u : nat -> T) (i : nat) : T :=
  ssum ((fun k => s_mul (s_of_R (ref_entry theta n m i k)) (u k))
          <$> seq 0 (length n)).

Definition reflect_matrix (theta : R) (n m : list Z) (X : matrix T) : matrix T :=
  mk_matrix (nrows X) (length n) (fun s i => reflected theta n m (entry X s) i).

End CanonicalReflection.

Definition reflect_buffer `{Utils} (theta : R) (n m : list Z) (b : buffer)
  : buffer :=
  match b with
  | FloatBuf X => FloatBuf (reflect_matrix theta n m X)
  | ComplexBuf X => ComplexBuf (reflect_matrix theta n m X)
  end.


(** The shape and the number of entries of the array [maps] returns,
    whatever its element type. *)
Definition map_shape (r : ndarray R + ndarray complex128) : list nat :=
  match r with inl a => shape a | inr a => shape a end.

Definition map_size (r : ndarray R + ndarray complex128) : nat :=
  match r with inl a => length (data a) | inr a => length (data a) end.

(** The moment array [z] with another [alpha]. *)
Definition with_alpha (z : zmarray) (alpha : option R) : zmarray :=
  ZM (z_data z) (z_view z) (z_N z) (z_n z) (z_m z) alpha.

(** What [maps] and [rot_curve] do first with the copy [t]: the columns
    with [|m| <= 1] are set to zero, every row is divided by its norm, and
    the entries are squared. *)
Definition normalized_squares {T} `{Scalar T} (t : matrix T) (m : list Z)
  : result (matrix T) :=
  let* t := map_cols_where ((fun em => bool_decide (Z.abs em = 0%Z)) <$> m)
              (fun _ => s_zero) t in
  let* t := map_cols_where ((fun em => bool_decide (Z.abs em = 1%Z)) <$> m)
              (fun _ => s_zero) t in
  let nn := (fun r => sqrt (rsum ((fun x => s_abs x * s_abs x)%R <$> r)))
              <$> rows t in
  Ok (Mat (nrows t) (ncols t)
        (zip_with (fun r d => (fun x => let y := s_divR x d in s_mul y y)
                                <$> r) (rows t) nn)).

(** The angles [2 pi k / n_fold], [k = 1 .. n_fold - 1], of the
    [n_fold]-fold rotations. *)
Definition fold_angles (n_fold : Z) : list R :=
  (fun k => (2 * PI / IZR n_fold * IZR k)%R) <$> arange 1 n_fold.

(** Kernels for the examples with a single polynomial: the inverse of a
    [1 x 1] matrix. *)
Definition scalar_kernels : Kernels :=
  {| inv_entries := fun A => Some [[ (/ entry A 0 0)%R ]];
     pinv_entries := fun _ => [];
     fftconvolve_entries := fun _ _ => [] |}.

(** ** The basis images, pixel by pixel *)

(** The disk indicator of [get_Rn_matrix] at the pixel [p], of radius [x],
    of an [s x s] grid: one where the radius is positive, and at the
    centre pixel. *)
Definition disk_value (s p : nat) (x : R) : R :=
  if decide (p = Z.to_nat (Z.of_nat s `div` 2) * s
                 + Z.to_nat (Z.of_nat s `div` 2))
  then 1%R
  else if Rlt_dec 0 x then 1%R else 0%R.

(** The value at the radius [x] of the polynomial with the coefficients
    [row], the highest power first; the constant term is multiplied by
    [d]. *)
Definition radial_value (row : list R) (x d : R) : R :=
  rsum ((fun j => (default 0 (row !! j)
                   * (if decide (S j = length row) then d
                      else x ^ (length row - 1 - j)))%R)
          <$> seq 0 (length row)).

(** The azimuthal factor of the polynomial with index [m] at the angle
    [t]. *)
Definition angular_value (em : Z) (t : R) : R :=
  if decide (0 <= em)%Z then cos (IZR (Z.abs em) * t)
  else sin (IZR (Z.abs em) * t).
(** ** The remaining methods of [zmarray] *)

(** [np.linspace(start, stop, num)] *)
Definition np_linspace (start stop : R) (num : nat) : list R :=
  (fun i => (start + INR i * ((stop - start) / INR (num - 1)))%R) <$> seq 0 num.

(** [np.array([f(m * t) for m in ms for t in thetas]).reshape(len(ms), -1)] *)
Definition angle_table (f : R -> R) (ms : list Z) (thetas : list R)
  : result (matrix R) :=
  let l := m ← ms; (fun t => f (IZR m * t)%R) <$> thetas in
  reshape_rows (NdArray [length l] l) (length ms).

(** The body of [rot_curve] on the copy [t]. *)
Definition rot_curve_on {T} `{Scalar T} (t : matrix T) (m : list Z)
    (thetas : list R) : result (matrix T) :=
  let* t := map_cols_where ((fun em => bool_decide (Z.abs em = 0%Z)) <$> m)
              (fun _ => s_zero) t in
  let* t := map_cols_where ((fun em => bool_decide (Z.abs em = 1%Z)) <$> m)
              (fun _ => s_zero) t in
  let nn := (fun r => sqrt (rsum ((fun x => s_abs x * s_abs x)%R <$> r)))
              <$> rows t in
  let t2 := Mat (nrows t) (ncols t)
              (zip_with (fun r d => (fun x => let y := s_divR x d in s_mul y y)
                                      <$> r) (rows t) nn) in
  let ms := Z.abs <$> m in
  let* cosmt := angle_table cos ms thetas in
  dot t2 (promote cosmt).

Definition rot_curve (self : zmarray) (thetas : option (list R))
  : heapM (matrix R + matrix complex128) :=
  let thetas := match thetas with
                | None => np_linspace 0 (2 * PI) 360
                | Some thetas => thetas
                end in
  (* make a copy of Zernike moments *)
  let! t := read (z_data self) (z_view self) in
  match t with
  | FloatBuf t =>
      let! tt := lift (rot_curve_on t (z_m self) thetas) in hret (inl tt)
  | ComplexBuf t =>
      let! tt := lift (rot_curve_on t (z_m self) thetas) in hret (inr tt)
  end.

(** [self.copy()]: a new block with the entries of the receiver;
    [__array_finalize__] gives the copy the receiver's [n], [m] and
    [alpha] (the attribute [N], which no method reads, is kept here). *)
Definition zm_copy (self : zmarray) : heapM zmarray :=
  let! b := read (z_data self) (z_view self) in
  let! a := alloc b in
  hret (ZM a Whole (z_N self) (z_n self) (z_m self) (z_alpha self)).

(** The entries of [z.real] and [z.imag]. *)
Definition buf_re (b : buffer) : matrix R :=
  match b with
  | FloatBuf A => A
  | ComplexBuf A => matrix_map Re A
  end.

Definition buf_im (b : buffer) : matrix R :=
  match b with
  | FloatBuf A => matrix_map (fun _ => 0%R) A
  | ComplexBuf A => matrix_map Im A
  end.

(** The length of an axis under numpy's broadcasting, and the position
    read on an axis of length [d]. *)
Definition broadcast_dim (a b : nat) : result nat :=
  if a =? b then Ok a
  else if a =? 1 then Ok b
  else if b =? 1 then Ok a
  else Raise ValueError.

Definition broadcast_pos (d i : nat) : nat := if d =? 1 then 0 else i.

(** An element-wise binary operation on two two-dimensional arrays. *)
Definition np_binop2 (f : R -> R -> R) (A B : matrix R) : result (matrix R) :=
  let* r := broadcast_dim (nrows A) (nrows B) in
  let* c := broadcast_dim (ncols A) (ncols B) in
  Ok (mk_matrix r c (fun i j =>
        f (entry A (broadcast_pos (nrows A) i) (broadcast_pos (ncols A) j))
          (entry B (broadcast_pos (nrows B) i) (broadcast_pos (ncols B) j)))).

(** [np.hstack([A, B])] and [np.vstack([A, B])] for two-dimensional
    arrays. *)
Definition np_hstack {T} (A B : matrix T) : result (matrix T) :=
  if decide (nrows A = nrows B)
  then Ok (Mat (nrows A) (ncols A + ncols B) (zip_with app (rows A) (rows B)))
  else Raise ValueError.

Definition np_vstack {T} (A B : matrix T) : result (matrix T) :=
  if decide (ncols A = ncols B)
  then Ok (Mat (nrows A + nrows B) (ncols A) (rows A ++ rows B))
  else Raise ValueError.

(** [tt.max(axis=1)]: numpy refuses to reduce an axis of length zero. *)
Definition np_max_axis1 (A : matrix R) : result (list R) :=
  if ncols A =? 0 then Raise ValueError
  else Ok ((fun r => match r with
                     | [] => 0%R
                     | x :: l => foldr Rmax x l
                     end) <$> rows A).

Section ZmArrayCurves.
Context `{Utils}.

Definition reflect_curve (self : zmarray) (thetas : option (list R))
  : heapM (matrix R) :=
  let thetas := match thetas with
                | None => np_linspace 0 (2 * PI) 360
                | Some thetas => thetas
                end in
  (* make a copy of Zernike moments *)
  let! t := zm_copy self in
  (* remove m = 0 terms and normalize *)
  let! s := select t (StatesScalar (-1)) in
  let! nn := normalize s "l2" in
  let! c := complex nn in
  let! cb := read (z_data c) (z_view c) in
  let a := buf_re cb in
  let! c := complex nn in
  let! cb := read (z_data c) (z_view c) in
  let b := buf_im cb in
  let! coeffs1 :=
    lift (np_binop2 Rminus (matrix_map (fun x => x * x)%R a)
            (matrix_map (fun x => x * x)%R b)) in
  let! coeffs2 :=
    lift (np_binop2 Rmult (matrix_map (fun x => 2 * x)%R a) b) in
  let! coeffs := lift (np_hstack coeffs1 coeffs2) in
  let! c := complex nn in
  let ms := z_m c in
  let! sinmt := lift (angle_table sin ms thetas) in
  let! cosmt := lift (angle_table cos ms thetas) in
  let! cos_sinmt := lift (np_vstack cosmt sinmt) in
  lift (dot coeffs cos_sinmt).

Definition reflect_map (self : zmarray) (thetas : option (list R))
    (reshape : bool) : heapM (ndarray R) :=
  let thetas := match thetas with
                | None => take 360 (np_linspace 0 (2 * PI) 361)
                | Some thetas => thetas
                end in
  let! tt := reflect_curve self (Some thetas) in
  let! symm_map := lift (np_max_axis1 tt) in
  let size := Nat.sqrt (length symm_map) in
  if reshape && (size * size =? length symm_map)
  then hret (NdArray [size; size] symm_map)
  else hret (NdArray [length symm_map] symm_map).

End ZmArrayCurves.

(** [reconstruct]: the entries and the shape of the result. *)
Definition reconstruct (self : zmarray) (zps_data : ndarray R)
  : heapM (ndarray R + ndarray complex128) :=
  let! d0 := lift (getitem (shape zps_data) 0) in
  let! data_ := lift (reshape_rows zps_data d0) in
  let! b := read (z_data self) (z_view self) in
  let! d1 := lift (getitem (shape zps_data) 1) in
  let! d2 := lift (getitem (shape zps_data) 2) in
  let shape := [Z.of_nat (buf_nrows b); Z.of_nat d1; Z.of_nat d2] in
  match b with
  | FloatBuf X =>
      let! p := lift (dot X data_) in
      let! r := lift (np_reshape (flatten p) shape) in
      hret (inl r)
  | ComplexBuf X =>
      let! p := lift (dot X (promote data_)) in
      let! r := lift (np_reshape (flatten p) shape) in
      hret (inr r)
  end.

(** ** Views of a moment array

    [z[0]] and [z[:, 0:stop]] are views on the memory of [z].
    [__array_finalize__] gives a view the [n], [m] and [alpha] of the array
    it is taken from, as they are. *)
Inductive zm_view :=
| AllOf (z : zmarray)
| RowOf (z : zmarray) (i : nat)
| ColsOf (z : zmarray) (stop : nat).

Definition view_base (v : zm_view) : zmarray :=
  match v with AllOf z | RowOf z _ | ColsOf z _ => z end.

(** [__array_finalize__]: the metadata of a view. *)
Definition view_n (v : zm_view) : list Z := z_n (view_base v).
Definition view_m (v : zm_view) : list Z := z_m (view_base v).
Definition view_alpha (v : zm_view) : option R := z_alpha (view_base v).

(** The shape of a view of an array with [r] rows and [c] columns. *)
Definition view_shape (v : zm_view) (r c : nat) : list nat :=
  match v with
  | AllOf _ => [r; c]
  | RowOf _ _ => [c]
  | ColsOf _ stop => [r; stop]
  end.

(** The end of the slice [0:stop] on an axis of length [len]. *)
Definition slice_stop (len : nat) (stop : Z) : nat :=
  if (stop <? 0)%Z then Z.to_nat (Z.max 0 (Z.of_nat len + stop))
  else Z.to_nat (Z.min (Z.of_nat len) stop).

Section Functional.
Context `{Utils} `{Kernels}.

(** [fit_transform]: [fit] with the default method, then the moments, or
    their first row when there is one sample.  [fit] with the method
    [matrix] (or [fftconv], which it may switch to) assigns [moments]
    before it returns, so the [None] of the constructor is never met
    here and in [ps_zps] and [ps_pzp]; the error of that branch stands for
    Python's [AttributeError] on [None.shape]. *)
Definition fit_transform (self : ZPs) (X : ndarray R)
  : heapM (ZPs * zm_view) :=
  let! self := fit self X "matrix" in
  match zps_moments self with
  | Some X_new =>
      let! b := read (z_data X_new) (z_view X_new) in
      if buf_nrows b =? 1 then hret (self, RowOf X_new 0)
      else hret (self, AllOf X_new)
  | None => lift (Raise TypeError)
  end.

Definition n_components_to_nmax (n_components : Z) (alpha : option R) : Z :=
  (j2nm (n_components - 1) alpha).1.

Definition ps_zps (ps : ndarray R) (n_components : Z) : heapM zm_view :=
  let n_max := n_components_to_nmax n_components None in
  let! size := lift (getitem (shape ps) 1) in
  let! zps := lift (ZPs_init n_max (Z.of_nat size) None StatesNone) in
  let! zps := fit zps ps "matrix" in
  match zps_moments zps with
  | Some moments =>
      let! b := read (z_data moments) (z_view moments) in
      hret (ColsOf moments (slice_stop (buf_ncols b) n_components))
  | None => lift (Raise TypeError)
  end.

Definition ps_pzp (ps : ndarray R) (n_components : Z) (alpha : R)
  : heapM zm_view :=
  let n_max := n_components_to_nmax n_components (Some alpha) in
  let! size := lift (getitem (shape ps) 1) in
  let! zps := lift (ZPs_init n_max (Z.of_nat size) (Some alpha) StatesNone) in
  let! zps := fit zps ps "matrix" in
  match zps_moments zps with
  | Some moments =>
      let! b := read (z_data moments) (z_view moments) in
      hret (ColsOf moments (slice_stop (buf_ncols b) n_components))
  | None => lift (Raise TypeError)
  end.

End Functional.
(** * Properties

    ** Coefficient generation *)

Lemma binomial_pos n k : k <= n -> 0 < binomial n k.
Proof.
  revert k; induction n as [|n IH]; intros [|k] Hk; simpl; try lia.
  specialize (IH k ltac:(lia)). lia.
Qed.

Lemma np_max_ge N n_max n :
  np_max N = Ok n_max -> n ∈ N -> (n <= n_max)%Z.
Proof.
  destruct N as [|x l]; simpl; [discriminate|]. intros [= <-].
  revert n; induction l as [|y l IH]; intros n Hn; simpl.
  - apply list_elem_of_singleton in Hn. lia.
  - assert (Hx : n ∈ x :: l -> (n <= Z.max y (foldr Z.max x l))%Z).
    { intros H. specialize (IH n H). lia. }
    apply elem_of_cons in Hn as [->|Hn]; [apply Hx; left|].
    apply elem_of_cons in Hn as [->|Hn]; [lia|].
    apply Hx. by right.
Qed.

Lemma binom_nonzero n k : (0 <= k <= n)%Z -> binom n k <> 0%R.
Proof.
  intros H. unfold binom. destruct (Z.ltb_spec k 0); [lia|].
  apply not_0_INR. pose proof (binomial_pos (Z.to_nat n) (Z.to_nat k)). lia.
Qed.

Lemma binom_neg n k : (k < 0)%Z -> binom n k = 0%R.
Proof. intros H. unfold binom. destruct (Z.ltb_spec k 0); [done|lia]. Qed.

Lemma sign_nonzero k : (0 <= k)%Z -> IZR ((-1) ^ k) <> 0%R.
Proof. intros H. apply not_0_IZR. apply Z.pow_nonzero; lia. Qed.

Lemma zp_row_length n_max n m :
  (0 <= n <= n_max)%Z -> length (zp_row n_max n m) = Z.to_nat (n_max + 1).
Proof.
  intros H. unfold zp_row, arange.
  rewrite length_app, length_replicate, length_imap, length_fmap, length_seqZ. lia.
Qed.

Lemma zp_row_padding n_max n m j :
  j < Z.to_nat (n_max - n) -> zp_row n_max n m !! j = Some 0%R.
Proof.
  intros H. unfold zp_row. rewrite lookup_app_l by (rewrite length_replicate; lia).
  apply lookup_replicate_2. done.
Qed.

Lemma zp_row_lookup n_max n m i :
  (Z.of_nat i <= n)%Z ->
  zp_row n_max n m !! (Z.to_nat (n_max - n) + i) = Some (zp_entry n m i).
Proof.
  intros H. unfold zp_row, arange.
  rewrite lookup_app_r by (rewrite length_replicate; lia).
  rewrite length_replicate. replace (_ + i - _) with i by lia.
  rewrite list_lookup_imap, list_lookup_fmap, lookup_seqZ_lt by lia.
  simpl. unfold zp_entry. rewrite Z.add_0_l. done.
Qed.

Lemma zp_entry_nonzero n m i :
  (0 <= m <= n)%Z -> ((n - m) `mod` 2 = 0)%Z -> (Z.of_nat i <= n)%Z ->
  zp_entry n m i <> 0%R <->
  (Z.of_nat i `mod` 2 = 0 /\ Z.of_nat i `div` 2 <= (n - m) `div` 2)%Z.
Proof.
  intros Hm Hpar Hi. unfold zp_entry.
  destruct (decide _) as [He|Ho]; [|split; [intros []; done | intros []; done]].
  split.
  - intros Hne. split; [done|].
    destruct (Z.le_gt_cases (Z.of_nat i `div` 2) ((n - m) `div` 2)) as [|Hgt]; [done|].
    exfalso. apply Hne. rewrite (binom_neg (n - _) (_ - _)) by lia. lra.
  - intros [_ Hle].
    assert (0 <= Z.of_nat i `div` 2)%Z by (apply Z.div_pos; lia).
    assert (2 * (Z.of_nat i `div` 2) <= Z.of_nat i)%Z by (apply Z.mul_div_le; lia).
    assert (2 * ((n - m) `div` 2) <= n - m)%Z by (apply Z.mul_div_le; lia).
    repeat apply Rmult_integral_contrapositive_currified.
    + by apply sign_nonzero.
    + apply binom_nonzero; lia.
    + apply binom_nonzero; lia.
Qed.

Lemma np_array_uniform {A} (l : list (list A)) k :
  Forall (fun r => length r = k) l -> np_array l = Ok l.
Proof.
  intros H. destruct l as [|r l']; [done|]. unfold np_array.
  assert (forallb (fun r' => length r' =? length r) (r :: l') = true) as ->; [|done].
  apply forallb_forall. intros x Hx%list_elem_of_In.
  rewrite Forall_forall in H. apply Nat.eqb_eq.
  rewrite (H x Hx). symmetry. apply H. left.
Qed.

Lemma zp_scale_pos nz n m : (0 <= n)%Z -> (0 < zp_scale nz n m)%R.
Proof.
  intros H. unfold zp_scale. destruct nz; [|lra].
  destruct (decide _); apply sqrt_lt_R0, IZR_lt; lia.
Qed.

Lemma broadcast1_same_length {A B C} (f : A -> B -> C) a b :
  length a = length b -> broadcast1 f a b = Ok (zip_with f a b).
Proof. intros H. unfold broadcast1. by rewrite decide_True. Qed.

Lemma zp_get_coeffs_valid N M nz n_max :
  valid_nm N M -> np_max N = Ok n_max ->
  exists c, zp_get_coeffs N M nz = Ok c /\ length c = length N /\
    forall i n m, N !! i = Some n -> M !! i = Some m ->
      c !! i = Some ((fun x => x * zp_scale nz n m)%R <$> zp_row n_max n (Z.abs m)).
Proof.
  intros [Hne HF] Hmax.
  pose proof (Forall2_length _ _ _ HF) as Hlen.
  unfold zp_get_coeffs. cbv zeta. rewrite Hmax. cbn [rbind].
  rewrite broadcast1_same_length by (by rewrite length_fmap). cbn [rbind].
  assert (forallb (fun x => (x `mod` 2 =? 0)%Z) (zip_with Z.sub N (Z.abs <$> M)) = true) as ->.
  { apply forallb_forall. intros x Hx%list_elem_of_In.
    apply elem_of_lookup_zip_with in Hx as (i & n & m' & -> & Hn & Hm).
    rewrite list_lookup_fmap in Hm. destruct (M !! i) as [m|] eqn:HM; [|done].
    injection Hm as <-. 
    destruct (Forall2_lookup_lr _ _ _ _ _ _ HF Hn HM) as [_ ->]. done. }
  cbn [rbind py_assert].
  set (l := (fun nm : Z * Z => zp_row n_max nm.1 nm.2) <$> zip N (Z.abs <$> M)).
  assert (Hl : forall i n m, N !! i = Some n -> M !! i = Some m ->
                l !! i = Some (zp_row n_max n (Z.abs m))).
  { intros i n m Hn Hm. unfold l. rewrite list_lookup_fmap.
    erewrite (proj2 (lookup_zip_Some _ _ _ _ _)); [done|].
    split; [done|]. by rewrite list_lookup_fmap, Hm. }
  assert (Hll : length l = length N).
  { unfold l. rewrite length_fmap, length_zip, length_fmap. lia. }
  rewrite (np_array_uniform l (Z.to_nat (n_max + 1))).
  2:{ apply Forall_lookup. intros i r Hr.
      destruct (N !! i) as [n|] eqn:Hn.
      2:{ apply lookup_ge_None in Hn. apply lookup_lt_Some in Hr. lia. }
      destruct (M !! i) as [m|] eqn:Hm.
      2:{ apply lookup_ge_None in Hm. apply lookup_lt_Some in Hn. lia. }
      rewrite (Hl _ _ _ Hn Hm) in Hr. injection Hr as <-.
      apply zp_row_length.
      destruct (Forall2_lookup_lr _ _ _ _ _ _ HF Hn Hm) as [? _].
      split; [lia|]. eapply np_max_ge; [done|]. by eapply list_elem_of_lookup_2. }
  cbn [rbind]. destruct nz.
  - unfold zp_norm. rewrite decide_True by done. cbn [rbind].
    eexists. split; [done|]. split.
    { rewrite !length_zip_with. lia. }
    intros i n m Hn Hm. rewrite lookup_zip_with, (Hl _ _ _ Hn Hm). simpl.
    rewrite lookup_zip_with, Hn, Hm. simpl. done.
  - exists l. split; [done|]. split; [done|].
    intros i n m Hn Hm. rewrite (Hl _ _ _ Hn Hm). f_equal.
    unfold zp_scale. symmetry. etrans; [|apply list_fmap_id].
    apply list_fmap_ext. intros; simpl. lra.
Qed.
(** C9. For a valid index list with maximum degree [n_max],
    [zp_get_coeffs] returns one row per polynomial, every row of width
    [n_max + 1]; the row of a polynomial of degree [n] starts with exactly
    [n_max - n] zeros (the entry after them is not zero), and among the
    remaining [n + 1] entries the one at offset [k] is non-zero only when
    [k] is even (precisely: when [k] is even and [k/2 <= (n-|m|)/2]). *)
Theorem zp_get_coeffs_layout N M normalize n_max :
  valid_nm N M -> np_max N = Ok n_max ->
  exists c, zp_get_coeffs N M normalize = Ok c /\ length c = length N /\
    forall i n m, N !! i = Some n -> M !! i = Some m ->
      exists row, c !! i = Some row /\
        length row = Z.to_nat (n_max + 1) /\
        (forall j, j < Z.to_nat (n_max - n) -> row !! j = Some 0%R) /\
        (exists x, row !! Z.to_nat (n_max - n) = Some x /\ x <> 0%R) /\
        (forall k x, row !! (Z.to_nat (n_max - n) + k) = Some x ->
           x <> 0%R <->
           (Z.of_nat k `mod` 2 = 0 /\
            Z.of_nat k `div` 2 <= (n - Z.abs m) `div` 2)%Z).
Proof.
  intros Hv Hmax.
  destruct (zp_get_coeffs_valid N M normalize n_max Hv Hmax) as (c & Hc & Hlen & Hrows).
  exists c. split; [done|]. split; [done|].
  intros i n m Hn Hm. destruct Hv as [_ HF].
  destruct (Forall2_lookup_lr _ _ _ _ _ _ HF Hn Hm) as [Hnm Hpar].
  assert (Hle : (n <= n_max)%Z).
  { eapply np_max_ge; [done|]. by eapply list_elem_of_lookup_2. }
  pose proof (zp_scale_pos normalize n m ltac:(lia)) as Hs.
  eexists. split; [by apply Hrows|].
  split; [rewrite length_fmap; apply zp_row_length; lia|].
  split; [|split].
  - intros j Hj. rewrite list_lookup_fmap, zp_row_padding by done. simpl.
    f_equal. lra.
  - eexists. split.
    + rewrite list_lookup_fmap.
      rewrite <- (Nat.add_0_r (Z.to_nat (n_max - n))), zp_row_lookup by lia. done.
    + apply Rmult_integral_contrapositive_currified; [|lra].
      apply zp_entry_nonzero; [lia|done|lia|].
      simpl. split; [done|]. apply Z.div_pos; lia.
  - intros k x Hx. rewrite list_lookup_fmap in Hx.
    assert (Hk : (Z.of_nat k <= n)%Z).
    { destruct (zp_row n_max n (Z.abs m) !! _) eqn:E; [|done].
      apply lookup_lt_Some in E. rewrite zp_row_length in E; lia. }
    rewrite zp_row_lookup in Hx by done. injection Hx as <-.
    rewrite <- (zp_entry_nonzero n (Z.abs m) k) by (done || lia).
    split.
    + intros H Hz. apply H. rewrite Hz. lra.
    + intros H. apply Rmult_integral_contrapositive_currified; [done|lra].
Qed.

Lemma zp_get_coeffs_layout_witness :
  exists c, zp_get_coeffs [0; 2; 2]%Z [0; -2; 0]%Z true = Ok c /\ length c = 3 /\
    forall i n m, [0; 2; 2]%Z !! i = Some n -> [0; -2; 0]%Z !! i = Some m ->
      exists row, c !! i = Some row /\
        length row = Z.to_nat (2 + 1) /\
        (forall j, j < Z.to_nat (2 - n) -> row !! j = Some 0%R) /\
        (exists x, row !! Z.to_nat (2 - n) = Some x /\ x <> 0%R) /\
        (forall k x, row !! (Z.to_nat (2 - n) + k) = Some x ->
           x <> 0%R <->
           (Z.of_nat k `mod` 2 = 0 /\
            Z.of_nat k `div` 2 <= (n - Z.abs m) `div` 2)%Z).
Proof.
  apply (zp_get_coeffs_layout [0; 2; 2]%Z [0; -2; 0]%Z true 2).
  - split; [done|]. repeat constructor; simpl; lia.
  - reflexivity.
Defined.
Lemma np_max_is_ok N : N <> [] -> exists n_max, np_max N = Ok n_max.
Proof. destruct N; [done|]. intros _. by eexists. Qed.

Lemma zp_get_coeffs_odd_raises N M normalize i n m :
  N !! i = Some n -> M !! i = Some m -> ((n - Z.abs m) `mod` 2 <> 0)%Z ->
  exists e, zp_get_coeffs N M normalize = Raise e /\
    (length N = length M -> e = AssertionError).
Proof.
  intros Hn Hm Hodd.
  destruct (np_max_is_ok N) as [n_max Hmax]; [by intros ->|].
  unfold zp_get_coeffs. cbv zeta. rewrite Hmax. cbn [rbind].
  assert (Hfail : forall d, d !! i = Some (n - Z.abs m)%Z ->
            py_assert (forallb (fun x => (x `mod` 2 =? 0)%Z) d) = Raise AssertionError).
  { intros d Hd. unfold py_assert.
    destruct (forallb _ d) eqn:E; [|done].
    rewrite forallb_forall in E.
    specialize (E (n - Z.abs m)%Z).
    rewrite Z.eqb_eq in E. exfalso. apply Hodd, E.
    apply list_elem_of_In. by eapply list_elem_of_lookup_2. }
  unfold broadcast1. destruct (decide _) as [Hlen|Hlen].
  - cbn [rbind]. rewrite Hfail.
    + by eexists.
    + rewrite lookup_zip_with, Hn, list_lookup_fmap, Hm. done.
  - rewrite length_fmap in Hlen.
    destruct N as [|x [|x' N']].
    + done.
    + destruct i; [|done]. injection Hn as ->. cbn [rbind]. rewrite Hfail.
      * by eexists.
      * rewrite !list_lookup_fmap, Hm. done.
    + destruct (Z.abs <$> M) as [|y [|y' M']] eqn:EM.
      * destruct M; [done|discriminate].
      * destruct M as [|m0 [|? ?]]; try discriminate.
        destruct i; [|done]. injection Hm as ->. injection EM as <-.
        cbn [rbind]. rewrite Hfail; [by eexists|].
        rewrite list_lookup_fmap, Hn. done.
      * cbn [rbind]. by eexists.
Qed.


Lemma mapM_result_ok {A B} (f : A -> result B) l k :
  Forall2 (fun x y => f x = Ok y) l k -> mapM f l = Ok k.
Proof.
  induction 1 as [|x y l k Hxy _ IH]; [done|].
  cbn. rewrite Hxy. cbn. rewrite IH. done.
Qed.

Lemma gpzp_row_length n_max alpha a b c n :
  (0 <= b <= n)%Z -> (n <= n_max)%Z ->
  length (gpzp_row n_max alpha a b c n) = Z.to_nat (n_max + 1).
Proof.
  intros Hb Hn. unfold gpzp_row, arange.
  rewrite !length_app, !length_replicate, length_fmap, length_seqZ. lia.
Qed.

Lemma gpzp_get_coeffs_ok N M alpha normalize n_max :
  N <> [] -> Forall2 (fun n m => (Z.abs m <= n)%Z) N M ->
  np_max N = Ok n_max ->
  exists c, gpzp_get_coeffs N M alpha normalize = Ok c /\
    length c = length N /\
    Forall (fun row => length row = Z.to_nat (n_max + 1)) c.
Proof.
  intros Hne HF Hmax.
  pose proof (Forall2_length _ _ _ HF) as Hlen.
  unfold gpzp_get_coeffs. cbv zeta. rewrite Hmax. cbn [rbind].
  rewrite !broadcast1_same_length by (by rewrite length_fmap). cbn [rbind].
  set (A := zip_with Z.add N (Z.abs <$> M)).
  set (B := zip_with Z.sub N (Z.abs <$> M)).
  set (C := (fun a => _) <$> A).
  set (l := zip_with (fun n m =>
                gpzp_row n_max alpha (n + Z.abs m) (n - Z.abs m)
                  (factorial (n + Z.abs m + 1) / poch (alpha + 1) (n + Z.abs m + 1))%R n) N M).
  rewrite (mapM_result_ok _ _ l).
  2:{ apply Forall2_same_length_lookup. split.
      { unfold l. rewrite length_seq, length_zip_with. lia. }
      intros i j row Hj Hrow.
      apply lookup_seq in Hj as [-> Hi]. simpl.
      unfold l in Hrow. apply lookup_zip_with_Some in Hrow as (n & m & -> & Hn & Hm).
      unfold getitem, C, A, B.
      rewrite list_lookup_fmap, !lookup_zip_with, Hn, list_lookup_fmap, Hm. simpl.
      done. }
  cbn [rbind].
  assert (Hrows : Forall (fun row => length row = Z.to_nat (n_max + 1)) l).
  { apply Forall_lookup. intros i row Hrow.
    unfold l in Hrow. apply lookup_zip_with_Some in Hrow as (n & m & -> & Hn & Hm).
    pose proof (Forall2_lookup_lr _ _ _ _ _ _ HF Hn Hm) as Hnm. simpl in Hnm.
    apply gpzp_row_length; [lia|].
    eapply np_max_ge; [done|]. by eapply list_elem_of_lookup_2. }
  assert (Hll : length l = length N).
  { unfold l. rewrite length_zip_with. lia. }
  rewrite (np_array_uniform l _ Hrows). cbn [rbind].
  destruct normalize.
  - unfold gpzp_norm. cbv zeta.
    rewrite broadcast1_same_length by (by rewrite length_fmap). cbn [rbind].
    rewrite decide_True by done. cbn [rbind].
    eexists. split; [done|]. split.
    + rewrite !length_zip_with. lia.
    + apply Forall_lookup. intros i row Hrow.
      apply lookup_zip_with_Some in Hrow as (r & f & -> & Hr & _).
      rewrite length_fmap. rewrite Forall_lookup in Hrows. by eapply Hrows.
  - exists l. done.
Qed.

(** Counterexample to C1 as stated: for the pair [(n, m) = (1, 0)], whose
    [n - |m|] is odd, [gpzp_get_coeffs] does not fail; it returns the
    coefficients of the pseudo-Zernike radial polynomial [3 r - 2],
    multiplied by the norm [sqrt 2] when [normalize] is set (the default). *)
Lemma gpzp_get_coeffs_odd_not_rejected :
  ((1 - Z.abs 0) `mod` 2 = 1)%Z /\
  gpzp_get_coeffs [1%Z] [0%Z] 0 true = Ok [[3 * sqrt 2; -2 * sqrt 2]%R] /\
  gpzp_get_coeffs [1%Z] [0%Z] 0 false = Ok [[3; -2]%R].
Proof.
  split; [reflexivity|].
  unfold gpzp_get_coeffs, gpzp_norm, gpzp_row, arange, factorial, poch. simpl.
  replace ((1 + 0 / 2 + 1) * ((1 + 0 + 1) * 1 / ((1 + 1) * 1)))%R
    with 2%R by field.
  split; repeat f_equal; norm_IZR; field.
Qed.

(** C1 (amended). Whenever [n - |m|] is odd for some entry of the index
    arrays, [zp_get_coeffs] fails (with the [AssertionError] of its
    parity assertion when the arrays have one length, with numpy's
    broadcasting error otherwise); [gpzp_get_coeffs] has no parity check
    and, when [|m| <= n] holds for every entry, returns a coefficient
    matrix with one row per entry. *)
Theorem coeffs_parity_check N M alpha normalize i n m :
  N !! i = Some n -> M !! i = Some m -> ((n - Z.abs m) `mod` 2 <> 0)%Z ->
  (exists e, zp_get_coeffs N M normalize = Raise e /\
             (length N = length M -> e = AssertionError)) /\
  (Forall2 (fun n m => (Z.abs m <= n)%Z) N M ->
   exists c, gpzp_get_coeffs N M alpha normalize = Ok c /\
             length c = length N).
Proof.
  intros Hn Hm Hodd. split.
  - by eapply zp_get_coeffs_odd_raises.
  - intros HF.
    assert (Hne : N <> []) by (by intros ->).
    destruct (np_max_is_ok N Hne) as [n_max Hmax].
    destruct (gpzp_get_coeffs_ok N M alpha normalize n_max Hne HF Hmax)
      as (c & Hc & Hlen & _).
    by exists c.
Qed.

Lemma coeffs_parity_check_witness :
  (exists e, zp_get_coeffs [1%Z] [0%Z] true = Raise e /\
             (length [1%Z] = length [0%Z] -> e = AssertionError)) /\
  (Forall2 (fun n m => (Z.abs m <= n)%Z) [1%Z] [0%Z] ->
   exists c, gpzp_get_coeffs [1%Z] [0%Z] 0 true = Ok c /\
             length c = length [1%Z]).
Proof.
  apply (coeffs_parity_check [1%Z] [0%Z] 0%R true 0 1%Z 0%Z);
    [reflexivity | reflexivity | by vm_compute].
Defined.
(** ** The azimuthal-state filter *)

Lemma elem_of_np_unique x a : x ∈ np_unique a <-> x ∈ a.
Proof.
  unfold np_unique. rewrite merge_sort_Permutation. apply elem_of_remove_dups.
Qed.

Lemma NoDup_np_unique a : NoDup (np_unique a).
Proof.
  unfold np_unique. rewrite merge_sort_Permutation. apply NoDup_remove_dups.
Qed.

Lemma get_m_states_None m x :
  x ∈ _get_m_states m StatesNone <-> x ∈ Z.abs <$> m.
Proof. simpl. rewrite elem_of_elements, elem_of_list_to_set. done. Qed.

Lemma get_m_states_nonneg m s :
  (0 <= s)%Z -> _get_m_states m (StatesScalar s) = [s].
Proof. intros Hs. simpl. destruct (Z.ltb_spec s 0); [lia|done]. Qed.

Lemma get_m_states_neg m s x :
  (s < 0)%Z ->
  x ∈ _get_m_states m (StatesScalar s) <-> x <> 0%Z /\ x ∈ Z.abs <$> m.
Proof.
  intros Hs. simpl. destruct (Z.ltb_spec s 0); [|lia].
  rewrite list_elem_of_filter, elem_of_np_unique. done.
Qed.

Lemma NoDup_get_m_states m st : NoDup (_get_m_states m st).
Proof.
  destruct st as [|s|l]; simpl.
  - apply NoDup_elements.
  - destruct (s <? 0)%Z.
    + apply NoDup_filter, NoDup_np_unique.
    + apply NoDup_singleton.
  - apply NoDup_np_unique.
Qed.

Lemma where_from_lookup i mask j :
  j ∈ where_from i mask <-> exists k, j = i + k /\ mask !! k = Some true.
Proof.
  revert i. induction mask as [|b mask IH]; intros i; simpl.
  - split; [by intros ?%elem_of_nil|by intros (? & _ & ?)].
  - rewrite elem_of_app, IH. split.
    + intros [Hj|(k & -> & Hk)].
      * destruct b; [|by apply elem_of_nil in Hj].
        apply list_elem_of_singleton in Hj as ->. exists 0. split; [lia|done].
      * exists (S k). split; [lia|done].
    + intros ([|k] & -> & Hk); simpl in Hk.
      * left. injection Hk as ->. rewrite Nat.add_0_r. apply list_elem_of_singleton. done.
      * right. exists k. split; [lia|done].
Qed.

Lemma mapM_result_cons {A B} (f : A -> result B) x l :
  mapM f (x :: l) = let* y := f x in let* k := mapM f l in Ok (y :: k).
Proof. reflexivity. Qed.

Lemma take_index_where_from {A} (pre a : list A) mask :
  length mask <= length a ->
  take_index (pre ++ a) (where_from (length pre) mask) = Ok (compress mask a).
Proof.
  revert pre a. induction mask as [|b mask IH]; intros pre a Hlen; [done|].
  destruct a as [|x a]; simpl in Hlen; [lia|].
  specialize (IH (pre ++ [x]) a ltac:(lia)).
  rewrite length_app, Nat.add_1_r, <- app_assoc in IH.
  change ([x] ++ a) with (x :: a) in IH.
  cbn [where_from compress]. unfold take_index in *. destruct b.
  - cbn [app]. rewrite mapM_result_cons, IH.
    unfold getitem. rewrite lookup_app_r, Nat.sub_diag by lia. done.
  - apply IH.
Qed.

Lemma take_index_where {A} (a : list A) mask :
  length mask <= length a ->
  take_index a (np_where mask) = Ok (compress mask a).
Proof. intros H. by apply (take_index_where_from [] a mask). Qed.

Lemma compress_fmap_filter {A} (P : A -> Prop) `{forall x, Decision (P x)} (a : list A) :
  compress ((fun x => bool_decide (P x)) <$> a) a = filter P a.
Proof.
  induction a as [|x a IH]; [done|].
  rewrite fmap_cons. cbn [compress]. rewrite IH, filter_cons.
  destruct (decide (P x)).
  - by rewrite bool_decide_eq_true_2.
  - by rewrite bool_decide_eq_false_2.
Qed.

Lemma compress_lookup_total {A} mask (a : list A) x :
  x ∈ compress mask a <-> exists i, mask !! i = Some true /\ a !! i = Some x.
Proof.
  revert a. induction mask as [|b mask IH]; intros a; simpl.
  - split; [by intros ?%elem_of_nil|by intros (? & ? & _)].
  - destruct a as [|y a].
    + split; [by intros ?%elem_of_nil|]. by intros (? & _ & ?).
    + rewrite elem_of_app, IH. split.
      * intros [Hx|(i & ? & ?)]; [|by exists (S i)].
        destruct b; [|by apply elem_of_nil in Hx].
        apply list_elem_of_singleton in Hx as ->. by exists 0.
      * intros ([|i] & Hm & Ha); simpl in *.
        -- left. injection Hm as ->. injection Ha as ->. by apply list_elem_of_singleton.
        -- right. by exists i.
Qed.

Lemma length_where_from i mask a :
  length mask <= length a ->
  length (where_from i mask) = length (@compress nat mask a).
Proof.
  revert i a. induction mask as [|b mask IH]; intros i a Hlen; [done|].
  destruct a as [|x a]; simpl in *; [lia|].
  rewrite !length_app, (IH (S i) a) by lia. by destruct b.
Qed.
Lemma take_cols_where {T} (A : matrix T) mask :
  wf_matrix A -> length mask <= ncols A ->
  take_cols A (np_where mask) = Ok (compress_cols mask A).
Proof.
  intros [Hr Hc] Hlen. unfold take_cols.
  assert (forallb (fun j => j <? ncols A) (np_where mask) = true) as ->.
  { apply forallb_forall. intros j Hj%list_elem_of_In.
    apply where_from_lookup in Hj as (k & -> & Hk%lookup_lt_Some).
    apply Nat.ltb_lt. lia. }
  rewrite (mapM_result_ok _ _ (compress mask <$> rows A)); [done|].
  apply Forall2_fmap_r, Forall_Forall2_diag.
  eapply Forall_impl; [exact Hc|]. intros r Hlr. simpl in *.
  apply take_index_where. lia.
Qed.

Lemma buf_take_cols_where b mask :
  wf_buffer b -> length mask <= buf_ncols b ->
  buf_take_cols b (np_where mask) = Ok (buf_compress_cols mask b).
Proof.
  intros Hwf Hlen. destruct b as [A|A]; simpl in *;
    by rewrite take_cols_where.
Qed.

Lemma fresh_lookup_None (σ : store) : σ !! fresh (dom σ) = None.
Proof. apply not_elem_of_dom, is_fresh. Qed.

Lemma lookup_total_alloc (σ : store) b :
  (<[fresh (dom σ) := b]> σ : store) !!! fresh (dom σ) = b.
Proof. apply lookup_total_insert_eq. Qed.

Lemma lookup_alloc_old (σ : store) b a :
  is_Some (σ !! a) ->
  (<[fresh (dom σ) := b]> σ : store) !! a = σ !! a.
Proof.
  intros [x Hx]. apply lookup_insert_ne. intros Heq.
  rewrite <- Heq, fresh_lookup_None in Hx. done.
Qed.


Section SelectProperties.
Context `{Utils}.

Lemma select_spec σ self states :
  wf_zmarray σ self ->
  let keep := states_mask (z_m self) states in
  let a := fresh (dom σ) in
  select self states σ =
  Ok (ZM a Whole (length (np_where keep)) (compress keep (z_n self))
        (compress keep (z_m self)) (z_alpha self),
      <[a := buf_compress_cols keep (zm_buffer σ self)]> σ).
Proof.
  intros (Hs & Hwf & Hc & Hn & Hm) keep a.
  assert (Hk : length keep = z_N self).
  { unfold keep, states_mask, np_in1d. by rewrite !length_fmap. }
  unfold select. heap_unfold.
  fold (zm_buffer σ self). fold (states_mask (z_m self) states). fold keep.
  rewrite buf_take_cols_where by (done || lia).
  rewrite !take_index_where by lia.
  fold a. rewrite lookup_total_insert_eq. simpl.
  do 3 f_equal. by destruct (zm_buffer σ self).
Qed.

Lemma ZPs_init_indices `{Kernels} n_max size alpha states zp :
  ZPs_init n_max size alpha states = Ok zp ->
  let nm := (fun j => j2nm j alpha) <$> arange 0 (nm2j n_max n_max alpha + 1) in
  let keep := states_mask (snd <$> nm) states in
  zps_n zp = compress keep (fst <$> nm) /\
  zps_m zp = compress keep (snd <$> nm).
Proof.
  intros Hinit nm keep. unfold ZPs_init in Hinit. cbv zeta in Hinit.
  fold nm in Hinit. fold (states_mask (snd <$> nm) states) in Hinit.
  fold keep in Hinit.
  assert (Hk : length keep = length nm).
  { unfold keep, states_mask, np_in1d. by rewrite !length_fmap. }
  rewrite !take_index_where in Hinit by (rewrite length_fmap; lia).
  cbn [rbind] in Hinit.
  destruct (generate_data_from_nm _ _ _ _ _); [|done].
  cbn [rbind] in Hinit. injection Hinit as <-. done.
Qed.

End SelectProperties.
(** C8. The state filter: [None] resolves to the distinct [|m|] values
    present, a non-negative number to that number alone, a negative number
    to the distinct non-zero [|m|] values; [select] and the constructor
    both keep exactly the columns whose [|m|] is among the resolved states
    ([states_mask]), with the [n] and [m] of those columns. *)
Theorem states_filter_resolution `{Utils} `{Kernels} :
  (forall m x, x ∈ _get_m_states m StatesNone <-> x ∈ Z.abs <$> m) /\
  (forall m s, (0 <= s)%Z -> _get_m_states m (StatesScalar s) = [s]) /\
  (forall m s x, (s < 0)%Z ->
     x ∈ _get_m_states m (StatesScalar s) <-> x <> 0%Z /\ x ∈ Z.abs <$> m) /\
  (forall m states, NoDup (_get_m_states m states)) /\
  (forall m states i,
     states_mask m states !! i = Some true <->
     exists em, m !! i = Some em /\ Z.abs em ∈ _get_m_states m states) /\
  (forall σ self states, wf_zmarray σ self ->
     exists z' σ', select self states σ = Ok (z', σ') /\
       z_n z' = compress (states_mask (z_m self) states) (z_n self) /\
       z_m z' = compress (states_mask (z_m self) states) (z_m self) /\
       z_alpha z' = z_alpha self /\
       zm_buffer σ' z' =
         buf_compress_cols (states_mask (z_m self) states) (zm_buffer σ self) /\
       zm_buffer σ' self = zm_buffer σ self) /\
  (forall n_max size alpha states zp,
     ZPs_init n_max size alpha states = Ok zp ->
     let nm := (fun j => j2nm j alpha) <$> arange 0 (nm2j n_max n_max alpha + 1) in
     zps_n zp = compress (states_mask (snd <$> nm) states) (fst <$> nm) /\
     zps_m zp = compress (states_mask (snd <$> nm) states) (snd <$> nm)).
Proof.
  split; [apply get_m_states_None|].
  split; [apply get_m_states_nonneg|].
  split; [apply get_m_states_neg|].
  split; [apply NoDup_get_m_states|].
  split.
  { intros m states i. unfold states_mask, np_in1d.
    rewrite !list_lookup_fmap. destruct (m !! i) as [em|]; simpl.
    - split.
      + intros [= Hb%bool_decide_eq_true]. by exists em.
      + intros (? & [= <-] & Hin). f_equal. by apply bool_decide_eq_true.
    - split; [done|]. by intros (? & ? & _). }
  split.
  - intros σ self states Hwf. pose proof (select_spec σ self states Hwf) as Hsel.
    simpl in Hsel. eexists _, _. split; [exact Hsel|].
    simpl. split; [done|]. split; [done|]. split; [done|].
    unfold zm_buffer at 1 3. simpl. rewrite lookup_total_insert_eq.
    split; [done|].
    destruct Hwf as (Hs & _). unfold zm_buffer. f_equal.
    rewrite !lookup_total_alt, lookup_alloc_old by done. done.
  - intros n_max size alpha states zp Hinit.
    exact (ZPs_init_indices n_max size alpha states zp Hinit).
Qed.

(** The [select] part of C8 on a one-sample array with the columns
    [(0,0)], [(1,-1)], [(1,1)]: [select(-1)] keeps the last two. *)
Lemma states_filter_resolution_witness :
  let self := ZM 0 Whole 3 [0; 1; 1]%Z [0; -1; 1]%Z None in
  let σ : store := {[ 0 := FloatBuf (Mat 1 3 [[1; 2; 3]%R]) ]} in
  exists z' σ',
    @select example_utils self (StatesScalar (-1)) σ = Ok (z', σ') /\
    z_n z' = [1; 1]%Z /\ z_m z' = [-1; 1]%Z /\
    zm_buffer σ' z' = FloatBuf (Mat 1 2 [[2; 3]%R]).
Proof.
  intros self σ.
  destruct (@states_filter_resolution example_utils
              {| inv_entries := fun _ => None; pinv_entries := fun _ => [];
                 fftconvolve_entries := fun _ _ => [] |})
    as (_ & _ & _ & _ & _ & Hsel & _).
  destruct (Hsel σ self (StatesScalar (-1))) as (z' & σ' & Hs & Hn & Hm & _ & Hb & _).
  { unfold wf_zmarray, zm_buffer. simpl. repeat split; try done.
    by repeat constructor. }
  exists z', σ'. split; [done|]. rewrite Hn, Hm, Hb. by vm_compute.
Defined.
(** ** Moment arrays: [complex], [normalize], [rotinv] *)

Section MomentArrayProperties.
Context `{Utils}.

(** C5. [complex()] on a moment array whose dtype is already complex
    returns the receiver itself and leaves the store as it is: buffer,
    [n], [m] and [alpha] are those of the input. *)
Theorem complex_idempotent (σ : store) (self : zmarray) :
  is_complex (zm_buffer σ self) = true ->
  complex self σ = Ok (self, σ).
Proof.
  intros Hc. unfold complex. heap_unfold. fold (zm_buffer σ self).
  by destruct (zm_buffer σ self).
Qed.

Lemma sk_normalize_ok (X : matrix R) (norm : string) :
  norm ∈ ["l1"; "l2"; "max"]%string -> nrows X <> 0 -> ncols X <> 0 ->
  exists Y, sk_normalize X norm = Ok Y /\
            nrows Y = nrows X /\ ncols Y = ncols X.
Proof.
  intros Hn Hr Hc. unfold sk_normalize.
  rewrite bool_decide_eq_true_2 by done. simpl.
  destruct (Nat.eqb_spec (nrows X) 0); [done|].
  destruct (Nat.eqb_spec (ncols X) 0); [done|]. simpl.
  by eexists.
Qed.

(** C10. [normalize] on a real-valued moment array returns a new array
    whose [alpha] is [None] (whatever the receiver's [alpha]) and whose [n]
    and [m] are the receiver's; on a complex moment array it returns the
    receiver itself, the store unchanged. *)
Theorem normalize_metadata (σ : store) (self : zmarray) (norm : string) :
  (forall X a, zm_buffer σ self = FloatBuf X -> z_alpha self = Some a ->
     norm ∈ ["l1"; "l2"; "max"]%string -> nrows X <> 0 -> ncols X <> 0 ->
     exists z' σ' Y,
       normalize self norm σ = Ok (z', σ') /\
       sk_normalize X norm = Ok Y /\
       zm_buffer σ' z' = FloatBuf Y /\
       z_alpha z' = None /\ z_n z' = z_n self /\ z_m z' = z_m self) /\
  (is_complex (zm_buffer σ self) = true ->
   normalize self norm σ = Ok (self, σ)).
Proof.
  split.
  - intros X a HX Ha Hn Hr Hc.
    destruct (sk_normalize_ok X norm Hn Hr Hc) as (Y & HY & _).
    unfold normalize. heap_unfold. fold (zm_buffer σ self).
    rewrite HX, HY. simpl. eexists _, _, Y. split; [done|].
    split; [done|]. unfold zm_buffer. simpl.
    by rewrite lookup_total_insert_eq.
  - intros Hc. unfold normalize. heap_unfold. fold (zm_buffer σ self).
    by destruct (zm_buffer σ self).
Qed.

End MomentArrayProperties.

Lemma complex_idempotent_witness :
  let self := ZM 0 Whole 1 [1]%Z [1]%Z None in
  let σ : store := {[ 0 := ComplexBuf (Mat 1 1 [[Cx 0 1]]) ]} in
  @complex example_utils self σ = Ok (self, σ).
Proof.
  intros self σ. apply (@complex_idempotent example_utils σ self).
  reflexivity.
Defined.

Lemma normalize_metadata_witness :
  let self := ZM 0 Whole 2 [1; 1]%Z [-1; 1]%Z (Some 0%R) in
  let σ : store := {[ 0 := FloatBuf (Mat 1 2 [[3; 4]%R]) ]} in
  exists z' σ' Y,
    @normalize example_utils self "l2" σ = Ok (z', σ') /\
    sk_normalize (Mat 1 2 [[3; 4]%R]) "l2" = Ok Y /\
    zm_buffer σ' z' = FloatBuf Y /\
    z_alpha z' = None /\ z_n z' = z_n self /\ z_m z' = z_m self.
Proof.
  intros self σ.
  destruct (@normalize_metadata example_utils σ self "l2") as [Hreal _].
  apply (Hreal (Mat 1 2 [[3; 4]%R]) 0%R); try done.
  apply list_elem_of_In. simpl. tauto.
Defined.
Section RotinvProperties.
Context `{Utils}.

(** What [rotinv] does to a receiver whose dtype is complex: [complex()]
    hands back the receiver itself, so the assignment
    [zm_complex[:, ~mask] = np.abs(...)] overwrites the receiver's own
    memory, and the result is a view on that memory. *)
Lemma rotinv_complex_receiver (σ : store) (self : zmarray) X :
  z_view self = Whole ->
  σ !!! z_data self = ComplexBuf X ->
  length (z_m self) = ncols X ->
  rotinv self σ =
  Ok (ZM (z_data self) RealPart (ncols X) (z_n self) (z_m self) (z_alpha self),
      <[z_data self :=
          ComplexBuf
            (Mat (nrows X) (ncols X)
               ((fun r => zip_with (fun (b : bool) z =>
                                      if b then C_of_R (Cabs z) else z)
                            (negb <$> ((fun em => bool_decide (em = 0%Z))
                                         <$> z_m self)) r)
                  <$> rows X))]> σ).
Proof.
  destruct self as [a v N n m al]. simpl. intros -> HX Hm.
  unfold rotinv, complex. heap_unfold. simpl.
  rewrite HX. simpl. rewrite HX. simpl.
  unfold map_cols_where. rewrite decide_True by (by rewrite !length_fmap).
  simpl. rewrite lookup_total_insert_eq. simpl. done.
Qed.

(** On a receiver whose dtype is real, [rotinv] works on the fresh array
    that [complex()] allocates: the receiver's memory is not written. *)
Lemma rotinv_real_receiver_frame (σ σ' : store) (self z' : zmarray) X :
  is_Some (σ !! z_data self) ->
  zm_buffer σ self = FloatBuf X ->
  rotinv self σ = Ok (z', σ') ->
  σ' !! z_data self = σ !! z_data self.
Proof.
  intros Hs HX Hrot. unfold rotinv, complex in Hrot. heap_unfold.
  fold (zm_buffer σ self) in Hrot. rewrite HX in Hrot. simpl in Hrot.
  destruct (construct_complex_matrix _ _ _) as [c|]; [|done].
  destruct (dot c _) as [p|]; [|done].
  destruct (dot_vec _ _) as [m'|]; [|done].
  destruct (dot_vec _ _) as [n'|]; [|done].
  simpl in Hrot.
  destruct (buf_abs_where _ _) as [b'|]; [|done]. simpl in Hrot.
  injection Hrot as _ <-.
  rewrite lookup_insert_ne.
  - by apply lookup_alloc_old.
  - intros Heq. destruct Hs as [b Hb].
    rewrite <- Heq, fresh_lookup_None in Hb. done.
Qed.

End RotinvProperties.

(** C2, the failing input. A one-sample complex moment array with the
    single column [(n, m) = (1, 1)] holding [3 + 4i]: after [rotinv()] the
    receiver's own entry is [5 + 0i]. *)
Theorem rotinv_overwrites_complex_receiver :
  let self := ZM 0 Whole 1 [1]%Z [1]%Z None in
  let σ : store := {[ 0 := ComplexBuf (Mat 1 1 [[Cx 3 4]]) ]} in
  exists z' σ',
    @rotinv example_utils self σ = Ok (z', σ') /\
    zm_buffer σ self = ComplexBuf (Mat 1 1 [[Cx 3 4]]) /\
    zm_buffer σ' self = ComplexBuf (Mat 1 1 [[Cx 5 0]]) /\
    zm_buffer σ' self <> zm_buffer σ self.
Proof.
  intros self σ.
  pose proof (@rotinv_complex_receiver example_utils σ self
                (Mat 1 1 [[Cx 3 4]]) eq_refl eq_refl eq_refl) as Hrot.
  eexists _, _. split; [exact Hrot|].
  assert (Habs : Cabs (Cx 3 4) = 5%R).
  { unfold Cabs. simpl. replace (3 * 3 + 4 * 4)%R with (5 * 5)%R by lra.
    apply sqrt_square. lra. }
  split; [reflexivity|].
  match goal with
  | |- ?b = _ /\ _ => assert (Hnew : b = ComplexBuf (Mat 1 1 [[Cx 5 0]]))
  end.
  { unfold zm_buffer. simpl. rewrite lookup_total_insert_eq. simpl.
    unfold C_of_R. by rewrite Habs. }
  split; [exact Hnew|].
  rewrite Hnew.
  change (zm_buffer σ self) with (ComplexBuf (Mat 1 1 [[Cx 3 4]])).
  intros [= H3 H4]. lra.
Qed.
(** ** Rotational-symmetry weights *)

Lemma rot_weight_loop (n_fold : Z) (m : list Z) (ks : list Z) (a : list R) :
  length a = length m ->
  foldl (fun a n =>
           zip_with Rplus a
             ((fun em => cos (IZR (Z.abs em) * 2 * PI / IZR n_fold * IZR n))
                <$> m)) a ks =
  zip_with (fun x em =>
              (x + rsum ((fun k => cos (IZR (Z.abs em) * 2 * PI * IZR k
                                        / IZR n_fold)) <$> ks))%R) a m.
Proof.
  revert a. induction ks as [|k ks IH]; intros a Hlen; simpl.
  - apply list_eq. intros i. rewrite lookup_zip_with.
    destruct (a !! i) as [x|] eqn:Ha; simpl; [|done].
    destruct (m !! i) as [em|] eqn:Hm; simpl.
    + f_equal. lra.
    + apply lookup_lt_Some in Ha. apply lookup_ge_None in Hm. lia.
  - rewrite IH by (rewrite length_zip_with, length_fmap; lia).
    apply list_eq. intros i. rewrite !lookup_zip_with, list_lookup_fmap.
    destruct (a !! i) as [x|]; simpl; [|done].
    destruct (m !! i) as [em|]; simpl; [|done].
    f_equal. rewrite Rplus_assoc. do 2 f_equal. f_equal.
    unfold Rdiv. ring.
Qed.

(** C7. [maps(1)] fails at once with the [AssertionError] of
    [construct_rot_weight_matrix]; for every other [n_fold] (in particular
    for [n_fold >= 2]) the weight of a column with azimuthal frequency [m]
    is the average of [cos(|m| 2 pi k / n_fold)] over
    [k = 1 .. n_fold - 1]. *)
Theorem rot_weights `{Utils} :
  (forall m, construct_rot_weight_matrix 1 m = Raise AssertionError) /\
  (forall σ self reshape, maps self 1 reshape σ = Raise AssertionError) /\
  (forall n_fold m, (2 <= n_fold)%Z ->
     construct_rot_weight_matrix n_fold m =
     Ok ((fun em => [average_cos_weight n_fold em]) <$> m)).
Proof.
  split; [done|]. split; [done|].
  intros n_fold m Hn. unfold construct_rot_weight_matrix.
  destruct (Z.eqb_spec n_fold 1); [lia|]. cbn [negb py_assert rbind].
  cbv zeta. rewrite rot_weight_loop by apply length_replicate.
  f_equal. apply list_eq. intros i.
  rewrite !list_lookup_fmap, lookup_zip_with.
  destruct (m !! i) as [em|] eqn:Hm; simpl.
  - rewrite lookup_replicate_2 by (by eapply lookup_lt_Some). simpl.
    unfold average_cos_weight. do 3 f_equal. lra.
  - destruct (replicate _ _ !! i); done.
Qed.

Lemma rot_weights_witness :
  construct_rot_weight_matrix 4 [0; -2; 3]%Z =
  Ok ((fun em => [average_cos_weight 4 em]) <$> [0; -2; 3]%Z).
Proof.
  destruct (@rot_weights example_utils) as (_ & _ & Hw).
  apply Hw. lia.
Defined.
(** ** Matrices *)

Section MatrixLemmas.
Context {T : Type} `{Scalar T}.

Lemma mk_matrix_rows_lookup r c (f : nat -> nat -> T) i :
  i < r -> rows (mk_matrix r c f) !! i = Some (f i <$> seq 0 c).
Proof.
  intros Hi. unfold mk_matrix. simpl.
  rewrite list_lookup_fmap, lookup_seq_lt by done. done.
Qed.

Lemma entry_mk_matrix r c (f : nat -> nat -> T) i j :
  i < r -> j < c -> entry (mk_matrix r c f) i j = f i j.
Proof.
  intros Hi Hj. unfold entry. rewrite mk_matrix_rows_lookup by done. simpl.
  rewrite list_lookup_fmap, lookup_seq_lt by done. done.
Qed.

Lemma mk_matrix_ext r c (f g : nat -> nat -> T) :
  (forall i j, i < r -> j < c -> f i j = g i j) ->
  mk_matrix r c f = mk_matrix r c g.
Proof.
  intros Hfg. unfold mk_matrix. f_equal.
  apply list_fmap_ext. intros k i Hi%lookup_seq.
  apply list_fmap_ext. intros k' j Hj%lookup_seq.
  apply Hfg; lia.
Qed.

Lemma mk_matrix_wf r c (f : nat -> nat -> T) : wf_matrix (mk_matrix r c f).
Proof.
  split; simpl.
  - by rewrite length_fmap, length_seq.
  - apply Forall_fmap, Forall_forall. intros i _. simpl.
    by rewrite length_fmap, length_seq.
Qed.

(** A well-formed matrix is the table of its entries. *)
Lemma matrix_as_table (A : matrix T) :
  wf_matrix A -> A = mk_matrix (nrows A) (ncols A) (entry A).
Proof.
  destruct A as [r c rs]. intros [Hr Hc]. simpl in *. unfold mk_matrix.
  f_equal. apply list_eq. intros i.
  rewrite list_lookup_fmap.
  destruct (rs !! i) as [row|] eqn:Hrow.
  - rewrite lookup_seq_lt by (apply lookup_lt_Some in Hrow; lia). simpl.
    f_equal. apply list_eq. intros j. rewrite list_lookup_fmap.
    rewrite Forall_lookup in Hc. specialize (Hc i row Hrow).
    destruct (row !! j) as [x|] eqn:Hx.
    + rewrite lookup_seq_lt by (apply lookup_lt_Some in Hx; lia). simpl.
      unfold entry. simpl. rewrite Hrow. simpl. by rewrite Hx.
    + rewrite lookup_seq_ge by (apply lookup_ge_None in Hx; lia). done.
  - rewrite lookup_seq_ge by (apply lookup_ge_None in Hrow; lia). done.
Qed.

Lemma setitem2_mk_matrix r c (f : nat -> nat -> T) i j v :
  i < r -> j < c ->
  setitem2 (mk_matrix r c f) (Z.of_nat i) (Z.of_nat j) v =
  Ok (mk_matrix r c (fun i' j' =>
                       if decide (i' = i /\ j' = j) then v else f i' j')).
Proof.
  intros Hi Hj. unfold setitem2, norm_index. simpl.
  rewrite !decide_True by lia. cbn [rbind]. rewrite !Nat2Z.id.
  unfold mk_matrix. do 2 f_equal. apply list_eq. intros i'.
  destruct (decide (i' = i)) as [->|Hne].
  - rewrite list_lookup_alter_eq, !list_lookup_fmap, lookup_seq_lt by done.
    simpl. f_equal. apply list_eq. intros j'.
    destruct (decide (j' = j)) as [->|Hne'].
    + rewrite list_lookup_insert_eq by (by rewrite length_fmap, length_seq).
      rewrite list_lookup_fmap, lookup_seq_lt by done. simpl.
      by rewrite decide_True.
    + rewrite list_lookup_insert_ne by done. rewrite !list_lookup_fmap.
      destruct (seq 0 c !! j') as [x|] eqn:Hx; [|done]. simpl.
      apply lookup_seq in Hx as [-> _]. simpl.
      rewrite decide_False by (intros [_ ?]; done). done.
  - rewrite list_lookup_alter_ne by done. rewrite !list_lookup_fmap.
    destruct (seq 0 r !! i') as [x|] eqn:Hx; [|done]. simpl.
    apply lookup_seq in Hx as [-> _]. simpl. f_equal.
    apply list_fmap_ext. intros ? j' _.
    rewrite decide_False by (intros [? _]; done). done.
Qed.

Lemma transpose_table (A : matrix T) :
  transpose A = mk_matrix (ncols A) (nrows A) (fun i j => entry A j i).
Proof. done. Qed.

Lemma dot_tables r k c (f g : nat -> nat -> T) :
  dot (mk_matrix r k f) (mk_matrix k c g) =
  Ok (mk_matrix r c (fun i j =>
        ssum ((fun l => s_mul (f i l) (g l j)) <$> seq 0 k))).
Proof.
  unfold dot. simpl. rewrite decide_True by done. f_equal.
  apply mk_matrix_ext. intros i j Hi Hj. f_equal.
  apply list_fmap_ext. intros ? l Hl%lookup_seq.
  rewrite !entry_mk_matrix by lia. done.
Qed.

End MatrixLemmas.

Lemma promote_table {T} `{Scalar T} r c (f : nat -> nat -> R) :
  promote (mk_matrix r c f) = mk_matrix r c (fun i j => s_of_R (f i j)).
Proof.
  unfold promote, matrix_map, mk_matrix. simpl. f_equal.
  rewrite <- list_fmap_compose. apply list_fmap_ext. intros ? i _. simpl.
  rewrite <- list_fmap_compose. done.
Qed.

(** [M.dot(X.T).T], entry by entry. *)
Lemma apply_left_table {T} `{Scalar T} L (f : nat -> nat -> R) (X : matrix T) :
  ncols X = L ->
  apply_left (mk_matrix L L f) X =
  Ok (mk_matrix (nrows X) L (fun s i =>
        ssum ((fun k => s_mul (s_of_R (f i k)) (entry X s k)) <$> seq 0 L))).
Proof.
  intros HL. unfold apply_left.
  rewrite promote_table, transpose_table, HL, dot_tables. cbn [rbind].
  rewrite transpose_table. simpl. f_equal.
  apply mk_matrix_ext. intros s i Hs Hi.
  by rewrite entry_mk_matrix.
Qed.
(** ** Rotation *)

Section RotMatrix.
Context `{Utils}.

Lemma construct_rot_matrix_loop theta n m (d k : nat) :
  canonical_order n m -> k + d = length n ->
  for_enumerate
    (fun i (nm : Z * Z) rot_matrix =>
       let en := nm.1 in
       let em := nm.2 in
       if decide (em = 0)%Z then
         setitem2 rot_matrix (Z.of_nat i) (nm2j en em None) 1%R
       else if decide (em < 0)%Z then
         let t := (np_deg2rad theta * IZR (- em))%R in
         let* rot_matrix :=
           setitem2 rot_matrix (Z.of_nat i) (nm2j en em None) (cos t) in
         setitem2 rot_matrix (Z.of_nat i) (nm2j en (- em) None) (- sin t)%R
       else
         let t := (np_deg2rad theta * IZR em)%R in
         let* rot_matrix :=
           setitem2 rot_matrix (Z.of_nat i) (nm2j en em None) (cos t) in
         setitem2 rot_matrix (Z.of_nat i) (nm2j en (- em) None) (sin t))
    k (drop k (zip n m))
    (mk_matrix (length n) (length n)
       (fun i j => if decide (i < k) then rot_entry theta n m i j else 0%R)) =
  Ok (mk_matrix (length n) (length n) (rot_entry theta n m)).
Proof.
  intros [Hlen Hcan]. revert k. induction d as [|d IH]; intros k Hk.
  - rewrite drop_ge by (rewrite length_zip; lia). simpl. f_equal.
    apply mk_matrix_ext. intros i j Hi Hj. rewrite decide_True by lia. done.
  - assert (Hkn : k < length n) by lia.
    destruct (lookup_lt_is_Some_2 n k Hkn) as [en Hen].
    destruct (lookup_lt_is_Some_2 m k ltac:(lia)) as [em Hem].
    rewrite (drop_S _ (en, em)) by (by apply lookup_zip_Some).
    cbn [for_enumerate]. cbv zeta. cbn [fst snd].
    destruct (Hcan k en em Hen Hem) as (Hj1 & k' & Hj2 & Hen' & Hem').
    assert (Hk' : k' < length n) by (by eapply lookup_lt_Some).
    rewrite Hj1, Hj2.
    match goal with
    | |- rbind ?body _ = _ =>
        assert (Hbody : body =
          Ok (mk_matrix (length n) (length n)
                (fun i j => if decide (i < S k)
                            then rot_entry theta n m i j else 0%R)))
    end.
    { assert (Hrow : forall j, rot_entry theta n m k j =
                match decide (em = 0%Z) with
                | left _ => if decide (j = k) then 1%R else 0%R
                | right _ =>
                    if decide (j = k')
                    then (if decide (em < 0)%Z
                          then (- sin (np_deg2rad theta * IZR (Z.abs em)))%R
                          else sin (np_deg2rad theta * IZR (Z.abs em)))
                    else if decide (j = k)
                         then cos (np_deg2rad theta * IZR (Z.abs em))
                         else 0%R
                end).
      { intros j. unfold rot_entry. rewrite Hen, Hem, Hj2.
        destruct (decide (em = 0%Z)); [done|]. cbv zeta.
        destruct (decide (Z.of_nat j = Z.of_nat k')), (decide (j = k')); try lia; done. }
      destruct (decide (em = 0%Z)) as [Hz|Hnz].
      - rewrite setitem2_mk_matrix by done. f_equal.
        apply mk_matrix_ext. intros i j Hi Hj.
        destruct (decide (i = k /\ j = k)) as [[-> ->]|Hne].
        + rewrite decide_True by lia. rewrite Hrow. by rewrite decide_True.
        + destruct (decide (i < k)).
          * rewrite decide_True by lia. done.
          * destruct (decide (i < S k)); [|done].
            assert (i = k) as -> by lia. rewrite Hrow.
            rewrite decide_False by (intros ->; by apply Hne). done.
      - destruct (decide (em < 0)%Z) as [Hneg|Hpos].
        + rewrite setitem2_mk_matrix by done. cbn [rbind].
          rewrite setitem2_mk_matrix by done. f_equal.
          apply mk_matrix_ext. intros i j Hi Hj.
          replace (Z.abs em) with (- em)%Z in Hrow by lia.
          destruct (decide (i = k /\ j = k')) as [[-> ->]|Hne].
          * rewrite decide_True by lia. rewrite Hrow. by rewrite decide_True.
          * destruct (decide (i = k /\ j = k)) as [[-> ->]|Hne'].
            -- rewrite decide_True by lia. rewrite Hrow.
               rewrite decide_False by (intros ->; by apply Hne).
               by rewrite decide_True.
            -- destruct (decide (i < k)).
               ++ rewrite decide_True by lia. done.
               ++ destruct (decide (i < S k)); [|done].
                  assert (i = k) as -> by lia. rewrite Hrow.
                  rewrite decide_False by (intros ->; by apply Hne).
                  rewrite decide_False by (intros ->; by apply Hne'). done.
        + rewrite setitem2_mk_matrix by done. cbn [rbind].
          rewrite setitem2_mk_matrix by done. f_equal.
          apply mk_matrix_ext. intros i j Hi Hj.
          replace (Z.abs em) with em in Hrow by lia.
          destruct (decide (i = k /\ j = k')) as [[-> ->]|Hne].
          * rewrite decide_True by lia. rewrite Hrow. by rewrite decide_True.
          * destruct (decide (i = k /\ j = k)) as [[-> ->]|Hne'].
            -- rewrite decide_True by lia. rewrite Hrow.
               rewrite decide_False by (intros ->; by apply Hne).
               by rewrite decide_True.
            -- destruct (decide (i < k)).
               ++ rewrite decide_True by lia. done.
               ++ destruct (decide (i < S k)); [|done].
                  assert (i = k) as -> by lia. rewrite Hrow.
                  rewrite decide_False by (intros ->; by apply Hne).
                  rewrite decide_False by (intros ->; by apply Hne'). done. }
    rewrite Hbody. cbn [rbind]. apply IH. lia.
Qed.

Lemma construct_rot_matrix_canonical theta n m :
  canonical_order n m ->
  construct_rot_matrix n m theta None =
  Ok (mk_matrix (length n) (length n) (rot_entry theta n m)).
Proof.
  intros Hcan. unfold construct_rot_matrix. cbv zeta.
  rewrite <- (construct_rot_matrix_loop theta n m (length n) 0 Hcan) by lia.
  rewrite drop_0. f_equal.
Qed.

End RotMatrix.

Section Sums.
Context {T : Type} `{ScalarLaws T}.

Lemma s_add_0_r (x : T) : s_add x s_zero = x.
Proof. by rewrite s_add_comm, s_add_0_l. Qed.

Lemma ssum_app (l1 l2 : list T) :
  ssum (l1 ++ l2) = s_add (ssum l1) (ssum l2).
Proof.
  induction l1 as [|x l1 IH]; simpl.
  - by rewrite s_add_0_l.
  - by rewrite IH, s_add_assoc.
Qed.

Lemma ssum_zero (g : nat -> T) a L :
  (forall k, a <= k < a + L -> g k = s_zero) ->
  ssum (g <$> seq a L) = s_zero.
Proof.
  revert a. induction L as [|L IH]; intros a Hz; [done|]. simpl.
  rewrite Hz by lia. rewrite s_add_0_l. apply IH. intros; apply Hz; lia.
Qed.

Lemma ssum_support1 (g : nat -> T) a L i :
  a <= i < a + L ->
  (forall k, a <= k < a + L -> k <> i -> g k = s_zero) ->
  ssum (g <$> seq a L) = g i.
Proof.
  intros Hi Hz.
  replace L with ((i - a) + S (L - S (i - a))) by lia.
  rewrite seq_app, fmap_app, ssum_app.
  rewrite ssum_zero by (intros; apply Hz; lia).
  rewrite s_add_0_l. replace (a + (i - a)) with i by lia. simpl.
  rewrite ssum_zero by (intros; apply Hz; lia).
  apply s_add_0_r.
Qed.

Lemma ssum_support2 (g : nat -> T) L i i' :
  i < L -> i' < L -> i <> i' ->
  (forall k, k < L -> k <> i -> k <> i' -> g k = s_zero) ->
  ssum (g <$> seq 0 L) = s_add (g i) (g i').
Proof.
  intros Hi Hi' Hne Hz.
  assert (Hord : forall j j', j < j' -> j' < L ->
            (forall k, k < L -> k <> j -> k <> j' -> g k = s_zero) ->
            ssum (g <$> seq 0 L) = s_add (g j) (g j')).
  { intros j j' Hjj Hj' Hz'.
    replace L with (j' + (L - j')) by lia.
    rewrite seq_app, fmap_app, ssum_app. f_equal.
    - apply ssum_support1; [lia|]. intros; apply Hz'; lia.
    - apply ssum_support1; [lia|]. intros; apply Hz'; lia. }
  destruct (Nat.lt_total i i') as [Hlt|[->|Hgt]]; [by apply Hord|done|].
  rewrite s_add_comm. apply Hord; [done|done|].
  intros; apply Hz; done.
Qed.

(** The angle-addition step of two successive rotations of a pair. *)
Lemma rot_pair_compose (ca sa cb sb s : R) (x y : T) :
  (s * s = 1)%R ->
  s_add (s_mul (s_of_R cb)
           (s_add (s_mul (s_of_R ca) x) (s_mul (s_of_R (s * sa)) y)))
        (s_mul (s_of_R (s * sb))
           (s_add (s_mul (s_of_R ca) y) (s_mul (s_of_R (- s * sa)) x))) =
  s_add (s_mul (s_of_R (ca * cb - sa * sb)) x)
        (s_mul (s_of_R (s * (sa * cb + ca * sb))) y).
Proof.
  intros Hs. rewrite !s_mul_R_add, !s_mul_R_mul.
  set (A := s_mul (s_of_R (cb * ca)) x).
  set (B := s_mul (s_of_R (cb * (s * sa))) y).
  set (C := s_mul (s_of_R (s * sb * ca)) y).
  set (D := s_mul (s_of_R (s * sb * (- s * sa))) x).
  transitivity (s_add (s_add A D) (s_add B C)).
  { rewrite (s_add_comm C D), <- (s_add_assoc A B), (s_add_assoc B D C).
    rewrite (s_add_comm B D), <- (s_add_assoc D B C), (s_add_assoc A D).
    done. }
  unfold A, B, C, D. rewrite !s_mul_R_plus. f_equal; do 2 f_equal.
  - replace (s * sb * (- s * sa))%R with (- (s * s) * (sa * sb))%R by ring.
    rewrite Hs. ring.
  - ring.
Qed.

End Sums.
Lemma cos_period_Z (x : R) (z : Z) : cos (x + 2 * IZR z * PI) = cos x.
Proof.
  destruct z as [|p|p].
  - f_equal. lra.
  - rewrite <- (positive_nat_Z p), <- INR_IZR_INZ. apply cos_period.
  - rewrite <- (cos_period (x + 2 * IZR (Z.neg p) * PI) (Pos.to_nat p)).
    f_equal. rewrite INR_IZR_INZ, (positive_nat_Z p).
    change (Z.neg p) with (- Z.pos p)%Z. rewrite opp_IZR. lra.
Qed.

Lemma sin_period_Z (x : R) (z : Z) : sin (x + 2 * IZR z * PI) = sin x.
Proof.
  destruct z as [|p|p].
  - f_equal. lra.
  - rewrite <- (positive_nat_Z p), <- INR_IZR_INZ. apply sin_period.
  - rewrite <- (sin_period (x + 2 * IZR (Z.neg p) * PI) (Pos.to_nat p)).
    f_equal. rewrite INR_IZR_INZ, (positive_nat_Z p).
    change (Z.neg p) with (- Z.pos p)%Z. rewrite opp_IZR. lra.
Qed.

Lemma deg2rad_turns (theta : R) (k e : Z) :
  (np_deg2rad (theta + 360 * IZR k) * IZR e =
   np_deg2rad theta * IZR e + 2 * IZR (k * e) * PI)%R.
Proof. unfold np_deg2rad. rewrite mult_IZR. field. Qed.

Section RotAction.
Context `{Utils}.

Lemma rot_entry_period theta (k : Z) n m i j :
  rot_entry (theta + 360 * IZR k) n m i j = rot_entry theta n m i j.
Proof.
  unfold rot_entry. destruct (n !! i) as [en|]; [|done].
  destruct (m !! i) as [em|]; [|done].
  destruct (decide (em = 0%Z)); [done|]. cbv zeta.
  rewrite deg2rad_turns, cos_period_Z, sin_period_Z. done.
Qed.

Lemma rot_entry_mod360 theta n m i j :
  rot_entry (mod360 theta) n m i j = rot_entry theta n m i j.
Proof.
  unfold mod360.
  replace (theta - 360 * IZR (Int_part (theta / 360)))%R
    with (theta + 360 * IZR (- Int_part (theta / 360)))%R
    by (rewrite opp_IZR; lra).
  apply rot_entry_period.
Qed.

Lemma msign_opp em : em <> 0%Z -> msign (- em) = (- msign em)%R.
Proof.
  intros Hne. unfold msign.
  destruct (decide (- em < 0)%Z), (decide (em < 0)%Z); try lia; lra.
Qed.

Lemma msign_sqr em : (msign em * msign em = 1)%R.
Proof. unfold msign. destruct (decide _); lra. Qed.

Context {T : Type} `{ScalarLaws T}.

Lemma rotated_ext theta n m (u v : nat -> T) i :
  (forall k, k < length n -> u k = v k) ->
  rotated theta n m u i = rotated theta n m v i.
Proof.
  intros Huv. unfold rotated. f_equal.
  apply list_fmap_ext. intros ? k Hk%lookup_seq. rewrite Huv by lia. done.
Qed.

Lemma rotated_canonical theta n m (u : nat -> T) i en em :
  canonical_order n m -> n !! i = Some en -> m !! i = Some em ->
  rotated theta n m u i =
  if decide (em = 0%Z) then s_mul (s_of_R 1) (u i)
  else
    let t := (np_deg2rad theta * IZR (Z.abs em))%R in
    s_add (s_mul (s_of_R (cos t)) (u i))
          (s_mul (s_of_R (msign em * sin t))
                 (u (Z.to_nat (nm2j en (- em) None)))).
Proof.
  intros [Hlen Hcan] Hen Hem.
  destruct (Hcan i en em Hen Hem) as (Hj1 & i' & Hj2 & Hen' & Hem').
  assert (Hi : i < length n) by (by eapply lookup_lt_Some).
  assert (Hi' : i' < length n) by (by eapply lookup_lt_Some).
  unfold rotated. destruct (decide (em = 0%Z)) as [Hz|Hnz].
  - rewrite (ssum_support1 _ 0 (length n) i) by
      (first [lia | intros k _ Hk; unfold rot_entry; rewrite Hen, Hem;
                    rewrite decide_True by done;
                    rewrite decide_False by done; apply s_mul_R0]).
    unfold rot_entry. rewrite Hen, Hem, !decide_True by done. done.
  - cbv zeta. rewrite Hj2, Nat2Z.id.
    assert (Hii : i <> i').
    { intros <-. rewrite Hem in Hem'. injection Hem' as ?. lia. }
    rewrite (ssum_support2 _ (length n) i i'); [|done|done|done|].
    + unfold rot_entry, msign. rewrite Hen, Hem. cbv zeta. rewrite Hj2.
      repeat case_decide; try lia; try done; do 3 f_equal; lra.
    + intros k _ Hk Hk'. unfold rot_entry. rewrite Hen, Hem. cbv zeta.
      rewrite Hj2. repeat case_decide; try lia; try done; apply s_mul_R0.
Qed.

(** Two rotations in a row are the rotation by the sum of the angles. *)
Lemma rotated_compose a b n m (u : nat -> T) i :
  canonical_order n m -> i < length n ->
  rotated b n m (rotated a n m u) i = rotated (a + b) n m u i.
Proof.
  intros Hcan Hi. pose proof Hcan as [Hlen Hc].
  destruct (lookup_lt_is_Some_2 n i Hi) as [en Hen].
  destruct (lookup_lt_is_Some_2 m i ltac:(lia)) as [em Hem].
  destruct (Hc i en em Hen Hem) as (Hj1 & i' & Hj2 & Hen' & Hem').
  rewrite (rotated_canonical b n m _ i en em), (rotated_canonical (a + b) n m _ i en em) by done.
  destruct (decide (em = 0%Z)) as [Hz|Hnz].
  - rewrite (rotated_canonical a n m _ i en em) by done.
    rewrite decide_True by done. rewrite s_mul_R_mul. do 2 f_equal. lra.
  - cbv zeta. rewrite Hj2, Nat2Z.id.
    rewrite (rotated_canonical a n m _ i en em) by done.
    rewrite (rotated_canonical a n m _ i' en (- em)%Z) by done.
    rewrite !decide_False by lia. cbv zeta.
    rewrite Z.opp_involutive, Hj1, Hj2, !Nat2Z.id.
    rewrite Z.abs_opp, msign_opp by done.
    set (ta := (np_deg2rad a * IZR (Z.abs em))%R).
    set (tb := (np_deg2rad b * IZR (Z.abs em))%R).
    replace (np_deg2rad (a + b) * IZR (Z.abs em))%R with (ta + tb)%R
      by (unfold ta, tb, np_deg2rad; lra).
    rewrite cos_plus, sin_plus.
    apply rot_pair_compose, msign_sqr.
Qed.

Lemma rotate_matrix_compose a b n m (X : matrix T) :
  canonical_order n m ->
  rotate_matrix b n m (rotate_matrix a n m X) = rotate_matrix (a + b) n m X.
Proof.
  intros Hcan. unfold rotate_matrix. simpl.
  apply mk_matrix_ext. intros s i Hs Hi.
  rewrite <- rotated_compose by done.
  apply rotated_ext. intros k Hk. by rewrite entry_mk_matrix.
Qed.

Lemma rotate_matrix_mod360 theta n m (X : matrix T) :
  rotate_matrix (mod360 theta) n m X = rotate_matrix theta n m X.
Proof.
  unfold rotate_matrix, rotated. apply mk_matrix_ext. intros s i _ _.
  f_equal. apply list_fmap_ext. intros ? k _. by rewrite rot_entry_mod360.
Qed.

End RotAction.
Section RotStore.
Context `{Utils}.

Lemma rotate_buffer_wf theta n m b :
  wf_buffer (rotate_buffer theta n m b).
Proof. destruct b; apply mk_matrix_wf. Qed.

Lemma rotate_buffer_ncols theta n m b :
  buf_ncols (rotate_buffer theta n m b) = length n.
Proof. by destruct b. Qed.

Lemma rotate_buffer_compose a b n m buf :
  canonical_order n m ->
  rotate_buffer b n m (rotate_buffer a n m buf) = rotate_buffer (a + b) n m buf.
Proof.
  intros Hcan. destruct buf; simpl; f_equal; by apply rotate_matrix_compose.
Qed.

Lemma rotate_buffer_mod360 theta n m buf :
  rotate_buffer (mod360 theta) n m buf = rotate_buffer theta n m buf.
Proof. destruct buf; simpl; f_equal; apply rotate_matrix_mod360. Qed.

Lemma rot_spec (σ : store) (self : zmarray) (theta : R) :
  wf_zmarray σ self -> canonical_order (z_n self) (z_m self) ->
  rot self theta σ =
  Ok (ZM (fresh (dom σ)) Whole (z_N self) (z_n self) (z_m self) (z_alpha self),
      <[fresh (dom σ) :=
          rotate_buffer theta (z_n self) (z_m self) (zm_buffer σ self)]> σ).
Proof.
  intros (Hs & Hwf & Hc & Hn & Hm) Hcan.
  unfold rot. heap_unfold. rewrite construct_rot_matrix_canonical by done.
  fold (zm_buffer σ self).
  assert (Hap : buf_apply_left
            (mk_matrix (length (z_n self)) (length (z_n self))
               (rot_entry theta (z_n self) (z_m self))) (zm_buffer σ self) =
          Ok (rotate_buffer theta (z_n self) (z_m self) (zm_buffer σ self))).
  { destruct (zm_buffer σ self) as [X|X]; simpl in *;
      rewrite apply_left_table by lia; done. }
  rewrite Hap. rewrite lookup_total_insert_eq. simpl.
  rewrite rotate_buffer_ncols, Hn. done.
Qed.

(** C6 (amended). For a moment array in the canonical order, [rot(a)]
    followed by [rot(b)] returns the same entries and metadata as
    [rot((a + b) mod 360)]; the equality is exact in real arithmetic. *)
Theorem rot_composition_canonical (σ : store) (self : zmarray) (a b : R) :
  wf_zmarray σ self -> canonical_order (z_n self) (z_m self) ->
  rot_composition_at σ self a b.
Proof.
  intros Hwf Hcan. unfold rot_composition_at.
  pose proof (rot_spec σ self a Hwf Hcan) as H1.
  set (a1 := fresh (dom σ)) in *.
  set (b1 := rotate_buffer a (z_n self) (z_m self) (zm_buffer σ self)) in *.
  set (z1 := ZM a1 Whole (z_N self) (z_n self) (z_m self) (z_alpha self)) in *.
  set (σ1 := <[a1 := b1]> σ) in *.
  assert (Hb1 : zm_buffer σ1 z1 = b1).
  { unfold zm_buffer, σ1. simpl. by rewrite lookup_total_insert_eq. }
  assert (Hwf1 : wf_zmarray σ1 z1).
  { destruct Hwf as (_ & _ & _ & Hn & Hm). unfold wf_zmarray.
    rewrite Hb1. simpl. split; [|split; [|split]].
    - unfold σ1. rewrite lookup_insert_eq. by eexists.
    - apply rotate_buffer_wf.
    - unfold b1. by rewrite rotate_buffer_ncols.
    - done. }
  pose proof (rot_spec σ1 z1 b Hwf1 Hcan) as H2.
  pose proof (rot_spec σ self (mod360 (a + b)) Hwf Hcan) as H3.
  eexists _, _, _, _, _, _. split; [exact H1|].
  split; [exact H2|]. split; [exact H3|].
  split; [|done].
  unfold zm_buffer at 1 3. simpl. rewrite !lookup_total_insert_eq.
  rewrite Hb1. unfold b1.
  rewrite rotate_buffer_compose, rotate_buffer_mod360 by done. done.
Qed.

End RotStore.
Lemma rot_composition_canonical_witness :
  let self := ZM 0 Whole 3 [0; 1; 1]%Z [0; -1; 1]%Z None in
  let σ : store := {[ 0 := FloatBuf (Mat 1 3 [[1; 2; 3]%R]) ]} in
  @rot_composition_at example_utils σ self 30 45.
Proof.
  intros self σ. apply (@rot_composition_canonical example_utils σ self 30 45).
  - unfold wf_zmarray, zm_buffer. simpl. repeat split; try done.
    by repeat constructor.
  - split; [done|]. intros [|[|[|i]]] en em; simpl; intros [= <-] [= <-].
    + split; [done|]. by exists 0.
    + split; [done|]. by exists 2.
    + split; [done|]. by exists 1.
Defined.

(** What [rot] does to a one-column array whose column is [(1, 1)]: both
    writes of [construct_rot_matrix] go to the only entry of the matrix or
    fail, so the sine overwrites the cosine. *)
Lemma rot_single_column `{Utils} (σ : store) (self : zmarray) (theta x : R) :
  z_n self = [1%Z] -> z_m self = [1%Z] ->
  zm_buffer σ self = FloatBuf (Mat 1 1 [[x]]) ->
  rot self theta σ =
  match norm_index 1 (nm2j 1 1 None), norm_index 1 (nm2j 1 (-1) None) with
  | Ok _, Ok _ =>
      Ok (ZM (fresh (dom σ)) Whole 1 [1%Z] [1%Z] (z_alpha self),
          <[fresh (dom σ) :=
              FloatBuf (Mat 1 1 [[(sin (np_deg2rad theta * 1) * x + 0)%R]])]> σ)
  | Raise e, _ => Raise e
  | Ok _, Raise e => Raise e
  end.
Proof.
  intros Hn Hm Hb. unfold rot. heap_unfold.
  rewrite Hn, Hm. unfold construct_rot_matrix. simpl.
  unfold setitem2. simpl.
  assert (Hidx : forall j k, norm_index 1 j = Ok k -> k = 0).
  { intros j k. unfold norm_index. repeat case_decide; intros [= <-]; lia. }
  destruct (norm_index 1 (nm2j 1 1 None)) as [k1|e1] eqn:E1; [|done].
  apply Hidx in E1 as ->. simpl.
  change (Z.opp 1) with (-1)%Z.
  destruct (norm_index 1 (nm2j 1 (-1) None)) as [k2|e2] eqn:E2; [|done].
  apply Hidx in E2 as ->. simpl.
  fold (zm_buffer σ self). rewrite Hb. simpl.
  rewrite lookup_total_insert_eq. simpl. done.
Qed.

(** Counterexample to C6 as stated. Whatever the index functions of
    [.utils] are, the property fails on the one-sample moment array whose
    single column is [(n, m) = (1, 1)] with entry [1], at [a = b = 90]:
    either [rot] raises [IndexError], or [rot(90)] twice leaves the entry
    [1] while [rot(180)] makes it [0]. *)
Lemma rot_composition_not_everywhere :
  ~ exists U : Utils, rot_composition_everywhere U.
Proof.
  intros [U Hall].
  set (self := ZM 0 Whole 1 [1]%Z [1]%Z None).
  set (σ := ({[ 0 := FloatBuf (Mat 1 1 [[1%R]]) ]} : store)).
  destruct (Hall σ self 90%R 90%R) as
    (z1 & σ1 & z2 & σ2 & z3 & σ3 & H1 & H2 & H3 & Hbuf & _).
  { unfold wf_zmarray, zm_buffer. simpl. repeat split; try done.
    by repeat constructor. }
  rewrite (rot_single_column σ self 90 1) in H1 by done.
  rewrite (rot_single_column σ self _ 1) in H3 by done.
  destruct (norm_index 1 (nm2j 1 1 None)) as [k1|]; [|done].
  destruct (norm_index 1 (nm2j 1 (-1) None)) as [k2|] eqn:E2; [|done].
  injection H1 as <- <-. injection H3 as <- <-.
  rewrite (rot_single_column _ _ 90 (sin (np_deg2rad 90 * 1) * 1 + 0)) in H2.
  2, 3: done.
  2:{ unfold zm_buffer. simpl. by rewrite lookup_total_insert_eq. }
  destruct (norm_index 1 (nm2j 1 1 None)) as [k1'|]; [|done].
  rewrite E2 in H2. injection H2 as <- <-.
  unfold zm_buffer in Hbuf. simpl in Hbuf.
  rewrite !lookup_total_insert_eq in Hbuf.
  injection Hbuf as Hbuf.
  assert (H90 : (np_deg2rad 90 * 1 = PI / 2)%R) by (unfold np_deg2rad; lra).
  assert (Hmod : mod360 (90 + 90) = 180%R).
  { unfold mod360.
    replace (Int_part ((90 + 90) / 360)) with 0%Z; [simpl; lra|].
    apply Int_part_spec. simpl. lra. }
  assert (H180 : (np_deg2rad (mod360 (90 + 90)) * 1 = PI)%R).
  { rewrite Hmod. unfold np_deg2rad. lra. }
  rewrite H90, H180, sin_PI2, sin_PI in Hbuf. lra.
Qed.
(** ** The extractor *)

Lemma mapM_result_length {A B} (f : A -> result B) l k :
  mapM f l = Ok k -> length k = length l.
Proof.
  revert k. induction l as [|x l IH]; intros k; [by intros [= <-]|].
  rewrite mapM_result_cons. destruct (f x); [|done]. cbn [rbind].
  destruct (mapM f l) as [k'|]; [|done]. cbn [rbind]. intros [= <-].
  simpl. by rewrite (IH k').
Qed.

Lemma np_array_inv {A} (l c : list (list A)) : np_array l = Ok c -> c = l.
Proof.
  unfold np_array. destruct l; [by intros [= <-]|].
  destruct (forallb _ _); [by intros [= <-]|done].
Qed.

Lemma zp_get_coeffs_length n m c :
  length n = length m -> zp_get_coeffs n m true = Ok c -> length c = length n.
Proof.
  intros Hlen. unfold zp_get_coeffs. cbv zeta.
  destruct (np_max n); [|done]. cbn [rbind].
  rewrite broadcast1_same_length by (by rewrite length_fmap). cbn [rbind].
  destruct (py_assert _); [|done]. cbn [rbind].
  destruct (np_array _) as [l|] eqn:El; [|done]. cbn [rbind].
  apply np_array_inv in El as ->.
  unfold zp_norm. rewrite decide_True by done. cbn [rbind]. intros [= <-].
  rewrite !length_zip_with, length_fmap, length_zip, length_fmap. lia.
Qed.

Lemma gpzp_get_coeffs_length n m alpha c :
  length n = length m -> gpzp_get_coeffs n m alpha true = Ok c ->
  length c = length n.
Proof.
  intros Hlen. unfold gpzp_get_coeffs. cbv zeta.
  destruct (np_max n); [|done]. cbn [rbind].
  rewrite !broadcast1_same_length by (by rewrite length_fmap). cbn [rbind].
  destruct (mapM _ _) as [l|] eqn:El; [|done]. cbn [rbind].
  apply mapM_result_length in El. rewrite length_seq in El.
  destruct (np_array _) as [l'|] eqn:El'; [|done]. cbn [rbind].
  apply np_array_inv in El' as ->.
  unfold gpzp_norm. cbv zeta.
  rewrite broadcast1_same_length by (by rewrite length_fmap). cbn [rbind].
  rewrite decide_True by done. intros [= <-].
  rewrite !length_zip_with. lia.
Qed.

Lemma length_compress_mask {A B} mask (a : list A) (b : list B) :
  length a = length b -> length (compress mask a) = length (compress mask b).
Proof.
  revert a b. induction mask as [|x mask IH]; intros [|? a] [|? b] Hlen;
    simpl in *; try done.
  rewrite !length_app. rewrite (IH a b) by lia. by destruct x.
Qed.

Section ExtractorProperties.
Context `{Utils} `{Kernels}.

(** The constructor yields a configured extractor. *)
Lemma ZPs_init_configured n_max size alpha states zp :
  ZPs_init n_max size alpha states = Ok zp ->
  configured zp (Z.to_nat size).
Proof.
  intros Hinit.
  destruct (ZPs_init_indices _ _ _ _ _ Hinit) as [Hn Hm].
  assert (Hnm : length (zps_n zp) = length (zps_m zp)).
  { rewrite Hn, Hm. apply length_compress_mask. by rewrite !length_fmap. }
  unfold ZPs_init in Hinit. cbv zeta in Hinit.
  destruct (take_index _ _) as [n|] eqn:En; [|done]. cbn [rbind] in Hinit.
  destruct (take_index _ _) as [m|] eqn:Em in Hinit; [|done].
  cbn [rbind] in Hinit.
  destruct (generate_data_from_nm _ _ _ _ _) as [d|] eqn:Ed; [|done].
  cbn [rbind] in Hinit. injection Hinit as <-. simpl in *.
  unfold generate_data_from_nm in Ed.
  destruct (get_Rn_matrix n size alpha) as [Rn|] eqn:ERn; [|done].
  cbn [rbind] in Ed.
  assert (Hne : 1 <= length n).
  { unfold get_Rn_matrix in ERn. destruct n; [done|simpl; lia]. }
  assert (Hc : exists c, (match alpha with
                          | Some alpha0 => gpzp_get_coeffs n m alpha0 true
                          | None => zp_get_coeffs n m true
                          end) = Ok c /\ length c = length n).
  { destruct alpha as [al|].
    - destruct (gpzp_get_coeffs n m al true) as [c|] eqn:Ec; [|done].
      exists c. split; [done|]. by eapply gpzp_get_coeffs_length.
    - destruct (zp_get_coeffs n m true) as [c|] eqn:Ec; [|done].
      exists c. split; [done|]. by eapply zp_get_coeffs_length. }
  destruct Hc as (c & Ec & Hlc). rewrite Ec in Ed. cbn [rbind] in Ed.
  destruct (dot _ _) as [Rnm|]; [|done]. cbn [rbind] in Ed.
  destruct (np_mul _ _) as [p|]; [|done]. cbn [rbind] in Ed.
  unfold np_reshape in Ed.
  destruct (forallb _ _); [|done]. destruct (_ =? _); [|done].
  injection Ed as <-. simpl. rewrite Nat2Z.id, Hlc.
  repeat split; done || lia.
Qed.

Lemma fit_dispatch_larger (self : ZPs) (X : ndarray R) (method : string)
    (σ : store) (h w d1 : nat) :
  shape X = [h; w] -> 1 <= w ->
  shape (zps_data self) !! 1 = Some d1 -> d1 < h ->
  fit self X method σ =
  fit_method self (np_broadcast_to X (zps_n_components_ self)) "fftconv" σ.
Proof.
  intros HX Hw Hd Hlt. unfold fit. heap_unfold.
  unfold check_array, ndim, getitem. rewrite HX.
  destruct (Nat.eqb_spec h 0); [lia|].
  destruct (Nat.eqb_spec w 0); [lia|].
  rewrite HX, Hd. simpl.
  destruct (Nat.eqb_spec h d1); [lia|].
  destruct (Nat.ltb_spec d1 h); [|lia].
  done.
Qed.

End ExtractorProperties.
Section FitProperties.
Context `{Utils} `{Kernels}.

Lemma broadcast_shapes_channels c h w :
  broadcast_shapes [c; h; w] [c; 1; 1] = Ok [c; h; w].
Proof.
  unfold broadcast_shapes. simpl. rewrite Nat.eqb_refl. simpl.
  destruct (h =? 1) eqn:Eh; simpl.
  - apply Nat.eqb_eq in Eh as ->.
    destruct (w =? 1) eqn:Ew; simpl; [by apply Nat.eqb_eq in Ew as ->|done].
  - destruct (w =? 1) eqn:Ew; simpl; [by apply Nat.eqb_eq in Ew as ->|done].
Qed.

Lemma fit_method_fftconv_broadcast (self : ZPs) (X : ndarray R) (σ : store)
    (size h w : nat) :
  configured self size -> 1 <= size ->
  shape X = [h; w] -> 1 <= h -> 1 <= w ->
  exists self' z σ',
    fit_method self (np_broadcast_to X (zps_n_components_ self)) "fftconv" σ
      = Ok (self', σ') /\
    zps_moments self' = Some z /\
    z_N z = zps_n_components_ self /\ z_n z = zps_n self /\
    z_m z = zps_m self /\ z_alpha z = zps_alpha self /\
    buf_nrows (zm_buffer σ' z) = h * w /\
    buf_ncols (zm_buffer σ' z) = zps_n_components_ self.
Proof.
  intros (Hd & Hnc & Hn & Hm) Hsize HX Hh Hw.
  unfold fit_method. heap_unfold. unfold getitem. simpl. rewrite HX. simpl.
  unfold fftconvolve, ndim. simpl. rewrite HX, Hd. simpl.
  set (nc := zps_n_components_ self) in *.
  destruct (Nat.eqb_spec (nc * (h * (w * 1))) 0) as [E|_]; [nia|].
  destruct (Nat.eqb_spec (nc * (size * (size * 1))) 0) as [E|_]; [nia|].
  rewrite Nat.eqb_refl. simpl.
  unfold np_mul. simpl. rewrite length_fmap, Hn.
  rewrite broadcast_shapes_channels. simpl.
  unfold reshape_rows. simpl. rewrite Hm.
  destruct (Nat.eqb_spec nc 0) as [E|_]; [lia|].
  replace (nc * (h * (w * 1))) with ((h * w) * nc) by lia.
  rewrite Nat.Div0.mod_mul, Nat.div_mul by lia. simpl.
  unfold store_moments. heap_unfold. simpl.
  rewrite lookup_total_insert_eq. simpl.
  eexists _, _, _. split; [reflexivity|]. simpl.
  unfold zm_buffer. split; [reflexivity|]. simpl.
  rewrite !lookup_total_insert_eq. simpl. repeat split; done.
Qed.

(** C3. A single 2D image with more rows than the configured grid: whatever
    [method] the caller asks for, [fit] broadcasts the image across the
    polynomials and runs the [fftconv] branch; the fit returns, with one
    moment row per pixel and one column per polynomial, carrying the
    extractor's [n], [m] and [alpha]. *)
Theorem fit_larger_image_forces_fftconv (self : ZPs) (X : ndarray R)
    (method : string) (σ : store) (size h w : nat) :
  configured self size -> 1 <= size ->
  shape X = [h; w] -> size < h -> 1 <= w ->
  fit self X method σ =
    fit_method self (np_broadcast_to X (zps_n_components_ self)) "fftconv" σ /\
  exists self' z σ',
    fit self X method σ = Ok (self', σ') /\
    zps_moments self' = Some z /\
    z_N z = zps_n_components_ self /\ z_n z = zps_n self /\
    z_m z = zps_m self /\ z_alpha z = zps_alpha self /\
    buf_nrows (zm_buffer σ' z) = h * w /\
    buf_ncols (zm_buffer σ' z) = zps_n_components_ self.
Proof.
  intros Hc Hsize HX Hh Hw.
  assert (Hdisp : fit self X method σ =
            fit_method self (np_broadcast_to X (zps_n_components_ self))
              "fftconv" σ).
  { apply (fit_dispatch_larger self X method σ h w size); try done.
    destruct Hc as (-> & _). done. }
  split; [done|]. rewrite Hdisp.
  apply (fit_method_fftconv_broadcast self X σ size h w); done || lia.
Qed.
End FitProperties.

Lemma fit_larger_image_forces_fftconv_witness :
  let X := NdArray [3; 3] (replicate 9 1%R) in
  @fit example_utils example_kernels example_zps X "matrix" ∅ =
    @fit_method example_utils example_kernels example_zps
      (np_broadcast_to X 1) "fftconv" ∅ /\
  exists self' z σ',
    @fit example_utils example_kernels example_zps X "matrix" ∅ = Ok (self', σ') /\
    zps_moments self' = Some z /\
    z_N z = 1 /\ z_n z = [0%Z] /\ z_m z = [0%Z] /\ z_alpha z = None /\
    buf_nrows (zm_buffer σ' z) = 3 * 3 /\
    buf_ncols (zm_buffer σ' z) = 1.
Proof.
  intros X.
  apply (@fit_larger_image_forces_fftconv example_utils example_kernels
           example_zps X "matrix" ∅ 2 3 3).
  - by repeat split.
  - lia.
  - reflexivity.
  - lia.
  - lia.
Defined.

Section FitSmallerImage.
Context `{Utils} `{Kernels}.

Lemma fit_dispatch_smaller (self : ZPs) (X : ndarray R) (method : string)
    (σ : store) (h w d1 : nat) :
  shape X = [h; w] -> 1 <= h -> 1 <= w ->
  shape (zps_data self) !! 1 = Some d1 -> h < d1 ->
  fit self X method σ = fit_method self X method σ.
Proof.
  intros HX Hh Hw Hd Hlt. unfold fit. heap_unfold.
  unfold check_array, ndim, getitem. rewrite HX.
  destruct (Nat.eqb_spec h 0); [lia|].
  destruct (Nat.eqb_spec w 0); [lia|].
  rewrite HX, Hd. simpl.
  destruct (Nat.eqb_spec h d1); [lia|].
  destruct (Nat.ltb_spec d1 h); [lia|].
  done.
Qed.

Lemma reshape_rows_image (X : ndarray R) h w :
  shape X = [h; w] -> 1 <= h ->
  reshape_rows X h = Ok (Mat h w (chunks w h (data X))).
Proof.
  intros HX Hh. unfold reshape_rows. rewrite HX. simpl.
  destruct (Nat.eqb_spec h 0); [lia|].
  replace (h * (w * 1)) with (w * h) by lia.
  rewrite Nat.Div0.mod_mul, Nat.div_mul by lia. done.
Qed.

Lemma reshape_rows_basis (self : ZPs) size :
  configured self size ->
  reshape_rows (zps_data self) (zps_n_components_ self) =
  Ok (Mat (zps_n_components_ self) (size * size)
        (chunks (size * size) (zps_n_components_ self) (data (zps_data self)))).
Proof.
  intros (Hd & Hnc & _). unfold reshape_rows. rewrite Hd. simpl.
  destruct (Nat.eqb_spec (zps_n_components_ self) 0); [lia|].
  replace (zps_n_components_ self * (size * (size * 1)))
    with ((size * size) * zps_n_components_ self) by lia.
  rewrite Nat.Div0.mod_mul, Nat.div_mul by lia. done.
Qed.

Lemma dot_ok (A B : matrix R) :
  ncols A = nrows B ->
  exists C, dot A B = Ok C /\ nrows C = nrows A /\ ncols C = ncols B.
Proof. intros Hd. unfold dot. rewrite decide_True by done. by eexists. Qed.

Lemma dot_mismatch (A B : matrix R) :
  ncols A <> nrows B -> dot A B = Raise ValueError.
Proof. intros Hd. unfold dot. by rewrite decide_False. Qed.

Lemma np_mul_row_slice_mismatch (w size : nat) (d1 d2 : list R) :
  w <> size -> w <> 1 -> size <> 1 ->
  np_mul (NdArray [w] d1) (NdArray [size; size] d2) = Raise ValueError.
Proof.
  intros H1 H2 H3. unfold np_mul, broadcast_shapes. simpl.
  destruct (Nat.eqb_spec w size); [lia|].
  destruct (Nat.eqb_spec w 1); [lia|].
  destruct (Nat.eqb_spec size 1); [lia|]. done.
Qed.

Lemma fit_method_smaller_raises (self : ZPs) (X : ndarray R) (method : string)
    (σ : store) (size h w : nat) :
  configured self size ->
  shape X = [h; w] -> 1 <= h -> 1 <= w -> w < size ->
  method ∈ ["matrix"; "transpose"; "pseudo"; "fftconv"]%string \/
  (method = "direct"%string /\ w <> 1) ->
  raises (fit_method self X method σ).
Proof.
  intros Hc HX Hh Hw Hlt Hmethod.
  pose proof Hc as (Hd & Hnc & Hn & Hm).
  assert (Hww : w <> size * size) by nia.
  unfold fit_method. heap_unfold. unfold getitem. rewrite HX. simpl.
  rewrite Hd. simpl.
  destruct Hmethod as [Hin|[-> Hw1]].
  - repeat (apply elem_of_cons in Hin as [->|Hin]); simpl.
    + (* matrix *)
      rewrite (reshape_rows_image X h w), (reshape_rows_basis self size) by done.
      destruct (dot_ok (Mat (zps_n_components_ self) (size * size)
                          (chunks (size * size) (zps_n_components_ self)
                             (data (zps_data self))))
                  (transpose (Mat (zps_n_components_ self) (size * size)
                          (chunks (size * size) (zps_n_components_ self)
                             (data (zps_data self))))))
        as (g & -> & Hgr & Hgc); [done|]. simpl in Hgr, Hgc.
      unfold np_linalg_inv. rewrite decide_True by lia.
      destruct (inv_entries g) as [gi|]; [|done].
      destruct (dot_ok (Mat (nrows g) (ncols g) gi)
                  (Mat (zps_n_components_ self) (size * size)
                          (chunks (size * size) (zps_n_components_ self)
                             (data (zps_data self)))))
        as (p & -> & Hpr & Hpc); [simpl; lia|]. simpl in Hpr, Hpc.
      rewrite dot_mismatch by (simpl; lia). done.
    + (* transpose *)
      rewrite (reshape_rows_image X h w), (reshape_rows_basis self size) by done.
      rewrite dot_mismatch by (simpl; lia). done.
    + (* pseudo *)
      rewrite (reshape_rows_image X h w), (reshape_rows_basis self size) by done.
      rewrite dot_mismatch by (simpl; lia). done.
    + (* fftconv *)
      unfold fftconvolve, ndim. rewrite HX, Hd. done.
    + by apply elem_of_nil in Hin.
  - (* direct *)
    simpl. unfold iter_axis0. rewrite HX, Hd. simpl.
    destruct h as [|h']; [lia|].
    destruct (zps_n_components_ self) as [|nc']; [lia|]. simpl.
    rewrite np_mul_row_slice_mismatch by lia. done.
Qed.

(** C4 (amended). A single 2D image whose sides are both smaller than the
    configured grid: [fit] fails with an error when the method is
    [matrix], [transpose], [pseudo] or [fftconv], and when the method is
    [direct] and the image is more than one pixel wide. *)
Theorem fit_smaller_image_fails (self : ZPs) (X : ndarray R) (method : string)
    (σ : store) (size h w : nat) :
  configured self size ->
  shape X = [h; w] -> 1 <= h -> h < size -> 1 <= w -> w < size ->
  method ∈ ["matrix"; "transpose"; "pseudo"; "fftconv"]%string \/
  (method = "direct"%string /\ w <> 1) ->
  raises (fit self X method σ).
Proof.
  intros Hc HX Hh Hhs Hw Hws Hmethod.
  rewrite (fit_dispatch_smaller self X method σ h w size); try done.
  - by eapply fit_method_smaller_raises.
  - destruct Hc as (-> & _). done.
Qed.

End FitSmallerImage.

Lemma fit_smaller_image_fails_witness :
  raises (@fit example_utils example_kernels example_zps
            (NdArray [1; 1] [1%R]) "matrix" ∅).
Proof.
  apply (@fit_smaller_image_fails example_utils example_kernels example_zps
           (NdArray [1; 1] [1%R]) "matrix" ∅ 2 1 1);
    [by repeat split | reflexivity | lia | lia | lia | lia |].
  left. apply elem_of_cons. by left.
Defined.

(** Counterexample to C4 as stated. The extractor built by the
    constructor for maximum degree 0 on a [2 x 2] grid, fitted with method
    [direct] to a [1 x 1] image: the pixel is broadcast over the basis
    slice and a moment array is returned. *)
Lemma fit_smaller_image_direct_returns :
  exists self self' σ' z,
    @ZPs_init example_utils 0 2 None StatesNone = Ok self /\
    configured self 2 /\
    @fit example_utils example_kernels self (NdArray [1; 1] [1%R]) "direct" ∅
      = Ok (self', σ') /\
    zps_moments self' = Some z.
Proof.
  assert (Hrun :
    match @ZPs_init example_utils 0 2 None StatesNone with
    | Ok self =>
        match @fit example_utils example_kernels self
                (NdArray [1; 1] [1%R]) "direct" ∅ with
        | Ok (self', _) => bool_decide (is_Some (zps_moments self')) = true
        | Raise _ => False
        end
    | Raise _ => False
    end) by (by vm_compute).
  destruct (@ZPs_init example_utils 0 2 None StatesNone) as [self|] eqn:Einit;
    [|done].
  destruct (@fit example_utils example_kernels self _ _ _) as [[self' σ']|]
    eqn:Efit; [|done].
  apply bool_decide_eq_true in Hrun as [z Hz].
  exists self, self', σ', z. split; [done|].
  split; [|done].
  exact (@ZPs_init_configured example_utils example_kernels 0 2 None
           StatesNone self Einit).
Qed.
(** ** Operations that do not write to existing memory *)

Lemma preserved_refl (σ : store) : preserved σ σ.
Proof. by intros a _. Qed.

Lemma preserved_alloc (σ : store) (b : buffer) :
  preserved σ (<[fresh (dom σ) := b]> σ).
Proof. intros a Ha. by apply lookup_alloc_old. Qed.

Lemma hbind_inv {A B} (c : heapM A) (f : A -> heapM B) σ b σ'' :
  hbind c f σ = Ok (b, σ'') ->
  exists a σ', c σ = Ok (a, σ') /\ f a σ' = Ok (b, σ'').
Proof.
  unfold hbind. destruct (c σ) as [[a σ']|]; [|done]. by exists a, σ'.
Qed.

Lemma lift_inv {A} (r : result A) σ a σ' :
  lift r σ = Ok (a, σ') -> r = Ok a /\ σ' = σ.
Proof. unfold lift. destruct r; [|done]. by intros [= -> ->]. Qed.

Lemma alloc_inv b σ a σ' :
  alloc b σ = Ok (a, σ') -> a = fresh (dom σ) /\ σ' = <[a := b]> σ.
Proof. unfold alloc. by intros [= <- <-]. Qed.

Lemma read_inv a v σ b σ' :
  read a v σ = Ok (b, σ') -> b = view_buffer v (σ !!! a) /\ σ' = σ.
Proof. unfold read. by intros [= <- <-]. Qed.

Lemma zmarray_new_inv `{Utils} a v n m alpha σ z σ' :
  zmarray_new a v n m alpha σ = Ok (z, σ') ->
  σ' = σ /\ z_data z = a /\ z_view z = v /\ z_alpha z = alpha.
Proof. unfold zmarray_new. heap_unfold. by intros [= <- <-]. Qed.

(** Inverts a successful run of the store monad, step by step. *)
Ltac heap_inv :=
  repeat match goal with
         | H : hbind _ _ _ = Ok _ |- _ =>
             apply hbind_inv in H as (? & ? & ? & H); cbv beta in H
         | H : lift _ _ = Ok _ |- _ => apply lift_inv in H as [? ->]
         | H : alloc _ _ = Ok _ |- _ => apply alloc_inv in H as [-> ->]
         | H : read _ _ _ = Ok _ |- _ => apply read_inv in H as [? ->]
         | H : zmarray_new _ _ _ _ _ _ = Ok _ |- _ =>
             apply zmarray_new_inv in H as (-> & _)
         | H : hret _ _ = Ok _ |- _ => injection H as <- <-
         | H : match ?b with FloatBuf _ => _ | ComplexBuf _ => _ end _ = Ok _ |- _ =>
             destruct b
         end.

Section Frames.
Context `{Utils}.

Lemma select_preserves (σ σ' : store) self states z' :
  select self states σ = Ok (z', σ') -> preserved σ σ'.
Proof.
  intros Hop. unfold select in Hop. heap_inv. apply preserved_alloc.
Qed.

Lemma complex_preserves (σ σ' : store) self z' :
  complex self σ = Ok (z', σ') -> preserved σ σ'.
Proof.
  intros Hop. unfold complex in Hop. heap_inv.
  - apply preserved_alloc.
  - apply preserved_refl.
Qed.

Lemma rot_preserves (σ σ' : store) self theta z' :
  rot self theta σ = Ok (z', σ') -> preserved σ σ'.
Proof.
  intros Hop. unfold rot in Hop. heap_inv. apply preserved_alloc.
Qed.

Lemma ref_preserves (σ σ' : store) self theta z' :
  ref self theta σ = Ok (z', σ') -> preserved σ σ'.
Proof.
  intros Hop. unfold ref in Hop. heap_inv. apply preserved_alloc.
Qed.

Lemma normalize_preserves (σ σ' : store) self norm z' :
  normalize self norm σ = Ok (z', σ') -> preserved σ σ'.
Proof.
  intros Hop. unfold normalize in Hop. heap_inv.
  - apply preserved_alloc.
  - apply preserved_refl.
Qed.

Lemma maps_preserves (σ σ' : store) self n_fold reshape r :
  maps self n_fold reshape σ = Ok (r, σ') -> σ' = σ.
Proof.
  intros Hop. unfold maps in Hop. heap_inv; done.
Qed.

End Frames.
(** [select], [complex], [rot], [ref], [normalize] and [maps] only
    allocate: whenever one of them returns, every block that was in the
    store, the receiver's included, is still there with the same entries
    ([maps] leaves the store as it is). *)
Theorem moment_methods_preserve_store `{Utils} (σ σ' : store) (self z' : zmarray) :
  (forall states, select self states σ = Ok (z', σ') -> preserved σ σ') /\
  (complex self σ = Ok (z', σ') -> preserved σ σ') /\
  (forall theta, rot self theta σ = Ok (z', σ') -> preserved σ σ') /\
  (forall theta, ref self theta σ = Ok (z', σ') -> preserved σ σ') /\
  (forall norm, normalize self norm σ = Ok (z', σ') -> preserved σ σ') /\
  (forall n_fold reshape r,
     maps self n_fold reshape σ = Ok (r, σ') -> σ' = σ).
Proof.
  split; [intros; by eapply select_preserves|].
  split; [intros; by eapply complex_preserves|].
  split; [intros; by eapply rot_preserves|].
  split; [intros; by eapply ref_preserves|].
  split; [intros; by eapply normalize_preserves|].
  intros; by eapply maps_preserves.
Qed.

Lemma moment_methods_preserve_store_witness :
  let self := ZM 0 Whole 2 [1; 1]%Z [-1; 1]%Z None in
  let σ : store := {[ 0 := FloatBuf (Mat 1 2 [[3; 4]%R]) ]} in
  exists z' σ',
    @normalize example_utils self "l2" σ = Ok (z', σ') /\ preserved σ σ'.
Proof.
  intros self σ.
  destruct (@normalize example_utils self "l2" σ) as [[z' σ']|] eqn:E.
  - exists z', σ'. split; [done|].
    destruct (@moment_methods_preserve_store example_utils σ σ' self z')
      as (_ & _ & _ & _ & Hn & _).
    by apply (Hn "l2"%string).
  - exfalso. revert E. by vm_compute.
Defined.

Lemma rotinv_real_receiver_frame_witness :
  let self := ZM 0 Whole 2 [1; 1]%Z [-1; 1]%Z None in
  let σ : store := {[ 0 := FloatBuf (Mat 1 2 [[3; 4]%R]) ]} in
  exists z' σ',
    @rotinv example_utils self σ = Ok (z', σ') /\ σ' !! 0 = σ !! 0.
Proof.
  intros self σ.
  destruct (@rotinv example_utils self σ) as [[z' σ']|] eqn:E.
  - exists z', σ'. split; [done|].
    apply (@rotinv_real_receiver_frame example_utils σ σ' self z'
             (Mat 1 2 [[3; 4]%R])); [by eexists | done | done].
  - exfalso. revert E. by vm_compute.
Defined.
(** ** Coefficient generation: shapes, errors and signs *)

Lemma broadcast1_mismatch {A B C} (f : A -> B -> C) (a : list A) (b : list B) :
  length a <> length b -> length a <> 1 -> length b <> 1 ->
  broadcast1 f a b = Raise ValueError.
Proof.
  intros Hab Ha Hb. unfold broadcast1. rewrite decide_False by done.
  destruct a as [|x [|x' a]]; destruct b as [|y [|y' b]]; simpl in *; done.
Qed.

(** Index arrays that numpy cannot align: an empty [n] (its maximum does
    not exist), or arrays of different lengths none of which has length
    one.  Both coefficient generators raise [ValueError]. *)
Theorem coeffs_reject_unaligned_input N M alpha normalize :
  N = [] \/ (length N <> length M /\ length N <> 1 /\ length M <> 1) ->
  zp_get_coeffs N M normalize = Raise ValueError /\
  gpzp_get_coeffs N M alpha normalize = Raise ValueError.
Proof.
  intros [->|(Hlen & HN & HM)]; [done|].
  destruct (np_max N) as [n_max|e] eqn:Hmax.
  2:{ destruct N; [|done]. done. }
  unfold zp_get_coeffs, gpzp_get_coeffs. cbv zeta. rewrite Hmax. cbn [rbind].
  rewrite !broadcast1_mismatch by (rewrite ?length_fmap; done). done.
Qed.

Lemma coeffs_reject_unaligned_input_witness :
  zp_get_coeffs [2; 2; 4]%Z [0; 2]%Z true = Raise ValueError /\
  gpzp_get_coeffs [2; 2; 4]%Z [0; 2]%Z 0 true = Raise ValueError.
Proof.
  apply (coeffs_reject_unaligned_input [2; 2; 4]%Z [0; 2]%Z 0%R true).
  right. simpl. lia.
Defined.

Lemma rising_pos x k : (0 < x)%R -> (0 < rising x k)%R.
Proof.
  revert x. induction k as [|k IH]; intros x Hx; simpl; [lra|].
  apply Rmult_lt_0_compat; [done|]. apply IH. lra.
Qed.

Lemma factorial_pos k : (0 <= k)%Z -> (0 < factorial k)%R.
Proof.
  intros Hk. unfold factorial. destruct (Z.ltb_spec k 0); [lia|].
  apply INR_fact_lt_0.
Qed.

Lemma sign_sqr k : (0 <= k)%Z -> (IZR ((-1) ^ k) * IZR ((-1) ^ k) = 1)%R.
Proof.
  intros Hk. rewrite <- mult_IZR, <- Z.pow_mul_l.
  change (-1 * -1)%Z with 1%Z. by rewrite Z.pow_1_l.
Qed.

Lemma gpzp_scale_pos nz alpha n m :
  (Z.abs m <= n)%Z -> (-1 < alpha)%R -> (0 < gpzp_scale nz alpha n m)%R.
Proof.
  intros Hm Ha. unfold gpzp_scale. destruct nz; [|lra]. cbv zeta.
  assert (Hb : (0 <= IZR (n - Z.abs m))%R) by (apply IZR_le; lia).
  assert (Hn : (0 <= IZR n)%R) by (apply IZR_le; lia).
  assert (Hq : (0 < poch (IZR (n - Z.abs m) + alpha + 1) (2 * Z.abs m + 1)
                    / poch (IZR (n - Z.abs m + 1)) (2 * Z.abs m + 1))%R).
  { apply Rdiv_lt_0_compat; apply rising_pos; [lra|].
    apply IZR_lt. lia. }
  destruct (decide _); apply sqrt_lt_R0, Rmult_lt_0_compat; try done.
  - lra.
  - rewrite mult_IZR. lra.
Qed.

Lemma gpzp_get_coeffs_rows N M alpha normalize n_max :
  Forall2 (fun n m => (Z.abs m <= n)%Z) N M -> np_max N = Ok n_max ->
  exists c, gpzp_get_coeffs N M alpha normalize = Ok c /\
    length c = length N /\
    forall i n m, N !! i = Some n -> M !! i = Some m ->
      c !! i = Some ((fun x => x * gpzp_scale normalize alpha n m)%R <$>
                     gpzp_row n_max alpha (n + Z.abs m) (n - Z.abs m)
                       (factorial (n + Z.abs m + 1)
                        / poch (alpha + 1) (n + Z.abs m + 1))%R n).
Proof.
  intros HF Hmax.
  pose proof (Forall2_length _ _ _ HF) as Hlen.
  unfold gpzp_get_coeffs. cbv zeta. rewrite Hmax. cbn [rbind].
  rewrite !broadcast1_same_length by (by rewrite length_fmap). cbn [rbind].
  set (l := zip_with (fun n m =>
                gpzp_row n_max alpha (n + Z.abs m) (n - Z.abs m)
                  (factorial (n + Z.abs m + 1) / poch (alpha + 1) (n + Z.abs m + 1))%R n) N M).
  rewrite (mapM_result_ok _ _ l).
  2:{ apply Forall2_same_length_lookup. split.
      { unfold l. rewrite length_seq, length_zip_with. lia. }
      intros i j row Hj Hrow.
      apply lookup_seq in Hj as [-> Hi]. simpl.
      unfold l in Hrow. apply lookup_zip_with_Some in Hrow as (n & m & -> & Hn & Hm).
      unfold getitem.
      rewrite list_lookup_fmap, !lookup_zip_with, Hn, list_lookup_fmap, Hm. simpl.
      done. }
  cbn [rbind].
  assert (Hrows : Forall (fun row => length row = Z.to_nat (n_max + 1)) l).
  { apply Forall_lookup. intros i row Hrow.
    unfold l in Hrow. apply lookup_zip_with_Some in Hrow as (n & m & -> & Hn & Hm).
    pose proof (Forall2_lookup_lr _ _ _ _ _ _ HF Hn Hm) as Hnm. simpl in Hnm.
    apply gpzp_row_length; [lia|].
    eapply np_max_ge; [done|]. by eapply list_elem_of_lookup_2. }
  assert (Hll : length l = length N).
  { unfold l. rewrite length_zip_with. lia. }
  assert (Hl : forall i n m, N !! i = Some n -> M !! i = Some m ->
     l !! i = Some (gpzp_row n_max alpha (n + Z.abs m) (n - Z.abs m)
                  (factorial (n + Z.abs m + 1) / poch (alpha + 1) (n + Z.abs m + 1))%R n)).
  { intros i n m Hn Hm. unfold l. by rewrite lookup_zip_with, Hn, Hm. }
  rewrite (np_array_uniform l _ Hrows). cbn [rbind].
  destruct normalize.
  - unfold gpzp_norm. cbv zeta.
    rewrite broadcast1_same_length by (by rewrite length_fmap). cbn [rbind].
    rewrite decide_True by done. cbn [rbind].
    eexists. split; [done|]. split.
    + rewrite !length_zip_with. lia.
    + intros i n m Hn Hm. rewrite lookup_zip_with, (Hl _ _ _ Hn Hm). simpl.
      rewrite lookup_zip_with, Hn, Hm. simpl. done.
  - exists l. split; [done|]. split; [done|].
    intros i n m Hn Hm. rewrite (Hl _ _ _ Hn Hm). f_equal.
    unfold gpzp_scale. symmetry. etrans; [|apply list_fmap_id].
    apply list_fmap_ext. intros; simpl. lra.
Qed.

(** The layout of the pseudo-Zernike coefficient matrix.  For index
    arrays with [|m| <= n] everywhere and [alpha > -1], the row of
    [(n, m)] has width [n_max + 1]: first [n_max - n] zeros, then the
    [n - |m| + 1] coefficients of [r^n .. r^|m|], whose signs alternate
    starting with a positive one, then [|m|] zeros. *)
Theorem gpzp_get_coeffs_layout N M alpha normalize n_max :
  Forall2 (fun n m => (Z.abs m <= n)%Z) N M -> (-1 < alpha)%R ->
  np_max N = Ok n_max ->
  exists c, gpzp_get_coeffs N M alpha normalize = Ok c /\
    length c = length N /\
    forall i n m, N !! i = Some n -> M !! i = Some m ->
      exists row, c !! i = Some row /\
        length row = Z.to_nat (n_max + 1) /\
        (forall j, j < Z.to_nat (n_max - n) -> row !! j = Some 0%R) /\
        (forall k x, (Z.of_nat k <= n - Z.abs m)%Z ->
           row !! (Z.to_nat (n_max - n) + k) = Some x ->
           (0 < IZR ((-1) ^ Z.of_nat k) * x)%R) /\
        (forall j, Z.to_nat (n_max - Z.abs m) < j < Z.to_nat (n_max + 1) ->
           row !! j = Some 0%R).
Proof.
  intros HF Ha Hmax.
  destruct (gpzp_get_coeffs_rows N M alpha normalize n_max HF Hmax)
    as (c & Hc & Hlen & Hrows).
  exists c. split; [done|]. split; [done|].
  intros i n m Hn Hm.
  pose proof (Forall2_lookup_lr _ _ _ _ _ _ HF Hn Hm) as Hnm. simpl in Hnm.
  assert (Hle : (n <= n_max)%Z).
  { eapply np_max_ge; [done|]. by eapply list_elem_of_lookup_2. }
  pose proof (gpzp_scale_pos normalize alpha n m Hnm Ha) as Hs.
  eexists. split; [by apply Hrows|].
  split; [rewrite length_fmap; apply gpzp_row_length; lia|].
  unfold gpzp_row, arange. cbv zeta.
  split; [|split].
  - intros j Hj. rewrite list_lookup_fmap.
    rewrite lookup_app_l by (rewrite length_replicate; lia).
    rewrite lookup_replicate_2 by done. simpl. f_equal. lra.
  - intros k x Hk. rewrite list_lookup_fmap.
    rewrite lookup_app_r by (rewrite length_replicate; lia).
    rewrite length_replicate. replace (_ + k - _) with k by lia.
    rewrite lookup_app_l by (rewrite length_fmap, length_seqZ; lia).
    rewrite list_lookup_fmap, lookup_seqZ_lt by lia. simpl.
    rewrite Z.add_0_l. intros [= <-].
    assert (Hp : forall j, (0 <= j)%Z -> (0 < poch (alpha + 1) j)%R).
    { intros j _. apply rising_pos. lra. }
    set (s := IZR ((-1) ^ Z.of_nat k)).
    match goal with
    | |- (0 < s * (?c * s * ?p / ?q * ?f))%R =>
        replace (s * (c * s * p / q * f))%R with ((s * s) * (c * p / q * f))%R
          by (unfold Rdiv; ring)
    end.
    unfold s. rewrite sign_sqr by lia. rewrite Rmult_1_l.
    apply Rmult_lt_0_compat; [|done].
    apply Rdiv_lt_0_compat.
    + apply Rmult_lt_0_compat; [|apply Hp; lia].
      apply Rdiv_lt_0_compat; [apply factorial_pos; lia|apply Hp; lia].
    + repeat apply Rmult_lt_0_compat; apply factorial_pos; lia.
  - intros j Hj. rewrite list_lookup_fmap.
    rewrite lookup_app_r by (rewrite length_replicate; lia).
    rewrite length_replicate.
    rewrite lookup_app_r by (rewrite length_fmap, length_seqZ; lia).
    rewrite length_fmap, length_seqZ.
    rewrite lookup_replicate_2 by lia. simpl. f_equal. lra.
Qed.

Lemma gpzp_get_coeffs_layout_witness :
  exists c, gpzp_get_coeffs [1; 2]%Z [0; -1]%Z 0 true = Ok c /\
    length c = 2 /\
    forall i n m, [1; 2]%Z !! i = Some n -> [0; -1]%Z !! i = Some m ->
      exists row, c !! i = Some row /\
        length row = Z.to_nat (2 + 1) /\
        (forall j, j < Z.to_nat (2 - n) -> row !! j = Some 0%R) /\
        (forall k x, (Z.of_nat k <= n - Z.abs m)%Z ->
           row !! (Z.to_nat (2 - n) + k) = Some x ->
           (0 < IZR ((-1) ^ Z.of_nat k) * x)%R) /\
        (forall j, Z.to_nat (2 - Z.abs m) < j < Z.to_nat (2 + 1) ->
           row !! j = Some 0%R).
Proof.
  apply (gpzp_get_coeffs_layout [1; 2]%Z [0; -1]%Z 0%R true 2).
  - repeat constructor; simpl; lia.
  - lra.
  - reflexivity.
Defined.
(** ** The extractor: what [fit] leaves behind *)

Lemma dot_inv {T} `{Scalar T} (A B C : matrix T) :
  dot A B = Ok C ->
  ncols A = nrows B /\ nrows C = nrows A /\ ncols C = ncols B /\ wf_matrix C.
Proof.
  unfold dot. case_decide; [|done]. intros [= <-].
  split; [done|]. split; [done|]. split; [done|]. apply mk_matrix_wf.
Qed.

Lemma reshape_rows_inv {T} (a : ndarray T) r (M : matrix T) :
  reshape_rows a r = Ok M ->
  nrows M = r /\ r <> 0 /\ r * ncols M = numel (shape a) /\
  rows M = chunks (ncols M) r (data a).
Proof.
  unfold reshape_rows. destruct (Nat.eqb_spec r 0); [done|].
  destruct (Nat.eqb_spec (numel (shape a) `mod` r) 0) as [Hmod|]; [|done].
  intros [= <-]. simpl. repeat split; try done.
  apply Nat.Div0.div_exact in Hmod. lia.
Qed.

Lemma np_reshape_inv {T} (a r : ndarray T) (s : list Z) :
  np_reshape a s = Ok r ->
  data r = data a /\ shape r = Z.to_nat <$> s /\
  numel (shape r) = numel (shape a).
Proof.
  unfold np_reshape. destruct (forallb _ _); [|done].
  destruct (Nat.eqb_spec (numel (Z.to_nat <$> s)) (numel (shape a))); [|done].
  by intros [= <-].
Qed.

Lemma length_chunks {T} c r (l : list T) : length (chunks c r l) = r.
Proof. revert l. induction r as [|r IH]; intros l; simpl; [done|]. by rewrite IH. Qed.

Lemma chunks_wf {T} c r (l : list T) :
  length l = r * c -> Forall (fun row => length row = c) (chunks c r l).
Proof.
  revert l. induction r as [|r IH]; intros l Hl; simpl; [constructor|].
  constructor.
  - rewrite length_take. lia.
  - apply IH. rewrite length_drop. lia.
Qed.

Lemma transpose_wf {T} `{Scalar T} (A : matrix T) : wf_matrix (transpose A).
Proof. apply mk_matrix_wf. Qed.

Lemma matrix_map_wf {T U} (f : T -> U) (A : matrix T) :
  wf_matrix A -> wf_matrix (matrix_map f A).
Proof.
  intros [Hr Hc]. split; simpl.
  - by rewrite length_fmap.
  - apply Forall_fmap. eapply Forall_impl; [exact Hc|].
    intros r Hlen. simpl. by rewrite length_fmap.
Qed.

Section FitPostconditions.
Context `{Utils} `{Kernels}.

Lemma store_moments_spec (self : ZPs) (M : matrix R) (σ : store) :
  store_moments self M σ =
  Ok (set_moments self
        (ZM (fresh (dom σ)) Whole (ncols M) (zps_n self) (zps_m self)
            (zps_alpha self)),
      <[fresh (dom σ) := FloatBuf M]> σ).
Proof.
  unfold store_moments. heap_unfold. by rewrite lookup_total_insert_eq.
Qed.

Lemma store_moments_wf (self : ZPs) (M : matrix R) (σ : store) nc :
  wf_matrix M -> ncols M = nc ->
  length (zps_n self) = nc -> length (zps_m self) = nc ->
  wf_zmarray (<[fresh (dom σ) := FloatBuf M]> σ)
    (ZM (fresh (dom σ)) Whole (ncols M) (zps_n self) (zps_m self)
        (zps_alpha self)).
Proof.
  intros Hwf Hc Hn Hm. unfold wf_zmarray, zm_buffer. simpl.
  rewrite lookup_insert_eq, lookup_total_insert_eq. simpl.
  split; [by eexists|]. split; [done|]. lia.
Qed.

Lemma fit_method_moments (self self' : ZPs) (X : ndarray R) (method : string)
    (σ σ' : store) (size : nat) :
  configured self size ->
  method ∈ ["matrix"; "direct"; "transpose"; "pseudo"; "fftconv"]%string ->
  fit_method self X method σ = Ok (self', σ') ->
  exists z, zps_moments self' = Some z /\ wf_zmarray σ' z /\
    z_n z = zps_n self /\ z_m z = zps_m self /\
    z_alpha z = zps_alpha self /\ z_N z = zps_n_components_ self.
Proof.
  intros (Hd & Hnc & Hn & Hm) Hin Hfit.
  unfold fit_method in Hfit.
  apply hbind_inv in Hfit as (k & ? & Hk & Hfit). cbv beta zeta in Hfit.
  apply lift_inv in Hk as [Hk ->].
  set (self1 := set_samples self k (numel (drop 1 (shape X)))) in *.
  assert (Hsh : shape (zps_data self1) = shape (zps_data self)) by done.
  assert (Hfin : forall M, store_moments self1 M σ = Ok (self', σ') ->
            wf_matrix M -> ncols M = zps_n_components_ self ->
            exists z, zps_moments self' = Some z /\ wf_zmarray σ' z /\
              z_n z = zps_n self /\ z_m z = zps_m self /\
              z_alpha z = zps_alpha self /\ z_N z = zps_n_components_ self).
  { intros M HM Hwf Hc. rewrite store_moments_spec in HM.
    injection HM as <- <-. eexists. split; [done|].
    split; [by eapply store_moments_wf|]. done. }
  repeat (apply elem_of_cons in Hin as [->|Hin]); simpl in Hfit.
  - (* matrix *)
    heap_inv. rewrite Hd in *.
    repeat match goal with
           | E : getitem _ _ = Ok _ |- _ => injection E as <-
           | E : reshape_rows _ _ = Ok _ |- _ =>
               apply reshape_rows_inv in E as (? & ? & ? & ?)
           | E : dot _ _ = Ok _ |- _ => apply dot_inv in E as (? & ? & ? & ?)
           end.
    match goal with
    | E : np_linalg_inv ?g = Ok ?gi |- _ =>
        assert (nrows gi = nrows g) by
          (unfold np_linalg_inv in E; case_decide; [|done];
           destruct (inv_entries g); [|done]; by injection E as <-)
    end.
    eapply Hfin; [done|apply transpose_wf|]. simpl. lia.
  - (* direct *)
    heap_inv.
    match goal with
    | E : np_reshape _ _ = Ok ?r |- _ =>
        apply np_reshape_inv in E as (Hdat & Hshp & Hnum)
    end.
    rewrite Hshp in Hnum. simpl in Hnum. rewrite !Nat2Z.id in Hnum.
    simpl in *. eapply Hfin; [done| |].
    + split; simpl; [apply length_chunks|].
      apply chunks_wf. rewrite length_fmap, Hdat. simpl. lia.
    + simpl. lia.
  - (* transpose *)
    heap_inv. rewrite Hd in *.
    repeat match goal with
           | E : getitem _ _ = Ok _ |- _ => injection E as <-
           | E : reshape_rows _ _ = Ok _ |- _ =>
               apply reshape_rows_inv in E as (? & ? & ? & ?)
           | E : dot _ _ = Ok _ |- _ => apply dot_inv in E as (? & ? & ? & ?)
           end.
    eapply Hfin; [done|by apply matrix_map_wf|]. simpl in *. lia.
  - (* pseudo *)
    heap_inv. rewrite Hd in *.
    repeat match goal with
           | E : getitem _ _ = Ok _ |- _ => injection E as <-
           | E : reshape_rows _ _ = Ok _ |- _ =>
               apply reshape_rows_inv in E as (? & ? & ? & ?)
           | E : dot _ _ = Ok _ |- _ => apply dot_inv in E as (? & ? & ? & ?)
           end.
    eapply Hfin; [done|done|]. simpl in *. lia.
  - (* fftconv *)
    heap_inv.
    repeat match goal with
           | E : reshape_rows _ _ = Ok _ |- _ =>
               apply reshape_rows_inv in E as (? & ? & ? & ?)
           end.
    eapply Hfin; [done|apply transpose_wf|]. simpl in *. lia.
  - by apply elem_of_nil in Hin.
Qed.

Lemma fit_inv (self : ZPs) (X : ndarray R) (method : string) (σ : store) r :
  fit self X method σ = Ok r ->
  exists X', fit_method self X' method σ = Ok r \/
             fit_method self X' "fftconv" σ = Ok r.
Proof.
  unfold fit. destruct r as [self' σ']. intros Hfit.
  apply hbind_inv in Hfit as (X1 & ? & HX1 & Hfit).
  apply lift_inv in HX1 as [_ ->].
  apply hbind_inv in Hfit as ([X' method'] & ? & HXm & Hfit).
  apply lift_inv in HXm as [HXm ->]. simpl in Hfit. exists X'.
  destruct (ndim X1 =? 2); [|injection HXm as <- <-; by left].
  destruct (getitem (shape X1) 0) as [x0|]; [|done].
  destruct (getitem (shape X1) 1) as [x1|]; [|done].
  destruct (getitem (shape (zps_data self)) 1) as [d1|]; [|done].
  cbn [rbind] in HXm.
  destruct (x0 =? d1); [injection HXm as <- <-; by left|].
  destruct (d1 <? x0); injection HXm as <- <-; [by right|by left].
Qed.

Lemma fit_method_frame (self self' : ZPs) (X : ndarray R) (method : string)
    (σ σ' : store) :
  fit_method self X method σ = Ok (self', σ') ->
  preserved σ σ' /\
  zps_data self' = zps_data self /\ zps_n self' = zps_n self /\
  zps_m self' = zps_m self /\ zps_alpha self' = zps_alpha self /\
  zps_n_components_ self' = zps_n_components_ self /\
  zps_size self' = zps_size self /\ zps_n_max self' = zps_n_max self /\
  zps_j_max self' = zps_j_max self /\ zps_states self' = zps_states self.
Proof.
  intros Hfit. unfold fit_method in Hfit.
  apply hbind_inv in Hfit as (k & ? & Hk & Hfit). cbv beta zeta in Hfit.
  apply lift_inv in Hk as [Hk ->].
  repeat case_decide; heap_inv;
    try (rewrite store_moments_spec in Hfit; injection Hfit as <- <-);
    (split; [first [apply preserved_alloc | apply preserved_refl]|done]).
Qed.

End FitPostconditions.

(** Whenever [fit] returns, it has only allocated: every array that was in
    the store is unchanged, and so are the basis images [data], the index
    arrays [n] and [m] and the constructor's parameters of the extractor. *)
Theorem fit_keeps_extractor `{Utils} `{Kernels} (self self' : ZPs)
    (X : ndarray R) (method : string) (σ σ' : store) :
  fit self X method σ = Ok (self', σ') ->
  preserved σ σ' /\
  zps_data self' = zps_data self /\ zps_n self' = zps_n self /\
  zps_m self' = zps_m self /\ zps_alpha self' = zps_alpha self /\
  zps_n_components_ self' = zps_n_components_ self /\
  zps_size self' = zps_size self /\ zps_n_max self' = zps_n_max self /\
  zps_j_max self' = zps_j_max self /\ zps_states self' = zps_states self.
Proof.
  intros Hfit. apply fit_inv in Hfit as (X' & [Hfit|Hfit]);
    by eapply fit_method_frame.
Qed.

(** The moment array [fit] stores is always well formed.  For a configured
    extractor and each of the five methods, when [fit] returns,
    [self.moments] is an allocated array with one column per polynomial,
    rows of one length, and the extractor's [n], [m] and [alpha] as
    metadata. *)
Theorem fit_moments_well_formed `{Utils} `{Kernels} (self self' : ZPs)
    (X : ndarray R) (method : string) (σ σ' : store) (size : nat) :
  configured self size ->
  method ∈ ["matrix"; "direct"; "transpose"; "pseudo"; "fftconv"]%string ->
  fit self X method σ = Ok (self', σ') ->
  exists z, zps_moments self' = Some z /\ wf_zmarray σ' z /\
    z_n z = zps_n self /\ z_m z = zps_m self /\
    z_alpha z = zps_alpha self /\ z_N z = zps_n_components_ self.
Proof.
  intros Hc Hin Hfit. apply fit_inv in Hfit as (X' & [Hfit|Hfit]).
  - by eapply fit_method_moments.
  - eapply fit_method_moments; [done| |done].
    apply list_elem_of_In. simpl. tauto.
Qed.

(** An unknown method name is not reported: on an array with at least
    three axes and at least one sample, [fit] with a [method] that is none
    of the five names returns normally, having recorded the sample and
    feature counts only; [moments] is what it was and nothing is
    allocated. *)
Theorem fit_unknown_method `{Utils} `{Kernels} (self : ZPs) (X : ndarray R)
    (method : string) (σ : store) (k a b : nat) (rest : list nat) :
  shape X = k :: a :: b :: rest -> 1 <= k ->
  method ∉ ["matrix"; "direct"; "transpose"; "pseudo"; "fftconv"]%string ->
  fit self X method σ =
  Ok (set_samples self k (numel (a :: b :: rest)), σ).
Proof.
  intros HX Hk Hm. unfold fit.
  assert (Hchk : check_array X = Ok X).
  { unfold check_array. rewrite HX. by destruct (Nat.eqb_spec k 0); [lia|]. }
  unfold hbind at 1, lift at 1. rewrite Hchk.
  unfold hbind at 1, lift at 1, ndim. rewrite HX. cbn [length Nat.eqb fst snd].
  unfold fit_method. unfold hbind at 1, lift at 1, getitem. rewrite HX.
  cbn [lookup list_lookup drop]. cbv zeta.
  rewrite !decide_False; [done|..]; intros ->; apply Hm;
    apply list_elem_of_In; simpl; tauto.
Qed.

Lemma fit_keeps_extractor_witness :
  let X := NdArray [1; 2; 2] [1; 2; 3; 4]%R in
  exists self' σ',
    @fit example_utils example_kernels example_zps X "direct" ∅ = Ok (self', σ') /\
    preserved ∅ σ' /\ zps_data self' = zps_data example_zps.
Proof.
  intros X.
  destruct (@fit example_utils example_kernels example_zps X "direct" ∅)
    as [[self' σ']|] eqn:E.
  - exists self', σ'. split; [done|].
    destruct (@fit_keeps_extractor example_utils example_kernels
                example_zps self' X "direct" ∅ σ' E) as (Hp & Hd & _).
    done.
  - exfalso. revert E. by vm_compute.
Defined.

Lemma fit_moments_well_formed_witness :
  let X := NdArray [1; 2; 2] [1; 2; 3; 4]%R in
  exists self' σ' z,
    @fit example_utils example_kernels example_zps X "transpose" ∅ = Ok (self', σ') /\
    zps_moments self' = Some z /\ wf_zmarray σ' z /\ z_N z = 1.
Proof.
  intros X.
  destruct (@fit example_utils example_kernels example_zps X "transpose" ∅)
    as [[self' σ']|] eqn:E.
  - destruct (@fit_moments_well_formed example_utils example_kernels
                example_zps self' X "transpose" ∅ σ' 2)
      as (z & Hz & Hwf & _ & _ & _ & HN).
    + repeat split; simpl; lia.
    + apply list_elem_of_In. simpl. tauto.
    + exact E.
    + by exists self', σ', z.
  - exfalso. revert E. by vm_compute.
Defined.

Lemma fit_unknown_method_witness :
  let X := NdArray [1; 2; 2] [1; 2; 3; 4]%R in
  @fit example_utils example_kernels example_zps X "Direct" ∅ =
  Ok (set_samples example_zps 1 4, ∅).
Proof.
  intros X.
  apply (@fit_unknown_method example_utils example_kernels example_zps X
           "Direct" ∅ 1 2 2 []); [reflexivity|lia|].
  rewrite !not_elem_of_cons. repeat split; try done. apply not_elem_of_nil.
Defined.

(** ** The constructor *)

Lemma compress_all_false {A} mask (a : list A) :
  Forall (fun b => b = false) mask -> compress mask a = [].
Proof.
  intros Hall. revert a. induction Hall as [|b mask -> _ IH]; intros [|x a];
    simpl; auto.
Qed.

(** An extractor without polynomials cannot be built: when the state filter
    keeps none of the index pairs up to [n_max] (no [|m|] is among the
    requested states, as with an empty list of states), the constructor
    raises the [ValueError] of the maximum of an empty array. *)
Theorem ZPs_init_no_polynomial `{Utils} n_max size alpha states :
  Forall (fun b => b = false)
    (states_mask
       (snd <$> ((fun j => j2nm j alpha) <$> arange 0 (nm2j n_max n_max alpha + 1)))
       states) ->
  ZPs_init n_max size alpha states = Raise ValueError.
Proof.
  intros Hall. unfold ZPs_init. cbv zeta.
  set (nm := (fun j => j2nm j alpha) <$> arange 0 (nm2j n_max n_max alpha + 1)) in *.
  fold (states_mask (snd <$> nm) states).
  set (keep := states_mask (snd <$> nm) states) in *.
  assert (Hk : length keep = length nm).
  { unfold keep, states_mask, np_in1d. by rewrite !length_fmap. }
  rewrite !take_index_where by (rewrite length_fmap; lia).
  cbn [rbind]. rewrite !compress_all_false by done. done.
Qed.

Lemma ZPs_init_no_polynomial_witness :
  @ZPs_init example_utils 2 4 None (StatesIter []) =
  Raise ValueError.
Proof.
  apply (@ZPs_init_no_polynomial example_utils 2 4 None
           (StatesIter [])).
  vm_compute. repeat constructor.
Defined.
(** ** N-dimensional arrays: products of arrays of one shape *)

Lemma broadcast_rev_same s : broadcast_rev s s = Ok s.
Proof.
  induction s as [|a s IH]; [done|]. simpl. rewrite IH. cbn [rbind].
  by rewrite Nat.eqb_refl.
Qed.

Lemma broadcast_shapes_same s : broadcast_shapes s s = Ok s.
Proof.
  unfold broadcast_shapes. rewrite broadcast_rev_same. cbn [rbind].
  by rewrite reverse_involutive.
Qed.

Lemma lin_foldl (t idx : list nat) acc :
  Forall2 (fun d i => i < d) t idx ->
  foldl (fun acc (di : nat * nat) => acc * di.1 + di.2) acc (zip t idx) =
  acc * numel t +
  foldl (fun acc (di : nat * nat) => acc * di.1 + di.2) 0 (zip t idx).
Proof.
  intros HF. revert acc. induction HF as [|d i t idx Hid HF IH]; intros acc.
  - simpl. lia.
  - simpl. rewrite IH, (IH i). lia.
Qed.

Lemma offset_foldl (t idx : list nat) acc :
  Forall2 (fun d i => i < d) t idx ->
  foldl (fun acc (di : nat * nat) =>
           acc * di.1 + (if di.1 =? 1 then 0 else di.2)) acc (zip t idx) =
  foldl (fun acc (di : nat * nat) => acc * di.1 + di.2) acc (zip t idx).
Proof.
  intros HF. revert acc. induction HF as [|d i t idx Hid HF IH]; intros acc.
  - done.
  - simpl. rewrite IH. f_equal. destruct (Nat.eqb_spec d 1); lia.
Qed.

Lemma indices_bounds t idx :
  idx ∈ indices t -> Forall2 (fun d i => i < d) t idx.
Proof.
  revert idx. induction t as [|d t IH]; intros idx; simpl.
  - intros ->%list_elem_of_singleton. constructor.
  - intros (i & Hin & Hi)%list_elem_of_bind.
    apply list_elem_of_fmap in Hin as (idx' & -> & Hidx').
    apply elem_of_seq in Hi. constructor; [lia|by apply IH].
Qed.

Lemma lin_indices t :
  (fun idx => foldl (fun acc (di : nat * nat) => acc * di.1 + di.2) 0
                (zip t idx)) <$> indices t = seq 0 (numel t).
Proof.
  induction t as [|d t IH]; [done|].
  assert (Hgo : forall n a,
    (fun idx => foldl (fun acc (di : nat * nat) => acc * di.1 + di.2) 0
                  (zip (d :: t) idx)) <$>
      (seq a n ≫= fun i => (fun idx => i :: idx) <$> indices t) =
    seq (a * numel t) (n * numel t)).
  { induction n as [|n IHn]; intros a; [done|].
    cbn [seq mbind list_bind]. change (list_bind _ _ ?f ?l) with (l ≫= f).
    rewrite fmap_app, IHn, <- list_fmap_compose.
    cbn [Nat.mul]. rewrite seq_app. f_equal; [|f_equal; lia].
    replace (a * numel t) with (a * numel t + 0) at 1 by lia.
    rewrite <- fmap_add_seq, <- IH, <- list_fmap_compose.
    apply list_fmap_ext.
    intros ? idx Hidx%list_elem_of_lookup_2%indices_bounds. simpl.
    rewrite lin_foldl by done. lia. }
  change (indices (d :: t)) with
    (seq 0 d ≫= fun i => (fun idx => i :: idx) <$> indices t).
  rewrite (Hgo d 0). done.
Qed.

Lemma offsets_indices t : offset t <$> indices t = seq 0 (numel t).
Proof.
  rewrite <- lin_indices. apply list_fmap_ext.
  intros ? idx Hidx%list_elem_of_lookup_2%indices_bounds.
  unfold offset. rewrite (Forall2_length _ _ _ Hidx), Nat.sub_diag, drop_0.
  by apply offset_foldl.
Qed.

Lemma broadcast_data_same_shape (a : ndarray R) :
  wf_ndarray a -> broadcast_data a (shape a) = data a.
Proof.
  intros Hwf. unfold broadcast_data.
  trans ((fun k => default 0%R (data a !! k)) <$>
           (offset (shape a) <$> indices (shape a))).
  { by rewrite <- list_fmap_compose. }
  rewrite offsets_indices, <- Hwf.
  apply list_eq. intros i. rewrite list_lookup_fmap.
  destruct (data a !! i) as [x|] eqn:Hx.
  - rewrite lookup_seq_lt by (by eapply lookup_lt_Some). simpl. by rewrite Hx.
  - rewrite lookup_seq_ge by (by apply lookup_ge_None). done.
Qed.

(** The product of two arrays of one shape is taken entry by entry. *)
Lemma np_mul_same_shape (a b : ndarray R) :
  wf_ndarray a -> wf_ndarray b -> shape a = shape b ->
  np_mul a b = Ok (NdArray (shape a) (zip_with Rmult (data a) (data b))).
Proof.
  intros Ha Hb Hs. unfold np_mul. rewrite <- Hs, broadcast_shapes_same.
  cbn [rbind]. rewrite broadcast_data_same_shape by done.
  rewrite Hs, broadcast_data_same_shape by done. done.
Qed.
(** ** [fit]: the methods [direct] and [transpose] *)

Lemma chunks_concat {T} c k (ls : list (list T)) :
  Forall (fun r => length r = c) ls -> length ls = k ->
  chunks c k (concat ls) = ls.
Proof.
  intros HF <-. induction HF as [|r ls Hr _ IH]; [done|]. simpl.
  rewrite take_app_length' by done. rewrite drop_app_length' by done.
  by rewrite IH.
Qed.

Lemma mapM_result_fmap {A B} (f : A -> result B) (g : A -> B) l :
  (forall x, x ∈ l -> f x = Ok (g x)) -> mapM f l = Ok (g <$> l).
Proof.
  intros Hfg. apply mapM_result_ok. apply Forall2_fmap_r, Forall_Forall2_diag.
  apply Forall_forall. exact Hfg.
Qed.

Lemma list_bind_concat {A B} (f : A -> list B) (l : list A) :
  l ≫= f = concat (f <$> l).
Proof. induction l as [|x l IH]; [done|]. csimpl. by rewrite IH. Qed.

Lemma fmap_seq_as_fmap {A B} (l : list A) (g : nat -> B) (h : A -> B) :
  (forall i x, l !! i = Some x -> g i = h x) ->
  g <$> seq 0 (length l) = h <$> l.
Proof.
  intros Hgh. apply list_eq. intros i. rewrite !list_lookup_fmap.
  destruct (l !! i) as [x|] eqn:Hx.
  - rewrite lookup_seq_lt by (by eapply lookup_lt_Some). simpl.
    by rewrite (Hgh i x).
  - rewrite lookup_seq_ge by (by apply lookup_ge_None). done.
Qed.

Lemma rsum_zip_with_lookup (p z : list R) :
  length p = length z ->
  rsum (zip_with Rmult p z) =
  ssum ((fun l => (default 0 (p !! l) * default 0 (z !! l))%R)
          <$> seq 0 (length p)).
Proof.
  intros Hlen.
  replace (length p) with (length (zip p z)) by (rewrite length_zip; lia).
  rewrite (fmap_seq_as_fmap (zip p z) _ (fun pz => (pz.1 * pz.2)%R)).
  - revert z Hlen. induction p as [|x p IH]; intros [|y z] Hlen; try done.
    simpl. rewrite IH by (simpl in Hlen; lia). done.
  - intros i [x y] (Hx & Hy)%lookup_zip_Some. by rewrite Hx, Hy.
Qed.

Lemma fmap_concat_pairs (F : list R -> list R -> R) (sh : list nat)
    (imgs basis : list (list R)) :
  (fun pz : ndarray R * ndarray R => F (data pz.1) (data pz.2)) <$>
    ((NdArray sh <$> imgs) ≫= fun p => (fun zp => (p, zp)) <$> (NdArray sh <$> basis)) =
  concat ((fun img => F img <$> basis) <$> imgs).
Proof.
  induction imgs as [|img imgs IH]; [done|]. csimpl.
  rewrite fmap_app, IH. f_equal.
  rewrite <- !list_fmap_compose. by apply list_fmap_ext.
Qed.

Lemma fmap_concat_rows {A B} (g : A -> B) (ls : list (list A)) :
  g <$> concat ls = concat ((fun r : list A => g <$> r) <$> ls).
Proof.
  induction ls as [|r ls IH]; [done|]. simpl. by rewrite fmap_app, IH.
Qed.

Lemma length_concat_uniform {A} c (ls : list (list A)) :
  Forall (fun r => length r = c) ls -> length (concat ls) = length ls * c.
Proof.
  induction 1 as [|r ls Hr _ IH]; [done|]. simpl.
  rewrite length_app, IH, Hr. done.
Qed.

Lemma disk_area_scale (x : R) (size : nat) :
  1 <= size ->
  (x / (INR size * INR size / 4) / PI = x / (PI * INR size * INR size / 4))%R.
Proof.
  intros Hs. assert (INR size <> 0)%R by (apply not_0_INR; lia).
  pose proof PI_neq0. by field.
Qed.

Section FitDirectTranspose.
Context `{Utils} `{Kernels}.
Variables (self : ZPs) (X : ndarray R) (σ : store) (size k : nat).
Hypothesis Hconf : configured self size.
Hypothesis Hwfd : wf_ndarray (zps_data self).
Hypothesis Hsize : 1 <= size.
Hypothesis HX : shape X = [k; size; size].
Hypothesis HwfX : wf_ndarray X.
Hypothesis Hk : 1 <= k.

Let nc := zps_n_components_ self.
Let imgs := chunks (size * size) k (data X).
Let basis := chunks (size * size) nc (data (zps_data self)).

Lemma fit_imgs_wf : length imgs = k /\ Forall (fun r => length r = size * size) imgs.
Proof.
  split; [apply length_chunks|]. apply chunks_wf.
  rewrite HwfX, HX. simpl. lia.
Qed.

Lemma fit_basis_wf : length basis = nc /\ Forall (fun r => length r = size * size) basis.
Proof.
  destruct Hconf as (Hd & _).
  split; [apply length_chunks|]. apply chunks_wf.
  rewrite Hwfd, Hd. simpl. unfold nc. lia.
Qed.

Lemma fit_check_3d (method : string) :
  fit self X method σ = fit_method self X method σ.
Proof.
  unfold fit.
  assert (Hchk : check_array X = Ok X).
  { unfold check_array. rewrite HX. by destruct (Nat.eqb_spec k 0); [lia|]. }
  unfold hbind at 1, lift at 1. rewrite Hchk.
  unfold hbind at 1, lift at 1, ndim. rewrite HX. done.
Qed.

Lemma fit_method_direct_spec :
  fit_method self X "direct" σ =
  Ok (set_moments (set_samples self k (numel [size; size]))
        (ZM (fresh (dom σ)) Whole nc (zps_n self) (zps_m self) (zps_alpha self)),
      <[fresh (dom σ) :=
          FloatBuf (Mat k nc ((fun img => projection size img <$> basis)
                                <$> imgs))]> σ).
Proof.
  pose proof Hconf as (Hd & Hnc & Hn & Hm).
  destruct fit_imgs_wf as [Hil Hiw]. destruct fit_basis_wf as [Hbl Hbw].
  unfold fit_method. unfold hbind at 1, lift at 1, getitem. rewrite HX.
  cbn [lookup list_lookup drop]. cbv zeta.
  rewrite decide_False by done. rewrite decide_True by done.
  unfold hbind at 1, lift at 1. cbn [lookup list_lookup].
  unfold hbind at 1, lift at 1, iter_axis0. rewrite ?HX.
  unfold hbind at 1, lift at 1. cbn [zps_data set_samples]. rewrite Hd.
  set (S2 := numel [size; size]).
  assert (HS2 : S2 = size * size) by (unfold S2; simpl; lia).
  set (ps := NdArray [size; size] <$> chunks S2 k (data X)).
  set (zs := NdArray [size; size] <$> chunks S2 (zps_n_components_ self)
                                        (data (zps_data self))).
  set (F := fun pz : ndarray R * ndarray R =>
              rsum (zip_with Rmult (data pz.1) (data pz.2))).
  unfold hbind at 1, lift at 1.
  rewrite (mapM_result_fmap _ F).
  2:{ intros [p z] Hin.
      apply list_elem_of_bind in Hin as (p' & Hpz & Hp').
      apply list_elem_of_fmap in Hpz as (z' & [= -> ->] & Hz').
      unfold ps in Hp'. unfold zs in Hz'.
      apply list_elem_of_fmap in Hp' as (pl & -> & Hpl).
      apply list_elem_of_fmap in Hz' as (zl & -> & Hzl).
      rewrite HS2 in Hpl, Hzl.
      rewrite Forall_forall in Hiw. rewrite Forall_forall in Hbw.
      cbn [fst snd].
      rewrite np_mul_same_shape; [done| | |done].
      - unfold wf_ndarray. simpl. rewrite (Hiw pl Hpl). lia.
      - unfold wf_ndarray. simpl. rewrite (Hbw zl Hzl). lia. }
  unfold ps, zs, F. rewrite HS2. fold imgs. fold nc. fold basis.
  rewrite (fmap_concat_pairs (fun p z => rsum (zip_with Rmult p z))).
  set (L := (fun img => (fun zp => rsum (zip_with Rmult img zp)) <$> basis) <$> imgs).
  assert (HLw : Forall (fun r => length r = nc) L).
  { unfold L. apply Forall_fmap, Forall_forall. intros img _. simpl.
    by rewrite length_fmap. }
  assert (HLl : length L = k) by (unfold L; by rewrite length_fmap).
  unfold hbind at 1, lift at 1, np_reshape.
  cbn [forallb shape data fmap list_fmap numel foldr].
  cbn [zps_n set_samples]. rewrite !Nat2Z.id, Hn. fold nc.
  assert (Hpos : (0 <=? Z.of_nat k)%Z && ((0 <=? Z.of_nat nc)%Z && true) = true).
  { rewrite !andb_true_iff. repeat split; try done; apply Z.leb_le; lia. }
  rewrite Hpos.
  rewrite (length_concat_uniform nc L HLw), HLl.
  destruct (Nat.eqb_spec (k * (nc * 1)) (k * nc * 1)); [|lia].
  cbn [data]. rewrite store_moments_spec. cbn [ncols].
  do 4 f_equal.
  rewrite fmap_concat_rows, chunks_concat.
  2:{ apply Forall_fmap. eapply Forall_impl; [exact HLw|].
      intros r Hr. simpl. by rewrite length_fmap. }
  2:{ by rewrite length_fmap. }
  unfold L. rewrite <- list_fmap_compose. f_equal. apply list_fmap_ext.
  intros ? img _. simpl. rewrite <- list_fmap_compose.
  apply list_fmap_ext. intros ? zp _. simpl.
  unfold projection. by apply disk_area_scale.
Qed.

Lemma fit_method_transpose_spec :
  fit_method self X "transpose" σ =
  Ok (set_moments (set_samples self k (numel [size; size]))
        (ZM (fresh (dom σ)) Whole nc (zps_n self) (zps_m self) (zps_alpha self)),
      <[fresh (dom σ) :=
          FloatBuf (Mat k nc ((fun img => projection size img <$> basis)
                                <$> imgs))]> σ).
Proof.
  pose proof Hconf as (Hd & Hnc & Hn & Hm).
  destruct fit_imgs_wf as [Hil Hiw]. destruct fit_basis_wf as [Hbl Hbw].
  assert (HrX : reshape_rows X k = Ok (Mat k (size * size) imgs)).
  { unfold reshape_rows. rewrite HX. simpl.
    destruct (Nat.eqb_spec k 0); [lia|].
    replace (k * (size * (size * 1))) with ((size * size) * k) by lia.
    rewrite Nat.Div0.mod_mul, Nat.div_mul by lia. done. }
  unfold fit_method. unfold hbind at 1, lift at 1, getitem. rewrite HX.
  cbn [lookup list_lookup drop]. cbv zeta.
  rewrite decide_False by done. rewrite decide_False by done.
  rewrite decide_True by done.
  unfold hbind at 1, lift at 1. rewrite HrX.
  unfold hbind at 1, lift at 1. cbn [zps_data set_samples]. rewrite Hd.
  cbn [lookup list_lookup].
  unfold hbind at 1, lift at 1.
  rewrite (reshape_rows_basis self size Hconf). fold nc. fold basis.
  cbn [ncols]. rewrite Nat.sqrt_square.
  unfold hbind at 1, lift at 1, dot. cbn [ncols nrows transpose mk_matrix].
  rewrite decide_True by done.
  rewrite store_moments_spec. unfold matrix_map, mk_matrix.
  cbn [ncols nrows rows zps_n zps_m zps_alpha set_samples].
  do 5 f_equal.
  rewrite <- list_fmap_compose.
  rewrite <- Hil at 1. apply fmap_seq_as_fmap. intros i img Himg. simpl.
  rewrite <- list_fmap_compose.
  rewrite <- Hbl at 1. apply fmap_seq_as_fmap. intros j zp Hzp. simpl.
  unfold projection. f_equal.
  rewrite Forall_forall in Hiw. rewrite Forall_forall in Hbw.
  pose proof (Hiw img (list_elem_of_lookup_2 _ _ _ Himg)) as Hli.
  pose proof (Hbw zp (list_elem_of_lookup_2 _ _ _ Hzp)) as Hlz.
  rewrite rsum_zip_with_lookup by lia. rewrite Hli.
  f_equal. apply list_fmap_ext. intros ? l Hl%lookup_seq. simpl.
  f_equal.
  - unfold entry. simpl. by rewrite Himg.
  - rewrite transpose_table. cbn [ncols nrows].
    rewrite entry_mk_matrix by (apply lookup_lt_Some in Hzp; lia).
    unfold entry. simpl. by rewrite Hzp.
Qed.

End FitDirectTranspose.

(** The methods [direct] ("here for validation") and [transpose] compute
    the same moments.  For a configured extractor and a stack of [k] images
    of the grid size, [fit] returns with either method the same extractor
    and the same store: the new moment array has one row per image and one
    column per polynomial, the entry being the sum of the pixel products
    of the image with the basis image, divided by the area of the disk
    (exactly, in real arithmetic). *)
Theorem fit_direct_agrees_with_transpose `{Utils} `{Kernels} (self : ZPs)
    (X : ndarray R) (σ : store) (size k : nat) :
  configured self size -> wf_ndarray (zps_data self) -> 1 <= size ->
  shape X = [k; size; size] -> wf_ndarray X -> 1 <= k ->
  let nc := zps_n_components_ self in
  let imgs := chunks (size * size) k (data X) in
  let basis := chunks (size * size) nc (data (zps_data self)) in
  let out :=
    Ok (set_moments (set_samples self k (numel [size; size]))
          (ZM (fresh (dom σ)) Whole nc (zps_n self) (zps_m self)
              (zps_alpha self)),
        <[fresh (dom σ) :=
            FloatBuf (Mat k nc ((fun img => projection size img <$> basis)
                                  <$> imgs))]> σ) in
  fit self X "direct" σ = out /\ fit self X "transpose" σ = out.
Proof.
  intros Hconf Hwfd Hsize HX HwfX Hk nc imgs basis out. split.
  - rewrite (fit_check_3d self X σ size k) by done.
    by apply fit_method_direct_spec.
  - rewrite (fit_check_3d self X σ size k) by done.
    by apply fit_method_transpose_spec.
Qed.

Lemma fit_direct_agrees_with_transpose_witness :
  let X := NdArray [1; 2; 2] [1; 2; 3; 4]%R in
  let out :=
    Ok (set_moments (set_samples example_zps 1 4)
          (ZM (fresh (dom (∅ : store))) Whole 1 [0%Z] [0%Z] None),
        <[fresh (dom (∅ : store)) :=
            FloatBuf (Mat 1 1 [[projection 2 [1; 2; 3; 4]%R [1; 1; 1; 1]%R]])]>
          (∅ : store)) in
  @fit example_utils example_kernels example_zps X "direct" ∅ = out /\
  @fit example_utils example_kernels example_zps X "transpose" ∅ = out.
Proof.
  intros X out.
  apply (@fit_direct_agrees_with_transpose example_utils example_kernels
           example_zps X ∅ 2 1); try done; try lia.
Defined.
(** ** The complex form of a moment array *)

Lemma rank_lookup (uniq : list Z) (x : Z) (r : nat) :
  NoDup uniq -> uniq !! r = Some x ->
  (list_to_map (zip uniq (seq 0 (length uniq))) : gmap Z nat) !! x = Some r.
Proof.
  intros Hnd Hr. apply elem_of_list_to_map_1.
  - rewrite fst_zip by (rewrite length_seq; lia). done.
  - apply list_elem_of_lookup. exists r. apply lookup_zip_Some.
    split; [done|]. apply lookup_seq. split; [done|]. by eapply lookup_lt_Some.
Qed.

Section ComplexMatrix.
Context `{Utils}.

Lemma construct_complex_matrix_loop (uniq j2 : list Z) (vals : list complex128)
    (d k : nat) :
  NoDup uniq -> (forall j, j ∈ j2 -> j ∈ uniq) ->
  length vals = length j2 -> k + d = length j2 ->
  for_enumerate
    (fun i (iv : Z * complex128) c_matrix =>
       let* r := match (list_to_map (zip uniq (seq 0 (length uniq)))
                          : gmap Z nat) !! iv.1 with
                 | Some r => Ok r
                 | None => Raise KeyError
                 end in
       setitem2 c_matrix (Z.of_nat r) (Z.of_nat i) iv.2)
    k (drop k (zip j2 vals))
    (mk_matrix (length uniq) (length j2)
       (fun r i => if decide (i < k)
                   then complex_matrix_entry uniq j2 vals r i else Cx 0 0)) =
  Ok (mk_matrix (length uniq) (length j2) (complex_matrix_entry uniq j2 vals)).
Proof.
  intros Hnd Hin Hlen. revert k. induction d as [|d IH]; intros k Hk.
  - rewrite drop_ge by (rewrite length_zip; lia). simpl. f_equal.
    apply mk_matrix_ext. intros r i Hr Hi. rewrite decide_True by lia. done.
  - assert (Hkn : k < length j2) by lia.
    destruct (lookup_lt_is_Some_2 j2 k Hkn) as [j Hj].
    destruct (lookup_lt_is_Some_2 vals k ltac:(lia)) as [v Hv].
    rewrite (drop_S _ (j, v)) by (by apply lookup_zip_Some).
    cbn [for_enumerate fst snd].
    assert (Hju : j ∈ uniq) by (apply Hin; by eapply list_elem_of_lookup_2).
    apply list_elem_of_lookup in Hju as [r Hr].
    rewrite (rank_lookup uniq j r Hnd Hr). cbn [rbind].
    rewrite setitem2_mk_matrix by (done || by eapply lookup_lt_Some).
    cbn [rbind]. rewrite <- (IH (S k)) by lia. f_equal.
    apply mk_matrix_ext. intros r' i Hr' Hi.
    destruct (decide (r' = r /\ i = k)) as [[-> ->]|Hne].
    + rewrite decide_True by lia. unfold complex_matrix_entry.
      rewrite Hj, Hv. by rewrite decide_True.
    + destruct (decide (i < k)).
      * rewrite decide_True by lia. done.
      * destruct (decide (i < S k)); [|done].
        assert (i = k) as -> by lia. unfold complex_matrix_entry.
        rewrite Hj, Hv. rewrite decide_False; [done|].
        intros Hr''. apply Hne. split; [|done].
        eapply NoDup_lookup; eauto.
Qed.

Lemma construct_complex_matrix_spec n m alpha :
  length n = length m ->
  let j2 := zip_with (fun en em => nm2j_complex en em alpha) n (Z.abs <$> m) in
  let vals := (fun em => if decide (0 <= em)%Z then Cx 1 0 else Ci) <$> m in
  construct_complex_matrix n m alpha =
  Ok (mk_matrix (length (np_unique j2)) (length n)
        (complex_matrix_entry (np_unique j2) j2 vals)).
Proof.
  intros Hlen j2 vals. unfold construct_complex_matrix.
  rewrite !broadcast1_same_length by (rewrite ?length_fmap; done).
  cbn [rbind]. cbv zeta. fold j2.
  rewrite decide_True by (rewrite length_zip_with; lia).
  cbn [rbind]. fold vals.
  assert (Hj2 : length j2 = length n).
  { unfold j2. rewrite length_zip_with, length_fmap. lia. }
  rewrite length_zip_with, Nat.min_l by lia.
  rewrite <- Hj2.
  rewrite <- (construct_complex_matrix_loop (np_unique j2) j2 vals
                (length j2) 0); try done.
  - apply NoDup_np_unique.
  - intros j Hj. by apply elem_of_np_unique.
  - unfold vals. rewrite length_fmap. lia.
Qed.

End ComplexMatrix.

Lemma Re_ssum (l : list complex128) : Re (ssum l) = rsum (Re <$> l).
Proof. induction l as [|x l IH]; [done|]. simpl. by rewrite IH. Qed.

Lemma Im_ssum (l : list complex128) : Im (ssum l) = rsum (Im <$> l).
Proof. induction l as [|x l IH]; [done|]. simpl. by rewrite IH. Qed.

Section ComplexOfReal.
Context `{Utils}.

(** [complex()] on a well-formed real moment array always returns: a new
    complex array with the same rows and one column per distinct complex
    index [nm2j_complex(n, |m|)], [alpha] kept.  The real part of the
    column of the index [j] is the sum of the receiver's columns with that
    complex index and [m >= 0], the imaginary part the sum of those with
    [m < 0]. *)
Theorem complex_of_real_array (σ : store) (self : zmarray) (X : matrix R) :
  wf_zmarray σ self -> zm_buffer σ self = FloatBuf X ->
  let uniq_j2 :=
    np_unique (zip_with (fun en em => nm2j_complex en em (z_alpha self))
                 (z_n self) (Z.abs <$> z_m self)) in
  exists z' σ' Z,
    complex self σ = Ok (z', σ') /\
    zm_buffer σ' z' = ComplexBuf Z /\ wf_matrix Z /\
    nrows Z = nrows X /\ ncols Z = length uniq_j2 /\
    z_N z' = length uniq_j2 /\ z_alpha z' = z_alpha self /\
    forall s r j, s < nrows X -> uniq_j2 !! r = Some j ->
      Re (entry Z s r) =
        row_sum_where X s (feeds (z_n self) (z_m self) (z_alpha self) j true) /\
      Im (entry Z s r) =
        row_sum_where X s (feeds (z_n self) (z_m self) (z_alpha self) j false).
Proof.
  intros (Hs & Hwf & Hc & Hn & Hm) HX uniq_j2.
  rewrite HX in Hwf, Hc. simpl in Hwf, Hc.
  unfold complex. heap_unfold. fold (zm_buffer σ self). rewrite HX.
  rewrite construct_complex_matrix_spec by lia.
  set (j2 := zip_with _ _ _) in *. fold uniq_j2.
  set (vals := (fun em => _) <$> z_m self).
  rewrite transpose_table, promote_table, Hc, <- Hn, dot_tables.
  unfold dot_vec. cbn [ncols mk_matrix matrix_map].
  rewrite !decide_True by (rewrite length_fmap; lia).
  rewrite lookup_total_insert_eq. cbn [buf_ncols transpose ncols nrows mk_matrix].
  eexists _, _, _. split; [reflexivity|].
  unfold zm_buffer. cbn [z_data z_view view_buffer].
  rewrite lookup_total_insert_eq.
  split; [reflexivity|]. split; [apply mk_matrix_wf|].
  split; [done|]. split; [done|]. split; [done|]. split; [done|].
  intros s r j Hs' Hr.
  assert (Hr' : r < length uniq_j2) by (by eapply lookup_lt_Some).
  rewrite transpose_table. cbn [ncols nrows mk_matrix].
  fold (mk_matrix (length uniq_j2) (nrows X)
          (fun i j0 => ssum ((fun l => s_mul (complex_matrix_entry uniq_j2 j2 vals i l)
                                         (s_of_R (entry X j0 l)))
                               <$> seq 0 (length (z_n self))))).
  rewrite entry_mk_matrix by done. rewrite entry_mk_matrix by done.
  rewrite Re_ssum, Im_ssum, <- !list_fmap_compose.
  unfold row_sum_where. rewrite Hc, <- Hn.
  assert (Hentry : forall l, l < length (z_n self) ->
            exists en em, z_n self !! l = Some en /\ z_m self !! l = Some em /\
              complex_matrix_entry uniq_j2 j2 vals r l =
              if decide (nm2j_complex en (Z.abs em) (z_alpha self) = j)
              then (if decide (0 <= em)%Z then Cx 1 0 else Ci) else Cx 0 0).
  { intros l Hl.
    destruct (lookup_lt_is_Some_2 (z_n self) l Hl) as [en Hen].
    destruct (lookup_lt_is_Some_2 (z_m self) l ltac:(lia)) as [em Hem].
    exists en, em. split; [done|]. split; [done|].
    unfold complex_matrix_entry, j2, vals.
    rewrite lookup_zip_with, Hen, !list_lookup_fmap, Hem. simpl. rewrite Hr.
    destruct (decide (nm2j_complex en (Z.abs em) (z_alpha self) = j)) as [->|Hne].
    - by rewrite decide_True.
    - rewrite decide_False; [done|]. by intros [= ->]. }
  split; f_equal; apply list_fmap_ext; intros ? l Hl%lookup_seq;
    destruct (Hentry l ltac:(lia)) as (en & em & Hen & Hem & Hce);
    unfold compose; rewrite Hce;
    unfold feeds; rewrite Hen, Hem; simpl;
    repeat case_decide;
    rewrite ?bool_decide_eq_true_2, ?bool_decide_eq_false_2 by (done || lia);
    simpl; first [lra | exfalso; lia | done].
Qed.

End ComplexOfReal.

Lemma complex_of_real_array_witness :
  let self := ZM 0 Whole 2 [1; 1]%Z [-1; 1]%Z None in
  let σ : store := {[ 0 := FloatBuf (Mat 1 2 [[3; 4]%R]) ]} in
  exists z' σ' Z,
    @complex example_utils self σ = Ok (z', σ') /\
    zm_buffer σ' z' = ComplexBuf Z /\ nrows Z = 1 /\ z_alpha z' = None.
Proof.
  intros self σ.
  destruct (@complex_of_real_array example_utils σ self (Mat 1 2 [[3; 4]%R]))
    as (z' & σ' & Z & Hc & Hb & _ & Hr & _ & _ & Ha & _).
  - unfold wf_zmarray, zm_buffer. simpl. repeat split; try done.
    by repeat constructor.
  - reflexivity.
  - by exists z', σ', Z.
Defined.

(** ** Rotation invariants *)


Section RotinvModuli.
Context `{Utils}.



End RotinvModuli.


Section RotInverse.
Context `{Utils} {T : Type} `{ScalarLaws T} `{!ScalarUnit T}.

Lemma rotated_zero n m (u : nat -> T) i :
  canonical_order n m -> i < length n -> rotated 0 n m u i = u i.
Proof.
  intros Hcan Hi. pose proof Hcan as [Hlen Hc].
  destruct (lookup_lt_is_Some_2 n i Hi) as [en Hen].
  destruct (lookup_lt_is_Some_2 m i ltac:(lia)) as [em Hem].
  rewrite (rotated_canonical 0 n m u i en em) by done.
  destruct (decide (em = 0%Z)); [apply s_mul_R1|]. cbv zeta.
  replace (np_deg2rad 0 * IZR (Z.abs em))%R with 0%R
    by (unfold np_deg2rad; lra).
  rewrite cos_0, sin_0, Rmult_0_r, s_mul_R1, s_mul_R0. apply s_add_0_r.
Qed.

Lemma rotate_matrix_inverse theta n m (X : matrix T) :
  canonical_order n m -> wf_matrix X -> ncols X = length n ->
  rotate_matrix (- theta) n m (rotate_matrix theta n m X) = X.
Proof.
  intros Hcan Hwf Hc. rewrite rotate_matrix_compose by done.
  replace (theta + - theta)%R with 0%R by lra.
  rewrite (matrix_as_table X Hwf) at 2. unfold rotate_matrix. rewrite Hc.
  apply mk_matrix_ext. intros s i _ Hi. by apply rotated_zero.
Qed.

End RotInverse.

Section RotRoundTrip.
Context `{Utils}.

Lemma rotate_buffer_inverse theta n m b :
  canonical_order n m -> wf_buffer b -> buf_ncols b = length n ->
  rotate_buffer (- theta) n m (rotate_buffer theta n m b) = b.
Proof.
  intros Hcan Hwf Hc. destruct b; simpl; f_equal;
    by apply rotate_matrix_inverse.
Qed.

(** Rotating back.  For a well-formed moment array in the canonical
    order, [rot(theta)] followed by [rot(-theta)] returns an array with
    the receiver's entries and metadata (exactly, in real arithmetic). *)
Theorem rot_round_trip (σ : store) (self : zmarray) (theta : R) :
  wf_zmarray σ self -> canonical_order (z_n self) (z_m self) ->
  exists z1 σ1 z2 σ2,
    rot self theta σ = Ok (z1, σ1) /\
    rot z1 (- theta) σ1 = Ok (z2, σ2) /\
    zm_buffer σ2 z2 = zm_buffer σ self /\
    z_N z2 = z_N self /\ z_n z2 = z_n self /\ z_m z2 = z_m self /\
    z_alpha z2 = z_alpha self.
Proof.
  intros Hwf Hcan.
  pose proof (rot_spec σ self theta Hwf Hcan) as H1.
  set (a1 := fresh (dom σ)) in *.
  set (b1 := rotate_buffer theta (z_n self) (z_m self) (zm_buffer σ self)) in *.
  set (z1 := ZM a1 Whole (z_N self) (z_n self) (z_m self) (z_alpha self)) in *.
  set (σ1 := <[a1 := b1]> σ) in *.
  assert (Hb1 : zm_buffer σ1 z1 = b1).
  { unfold zm_buffer, σ1. simpl. by rewrite lookup_total_insert_eq. }
  pose proof Hwf as (_ & Hwfb & Hc & Hn & Hm).
  assert (Hwf1 : wf_zmarray σ1 z1).
  { unfold wf_zmarray. rewrite Hb1. simpl. split; [|split; [|split]].
    - unfold σ1. rewrite lookup_insert_eq. by eexists.
    - apply rotate_buffer_wf.
    - unfold b1. by rewrite rotate_buffer_ncols.
    - done. }
  pose proof (rot_spec σ1 z1 (- theta) Hwf1 Hcan) as H2.
  eexists _, _, _, _. split; [exact H1|]. split; [exact H2|].
  split; [|done].
  unfold zm_buffer at 1. simpl. rewrite lookup_total_insert_eq, Hb1.
  unfold b1. apply rotate_buffer_inverse; [done|done|lia].
Qed.

End RotRoundTrip.

Lemma rot_round_trip_witness :
  let self := ZM 0 Whole 3 [0; 1; 1]%Z [0; -1; 1]%Z None in
  let σ : store := {[ 0 := FloatBuf (Mat 1 3 [[1; 2; 3]%R]) ]} in
  exists z1 σ1 z2 σ2,
    @rot example_utils self 30 σ = Ok (z1, σ1) /\
    @rot example_utils z1 (- 30) σ1 = Ok (z2, σ2) /\
    zm_buffer σ2 z2 = FloatBuf (Mat 1 3 [[1; 2; 3]%R]).
Proof.
  intros self σ.
  destruct (@rot_round_trip example_utils σ self 30)
    as (z1 & σ1 & z2 & σ2 & H1 & H2 & Hb & _).
  - unfold wf_zmarray, zm_buffer. simpl. repeat split; try done.
    by repeat constructor.
  - split; [done|]. intros [|[|[|i]]] en em; simpl; intros [= <-] [= <-].
    + split; [done|]. by exists 0.
    + split; [done|]. by exists 2.
    + split; [done|]. by exists 1.
  - by exists z1, σ1, z2, σ2.
Defined.

(** ** Reflection *)

Section RefMatrix.
Context `{Utils}.

Lemma construct_ref_matrix_loop theta n m (d k : nat) :
  canonical_order n m -> k + d = length n ->
  for_enumerate
    (fun i (nm : Z * Z) ref_matrix =>
       let en := nm.1 in
       let em := nm.2 in
       if decide (em = 0)%Z then
         setitem2 ref_matrix (Z.of_nat i) (nm2j en em None) 1%R
       else if decide (em < 0)%Z then
         let t := (2 * np_deg2rad theta * IZR (- em))%R in
         let* ref_matrix :=
           setitem2 ref_matrix (Z.of_nat i) (nm2j en em None) (- cos t)%R in
         setitem2 ref_matrix (Z.of_nat i) (nm2j en (- em) None) (- sin t)%R
       else
         let t := (2 * np_deg2rad theta * IZR em)%R in
         let* ref_matrix :=
           setitem2 ref_matrix (Z.of_nat i) (nm2j en em None) (cos t) in
         setitem2 ref_matrix (Z.of_nat i) (nm2j en (- em) None) (- sin t)%R)
    k (drop k (zip n m))
    (mk_matrix (length n) (length n)
       (fun i j => if decide (i < k) then ref_entry theta n m i j else 0%R)) =
  Ok (mk_matrix (length n) (length n) (ref_entry theta n m)).
Proof.
  intros [Hlen Hcan]. revert k. induction d as [|d IH]; intros k Hk.
  - rewrite drop_ge by (rewrite length_zip; lia). simpl. f_equal.
    apply mk_matrix_ext. intros i j Hi Hj. rewrite decide_True by lia. done.
  - assert (Hkn : k < length n) by lia.
    destruct (lookup_lt_is_Some_2 n k Hkn) as [en Hen].
    destruct (lookup_lt_is_Some_2 m k ltac:(lia)) as [em Hem].
    rewrite (drop_S _ (en, em)) by (by apply lookup_zip_Some).
    cbn [for_enumerate]. cbv zeta. cbn [fst snd].
    destruct (Hcan k en em Hen Hem) as (Hj1 & k' & Hj2 & Hen' & Hem').
    assert (Hk' : k' < length n) by (by eapply lookup_lt_Some).
    rewrite Hj1, Hj2.
    match goal with
    | |- rbind ?body _ = _ =>
        assert (Hbody : body =
          Ok (mk_matrix (length n) (length n)
                (fun i j => if decide (i < S k)
                            then ref_entry theta n m i j else 0%R)))
    end.
    { assert (Hrow : forall j, ref_entry theta n m k j =
                match decide (em = 0%Z) with
                | left _ => if decide (j = k) then 1%R else 0%R
                | right _ =>
                    if decide (j = k')
                    then (- sin (2 * np_deg2rad theta * IZR (Z.abs em)))%R
                    else if decide (j = k)
                         then (if decide (em < 0)%Z
                               then (- cos (2 * np_deg2rad theta * IZR (Z.abs em)))%R
                               else cos (2 * np_deg2rad theta * IZR (Z.abs em)))
                         else 0%R
                end).
      { intros j. unfold ref_entry. rewrite Hen, Hem, Hj2.
        destruct (decide (em = 0%Z)); [done|]. cbv zeta.
        destruct (decide (Z.of_nat j = Z.of_nat k')), (decide (j = k')); try lia; done. }
      assert (Hfill : forall c s,
        (forall j, ref_entry theta n m k j =
                   if decide (j = k') then s else if decide (j = k) then c else 0%R) ->
        forall i j, i < length n -> j < length n ->
          (if decide (i = k /\ j = k') then s
           else if decide (i = k /\ j = k) then c
                else if decide (i < k) then ref_entry theta n m i j else 0%R) =
          (if decide (i < S k) then ref_entry theta n m i j else 0%R)).
      { intros c s Hr i j Hi Hj.
        destruct (decide (i = k /\ j = k')) as [[-> ->]|Hne].
        - rewrite decide_True by lia. rewrite Hr. by rewrite decide_True.
        - destruct (decide (i = k /\ j = k)) as [[-> ->]|Hne'].
          + rewrite decide_True by lia. rewrite Hr.
            rewrite decide_False by (intros ->; by apply Hne).
            by rewrite decide_True.
          + destruct (decide (i < k)).
            * rewrite decide_True by lia. done.
            * destruct (decide (i < S k)); [|done].
              assert (i = k) as -> by lia. rewrite Hr.
              rewrite decide_False by (intros ->; by apply Hne).
              rewrite decide_False by (intros ->; by apply Hne'). done. }
      destruct (decide (em = 0%Z)) as [Hz|Hnz].
      - rewrite setitem2_mk_matrix by done. f_equal.
        apply mk_matrix_ext. intros i j Hi Hj.
        destruct (decide (i = k /\ j = k)) as [[-> ->]|Hne].
        + rewrite decide_True by lia. rewrite Hrow. by rewrite decide_True.
        + destruct (decide (i < k)).
          * rewrite decide_True by lia. done.
          * destruct (decide (i < S k)); [|done].
            assert (i = k) as -> by lia. rewrite Hrow.
            rewrite decide_False by (intros ->; by apply Hne). done.
      - destruct (decide (em < 0)%Z) as [Hneg|Hpos].
        + rewrite setitem2_mk_matrix by done. cbn [rbind].
          rewrite setitem2_mk_matrix by done. f_equal.
          apply mk_matrix_ext. intros i j Hi Hj.
          replace (Z.abs em) with (- em)%Z in Hrow by lia.
          apply Hfill; [|done|done]. intros j'. rewrite Hrow.
          done.
        + rewrite setitem2_mk_matrix by done. cbn [rbind].
          rewrite setitem2_mk_matrix by done. f_equal.
          apply mk_matrix_ext. intros i j Hi Hj.
          replace (Z.abs em) with em in Hrow by lia.
          apply Hfill; [|done|done]. intros j'. rewrite Hrow.
          done. }
    rewrite Hbody. cbn [rbind]. apply IH. lia.
Qed.

Lemma construct_ref_matrix_canonical theta n m :
  canonical_order n m ->
  construct_ref_matrix n m theta None =
  Ok (mk_matrix (length n) (length n) (ref_entry theta n m)).
Proof.
  intros Hcan. unfold construct_ref_matrix. cbv zeta.
  rewrite <- (construct_ref_matrix_loop theta n m (length n) 0 Hcan) by lia.
  rewrite drop_0. f_equal.
Qed.

End RefMatrix.

Section RefAction.
Context `{Utils} {T : Type} `{ScalarLaws T} `{!ScalarUnit T}.

Lemma reflected_ext theta n m (u v : nat -> T) i :
  (forall k, k < length n -> u k = v k) ->
  reflected theta n m u i = reflected theta n m v i.
Proof.
  intros Huv. unfold reflected. f_equal.
  apply list_fmap_ext. intros ? k Hk%lookup_seq. rewrite Huv by lia. done.
Qed.

Lemma reflected_canonical theta n m (u : nat -> T) i en em :
  canonical_order n m -> n !! i = Some en -> m !! i = Some em ->
  reflected theta n m u i =
  if decide (em = 0%Z) then u i
  else
    let t := (2 * np_deg2rad theta * IZR (Z.abs em))%R in
    s_add (s_mul (s_of_R (msign em * cos t)) (u i))
          (s_mul (s_of_R (- sin t))
                 (u (Z.to_nat (nm2j en (- em) None)))).
Proof.
  intros [Hlen Hcan] Hen Hem.
  destruct (Hcan i en em Hen Hem) as (Hj1 & i' & Hj2 & Hen' & Hem').
  assert (Hi : i < length n) by (by eapply lookup_lt_Some).
  assert (Hi' : i' < length n) by (by eapply lookup_lt_Some).
  unfold reflected. destruct (decide (em = 0%Z)) as [Hz|Hnz].
  - rewrite (ssum_support1 _ 0 (length n) i) by
      (first [lia | intros k _ Hk; unfold ref_entry; rewrite Hen, Hem;
                    rewrite decide_True by done;
                    rewrite decide_False by done; apply s_mul_R0]).
    unfold ref_entry. rewrite Hen, Hem, !decide_True by done.
    apply s_mul_R1.
  - cbv zeta. rewrite Hj2, Nat2Z.id.
    assert (Hii : i <> i').
    { intros <-. rewrite Hem in Hem'. injection Hem' as ?. lia. }
    rewrite (ssum_support2 _ (length n) i i'); [|done|done|done|].
    + unfold ref_entry, msign. rewrite Hen, Hem. cbv zeta. rewrite Hj2.
      repeat case_decide; try lia; try done; do 3 f_equal; lra.
    + intros k _ Hk Hk'. unfold ref_entry. rewrite Hen, Hem. cbv zeta.
      rewrite Hj2. repeat case_decide; try lia; try done; apply s_mul_R0.
Qed.

(** Reflecting a pair twice about one axis. *)
Lemma ref_pair_involution (c s g : R) (x y : T) :
  (g * g = 1)%R -> (c * c + s * s = 1)%R ->
  s_add (s_mul (s_of_R (g * c))
           (s_add (s_mul (s_of_R (g * c)) x) (s_mul (s_of_R (- s)) y)))
        (s_mul (s_of_R (- s))
           (s_add (s_mul (s_of_R (- g * c)) y) (s_mul (s_of_R (- s)) x))) = x.
Proof.
  intros Hg Hcs. rewrite !s_mul_R_add, !s_mul_R_mul.
  set (A := s_mul (s_of_R (g * c * (g * c))) x).
  set (B := s_mul (s_of_R (g * c * - s)) y).
  set (C := s_mul (s_of_R (- s * (- g * c))) y).
  set (D := s_mul (s_of_R (- s * - s)) x).
  transitivity (s_add (s_add A D) (s_add B C)).
  { rewrite (s_add_comm C D), <- (s_add_assoc A B), (s_add_assoc B D C).
    rewrite (s_add_comm B D), <- (s_add_assoc D B C), (s_add_assoc A D).
    done. }
  unfold A, B, C, D. rewrite !s_mul_R_plus.
  replace (g * c * (g * c) + - s * - s)%R with 1%R
    by (replace (g * c * (g * c))%R with ((g * g) * (c * c))%R by ring;
        rewrite Hg; lra).
  replace (g * c * - s + - s * (- g * c))%R with 0%R by ring.
  rewrite s_mul_R1, s_mul_R0. apply s_add_0_r.
Qed.

(** Two reflections about one axis are the identity. *)
Lemma reflected_twice theta n m (u : nat -> T) i :
  canonical_order n m -> i < length n ->
  reflected theta n m (reflected theta n m u) i = u i.
Proof.
  intros Hcan Hi. pose proof Hcan as [Hlen Hc].
  destruct (lookup_lt_is_Some_2 n i Hi) as [en Hen].
  destruct (lookup_lt_is_Some_2 m i ltac:(lia)) as [em Hem].
  destruct (Hc i en em Hen Hem) as (Hj1 & i' & Hj2 & Hen' & Hem').
  rewrite (reflected_canonical theta n m _ i en em) by done.
  destruct (decide (em = 0%Z)) as [Hz|Hnz].
  - rewrite (reflected_canonical theta n m _ i en em) by done.
    by rewrite decide_True.
  - cbv zeta. rewrite Hj2, Nat2Z.id.
    rewrite (reflected_canonical theta n m _ i en em) by done.
    rewrite (reflected_canonical theta n m _ i' en (- em)%Z) by done.
    rewrite !decide_False by lia. cbv zeta.
    rewrite Z.opp_involutive, Hj1, Hj2, !Nat2Z.id.
    rewrite Z.abs_opp, msign_opp by done.
    set (t := (2 * np_deg2rad theta * IZR (Z.abs em))%R).
    apply ref_pair_involution; [apply msign_sqr|].
    rewrite Rplus_comm. replace (sin t * sin t)%R with ((sin t)²)%R by done.
    replace (cos t * cos t)%R with ((cos t)²)%R by done. apply sin2_cos2.
Qed.

Lemma reflect_matrix_twice theta n m (X : matrix T) :
  canonical_order n m -> wf_matrix X -> ncols X = length n ->
  reflect_matrix theta n m (reflect_matrix theta n m X) = X.
Proof.
  intros Hcan Hwf Hc. rewrite (matrix_as_table X Hwf) at 2.
  unfold reflect_matrix. simpl. rewrite Hc.
  apply mk_matrix_ext. intros s i Hs Hi.
  rewrite <- (reflected_twice theta n m (entry X s) i) by done.
  apply reflected_ext. intros k Hk. by rewrite entry_mk_matrix.
Qed.

End RefAction.

Section RefStore.
Context `{Utils}.

Lemma reflect_buffer_wf theta n m b : wf_buffer (reflect_buffer theta n m b).
Proof. destruct b; apply mk_matrix_wf. Qed.

Lemma reflect_buffer_ncols theta n m b :
  buf_ncols (reflect_buffer theta n m b) = length n.
Proof. by destruct b. Qed.

Lemma reflect_buffer_twice theta n m b :
  canonical_order n m -> wf_buffer b -> buf_ncols b = length n ->
  reflect_buffer theta n m (reflect_buffer theta n m b) = b.
Proof.
  intros Hcan Hwf Hc. destruct b; simpl; f_equal;
    by apply reflect_matrix_twice.
Qed.

Lemma ref_spec (σ : store) (self : zmarray) (theta : R) :
  wf_zmarray σ self -> canonical_order (z_n self) (z_m self) ->
  ref self theta σ =
  Ok (ZM (fresh (dom σ)) Whole (z_N self) (z_n self) (z_m self) (z_alpha self),
      <[fresh (dom σ) :=
          reflect_buffer theta (z_n self) (z_m self) (zm_buffer σ self)]> σ).
Proof.
  intros (Hs & Hwf & Hc & Hn & Hm) Hcan.
  unfold ref. heap_unfold. rewrite construct_ref_matrix_canonical by done.
  fold (zm_buffer σ self).
  assert (Hap : buf_apply_left
            (mk_matrix (length (z_n self)) (length (z_n self))
               (ref_entry theta (z_n self) (z_m self))) (zm_buffer σ self) =
          Ok (reflect_buffer theta (z_n self) (z_m self) (zm_buffer σ self))).
  { destruct (zm_buffer σ self) as [X|X]; simpl in *;
      rewrite apply_left_table by lia; done. }
  rewrite Hap. rewrite lookup_total_insert_eq. simpl.
  rewrite reflect_buffer_ncols, Hn. done.
Qed.

(** Reflection is an involution.  For a well-formed moment array in the
    canonical order, [ref(theta)] applied twice returns an array with the
    receiver's entries and metadata (exactly, in real arithmetic). *)
Theorem ref_involution (σ : store) (self : zmarray) (theta : R) :
  wf_zmarray σ self -> canonical_order (z_n self) (z_m self) ->
  exists z1 σ1 z2 σ2,
    ref self theta σ = Ok (z1, σ1) /\
    ref z1 theta σ1 = Ok (z2, σ2) /\
    zm_buffer σ2 z2 = zm_buffer σ self /\
    z_N z2 = z_N self /\ z_n z2 = z_n self /\ z_m z2 = z_m self /\
    z_alpha z2 = z_alpha self.
Proof.
  intros Hwf Hcan.
  pose proof (ref_spec σ self theta Hwf Hcan) as H1.
  set (a1 := fresh (dom σ)) in *.
  set (b1 := reflect_buffer theta (z_n self) (z_m self) (zm_buffer σ self)) in *.
  set (z1 := ZM a1 Whole (z_N self) (z_n self) (z_m self) (z_alpha self)) in *.
  set (σ1 := <[a1 := b1]> σ) in *.
  assert (Hb1 : zm_buffer σ1 z1 = b1).
  { unfold zm_buffer, σ1. simpl. by rewrite lookup_total_insert_eq. }
  pose proof Hwf as (_ & Hwfb & Hc & Hn & Hm).
  assert (Hwf1 : wf_zmarray σ1 z1).
  { unfold wf_zmarray. rewrite Hb1. simpl. split; [|split; [|split]].
    - unfold σ1. rewrite lookup_insert_eq. by eexists.
    - apply reflect_buffer_wf.
    - unfold b1. by rewrite reflect_buffer_ncols.
    - done. }
  pose proof (ref_spec σ1 z1 theta Hwf1 Hcan) as H2.
  eexists _, _, _, _. split; [exact H1|]. split; [exact H2|].
  split; [|done].
  unfold zm_buffer at 1. simpl. rewrite lookup_total_insert_eq, Hb1.
  unfold b1. apply reflect_buffer_twice; [done|done|lia].
Qed.

End RefStore.

Lemma ref_involution_witness :
  let self := ZM 0 Whole 3 [0; 1; 1]%Z [0; -1; 1]%Z None in
  let σ : store := {[ 0 := FloatBuf (Mat 1 3 [[1; 2; 3]%R]) ]} in
  exists z1 σ1 z2 σ2,
    @ref example_utils self 30 σ = Ok (z1, σ1) /\
    @ref example_utils z1 30 σ1 = Ok (z2, σ2) /\
    zm_buffer σ2 z2 = FloatBuf (Mat 1 3 [[1; 2; 3]%R]).
Proof.
  intros self σ.
  destruct (@ref_involution example_utils σ self 30)
    as (z1 & σ1 & z2 & σ2 & H1 & H2 & Hb & _).
  - unfold wf_zmarray, zm_buffer. simpl. repeat split; try done.
    by repeat constructor.
  - split; [done|]. intros [|[|[|i]]] en em; simpl; intros [= <-] [= <-].
    + split; [done|]. by exists 0.
    + split; [done|]. by exists 2.
    + split; [done|]. by exists 1.
  - by exists z1, σ1, z2, σ2.
Defined.

(** ** Columns that the transformation matrices cannot address *)

Lemma for_enumerate_raises {A St} (body : nat -> A -> St -> result St)
    (Inv : St -> Prop) (err : pyerr) (l : list A) (k : nat) (x : A) :
  (forall i y s, Inv s ->
     match body i y s with Ok s' => Inv s' | Raise e => e = err end) ->
  l !! k = Some x ->
  forall i0 s0, Inv s0 ->
    (forall s, Inv s -> body (i0 + k) x s = Raise err) ->
    for_enumerate body i0 l s0 = Raise err.
Proof.
  intros Hbody. revert k. induction l as [|y l IH]; intros k Hk i0 s0 Hs0 Hfail;
    [done|].
  destruct k as [|k]; simpl in *.
  - injection Hk as ->. rewrite Nat.add_0_r in Hfail. by rewrite Hfail.
  - pose proof (Hbody i0 y s0 Hs0) as Hstep.
    destruct (body i0 y s0) as [s'|e]; cbn [rbind]; [|by subst].
    apply (IH k Hk (S i0) s' Hstep). intros s Hs.
    replace (S i0 + k) with (i0 + S k) by lia. by apply Hfail.
Qed.

Lemma setitem2_cases {T} (A : matrix T) i j v :
  match setitem2 A i j v with
  | Ok A' => nrows A' = nrows A /\ ncols A' = ncols A
  | Raise e => e = IndexError
  end.
Proof.
  unfold setitem2, norm_index. repeat case_decide; simpl; done.
Qed.

Lemma setitem2_bad_column {T} (A : matrix T) i j v :
  ~ (- Z.of_nat (ncols A) <= j < Z.of_nat (ncols A))%Z ->
  setitem2 A i j v = Raise IndexError.
Proof.
  intros Hj. unfold setitem2, norm_index.
  repeat case_decide; simpl; try done; lia.
Qed.

Section BadColumns.
Context `{Utils}.

Lemma transformation_matrices_bad_column n m theta alpha i en em :
  n !! i = Some en -> m !! i = Some em ->
  ~ (- Z.of_nat (length n) <= nm2j en em alpha < Z.of_nat (length n))%Z ->
  construct_rot_matrix n m theta alpha = Raise IndexError /\
  construct_ref_matrix n m theta alpha = Raise IndexError.
Proof.
  intros Hn Hm Hbad.
  assert (Hz : zip n m !! i = Some (en, em)) by (by apply lookup_zip_Some).
  set (Inv := fun M : matrix R => nrows M = length n /\ ncols M = length n).
  assert (Hset : forall (M : matrix R) i j v, Inv M ->
            match setitem2 M i j v with
            | Ok M' => Inv M' | Raise e => e = IndexError end).
  { intros M i' j v [Hr Hc]. pose proof (setitem2_cases M i' j v) as Hs.
    destruct (setitem2 M i' j v); [|done]. unfold Inv. lia. }
  assert (Hset2 : forall (M : matrix R) i j v j' v', Inv M ->
            match (let* M' := setitem2 M i j v in setitem2 M' i j' v') with
            | Ok M' => Inv M' | Raise e => e = IndexError end).
  { intros M i' j v j' v' HM. pose proof (Hset M i' j v HM) as Hs.
    destruct (setitem2 M i' j v) as [M'|]; cbn [rbind]; [|done].
    by apply Hset. }
  assert (Hbadset : forall (M : matrix R) v, Inv M ->
            setitem2 M (Z.of_nat (0 + i)) (nm2j en em alpha) v = Raise IndexError).
  { intros M v [Hr Hc]. apply setitem2_bad_column. by rewrite Hc. }
  split.
  - unfold construct_rot_matrix. cbv zeta.
    eapply (for_enumerate_raises _ Inv IndexError _ i (en, em)); try done.
    + intros i' [en' em'] M HM. cbn [fst snd].
      repeat case_decide; first [by apply Hset | by apply Hset2].
    + intros M HM. cbn [fst snd].
      repeat case_decide; rewrite Hbadset by done; done.
  - unfold construct_ref_matrix. cbv zeta.
    eapply (for_enumerate_raises _ Inv IndexError _ i (en, em)); try done.
    + intros i' [en' em'] M HM. cbn [fst snd].
      repeat case_decide; first [by apply Hset | by apply Hset2].
    + intros M HM. cbn [fst snd].
      repeat case_decide; rewrite Hbadset by done; done.
Qed.

(** [rot] and [ref] address the columns by [nm2j] (with [alpha = None]):
    when the linear index of some column lies outside the array, as it
    can after [select], both raise [IndexError]. *)
Theorem rot_ref_index_out_of_range (σ : store) (self : zmarray) (theta : R)
    (i : nat) (en em : Z) :
  z_n self !! i = Some en -> z_m self !! i = Some em ->
  ~ (- Z.of_nat (length (z_n self)) <= nm2j en em None
     < Z.of_nat (length (z_n self)))%Z ->
  rot self theta σ = Raise IndexError /\ ref self theta σ = Raise IndexError.
Proof.
  intros Hn Hm Hbad.
  destruct (transformation_matrices_bad_column (z_n self) (z_m self) theta None
              i en em Hn Hm Hbad) as [Hrot Href].
  unfold rot, ref. heap_unfold. by rewrite Hrot, Href.
Qed.

End BadColumns.

Lemma rot_ref_index_out_of_range_witness :
  let self := ZM 0 Whole 2 [1; 2]%Z [1; 2]%Z None in
  let σ : store := {[ 0 := FloatBuf (Mat 1 2 [[1; 2]%R]) ]} in
  @rot example_utils self 90 σ = Raise IndexError /\
  @ref example_utils self 90 σ = Raise IndexError.
Proof.
  intros self σ.
  apply (@rot_ref_index_out_of_range example_utils σ self 90 0 1 1);
    [reflexivity|reflexivity|].
  vm_compute. intros [_ Hlt]. discriminate.
Defined.

(** ** Normalisation *)











Section NormalizeProperties.
Context `{Utils}.




End NormalizeProperties.



(** ** The rotational-symmetry weights in closed form *)







(** ** The symmetry map *)

Lemma construct_rot_weight_matrix_length n_fold m :
  n_fold <> 1%Z ->
  exists a, construct_rot_weight_matrix n_fold m = Ok a /\ length a = length m.
Proof.
  intros Hn. unfold construct_rot_weight_matrix.
  destruct (Z.eqb_spec n_fold 1); [done|]. cbn [negb py_assert rbind].
  cbv zeta. rewrite rot_weight_loop by apply length_replicate.
  eexists. split; [done|].
  rewrite !length_fmap, length_zip_with, length_replicate. lia.
Qed.

Lemma maps_on_shape {T} `{Scalar T} (t : matrix T) (m : list Z)
    (a : list (list R)) (reshape : bool) :
  ncols t = length m -> length a = length m ->
  exists ss, maps_on t m a reshape = Ok ss /\
    length (data ss) = nrows t /\
    shape ss = if reshape && (Nat.sqrt (nrows t) * Nat.sqrt (nrows t) =? nrows t)
               then [Nat.sqrt (nrows t); Nat.sqrt (nrows t)]
               else [nrows t].
Proof.
  intros Hc Ha. unfold maps_on, map_cols_where.
  rewrite decide_True by (by rewrite length_fmap). cbn [rbind ncols nrows].
  rewrite decide_True by (by rewrite length_fmap). cbn [rbind ncols nrows].
  unfold dot. cbn [ncols nrows promote matrix_map].
  rewrite decide_True by lia. cbn [rbind nrows mk_matrix].
  rewrite !length_fmap, !length_seq.
  destruct (reshape && _); eexists; (split; [reflexivity|]); simpl;
    by rewrite length_fmap, length_seq.
Qed.

(** [maps] on a well-formed moment array, with [n_fold] other than one,
    always returns and allocates nothing: one value per sample, as a
    square map when [reshape] is set and the number of samples is a
    perfect square, as a vector otherwise. *)
Theorem maps_shape (σ : store) (self : zmarray) (n_fold : Z)
    (reshape : bool) :
  wf_zmarray σ self -> n_fold <> 1%Z ->
  let k := buf_nrows (zm_buffer σ self) in
  exists r, maps self n_fold reshape σ = Ok (r, σ) /\
    map_size r = k /\
    map_shape r = if reshape && (Nat.sqrt k * Nat.sqrt k =? k)
                  then [Nat.sqrt k; Nat.sqrt k] else [k].
Proof.
  intros (_ & _ & Hc & _ & Hm) Hn k.
  destruct (construct_rot_weight_matrix_length n_fold (z_m self) Hn)
    as (a & Ha & Hla).
  unfold maps. heap_unfold. rewrite Ha. fold (zm_buffer σ self).
  unfold k. destruct (zm_buffer σ self) as [X|X]; simpl in *.
  - destruct (maps_on_shape X (z_m self) a reshape) as (ss & -> & Hd & Hs);
      [lia|done|]. by eexists.
  - destruct (maps_on_shape X (z_m self) a reshape) as (ss & -> & Hd & Hs);
      [lia|done|]. by eexists.
Qed.

Lemma maps_shape_witness :
  let self := ZM 0 Whole 2 [2; 2]%Z [-2; 2]%Z None in
  let σ : store :=
    {[ 0 := FloatBuf (Mat 4 2 [[3; 4]; [1; 0]; [0; 2]; [1; 1]]%R) ]} in
  exists r, maps self 4 true σ = Ok (r, σ) /\
    map_size r = 4 /\ map_shape r = [2; 2].
Proof.
  intros self σ.
  apply (maps_shape σ self 4 true); [|done].
  unfold wf_zmarray, zm_buffer. simpl. repeat split; try done.
  by repeat constructor.
Defined.
(** ** The remaining methods: what they leave alone *)

Section MoreFrames.
Context `{Utils}.

Lemma preserved_trans (σ1 σ2 σ3 : store) :
  preserved σ1 σ2 -> preserved σ2 σ3 -> preserved σ1 σ3.
Proof.
  intros H12 H23 a Ha. rewrite <- (H12 a Ha). apply H23.
  by rewrite (H12 a Ha).
Qed.

Lemma zm_copy_preserves (σ σ' : store) self z' :
  zm_copy self σ = Ok (z', σ') -> preserved σ σ'.
Proof.
  intros Hop. unfold zm_copy in Hop. heap_inv. apply preserved_alloc.
Qed.

Lemma rot_curve_preserves (σ σ' : store) self thetas r :
  rot_curve self thetas σ = Ok (r, σ') -> σ' = σ.
Proof.
  intros Hop. unfold rot_curve in Hop. heap_inv; done.
Qed.

Lemma reconstruct_preserves (σ σ' : store) self zps_data r :
  reconstruct self zps_data σ = Ok (r, σ') -> σ' = σ.
Proof.
  intros Hop. unfold reconstruct in Hop. heap_inv; done.
Qed.

Lemma reflect_curve_preserves (σ σ' : store) self thetas tt :
  reflect_curve self thetas σ = Ok (tt, σ') -> preserved σ σ'.
Proof.
  intros Hop. unfold reflect_curve in Hop.
  apply hbind_inv in Hop as (t & σ1 & Ht & Hop).
  apply zm_copy_preserves in Ht.
  apply hbind_inv in Hop as (s & σ2 & Hs & Hop).
  apply select_preserves in Hs.
  apply hbind_inv in Hop as (nn & σ3 & Hnn & Hop).
  apply normalize_preserves in Hnn.
  apply hbind_inv in Hop as (c1 & σ4 & Hc1 & Hop).
  apply complex_preserves in Hc1.
  apply hbind_inv in Hop as (cb1 & ? & Hcb1 & Hop).
  apply read_inv in Hcb1 as [_ ->].
  apply hbind_inv in Hop as (c2 & σ5 & Hc2 & Hop).
  apply complex_preserves in Hc2.
  apply hbind_inv in Hop as (cb2 & ? & Hcb2 & Hop).
  apply read_inv in Hcb2 as [_ ->].
  apply hbind_inv in Hop as (k1 & ? & Hk1 & Hop). apply lift_inv in Hk1 as [_ ->].
  apply hbind_inv in Hop as (k2 & ? & Hk2 & Hop). apply lift_inv in Hk2 as [_ ->].
  apply hbind_inv in Hop as (k3 & ? & Hk3 & Hop). apply lift_inv in Hk3 as [_ ->].
  apply hbind_inv in Hop as (c3 & σ6 & Hc3 & Hop).
  apply complex_preserves in Hc3.
  apply hbind_inv in Hop as (k4 & ? & Hk4 & Hop). apply lift_inv in Hk4 as [_ ->].
  apply hbind_inv in Hop as (k5 & ? & Hk5 & Hop). apply lift_inv in Hk5 as [_ ->].
  apply hbind_inv in Hop as (k6 & ? & Hk6 & Hop). apply lift_inv in Hk6 as [_ ->].
  apply lift_inv in Hop as [_ ->].
  repeat (eapply preserved_trans; [eassumption|]). apply preserved_refl.
Qed.

Lemma reflect_map_preserves (σ σ' : store) self thetas reshape r :
  reflect_map self thetas reshape σ = Ok (r, σ') -> preserved σ σ'.
Proof.
  intros Hop. unfold reflect_map in Hop.
  apply hbind_inv in Hop as (tt & σ1 & Htt & Hop).
  apply reflect_curve_preserves in Htt.
  apply hbind_inv in Hop as (mx & ? & Hmx & Hop). apply lift_inv in Hmx as [_ ->].
  destruct (_ && _); injection Hop as <- <-; done.
Qed.

End MoreFrames.

(** [rot_curve], [reflect_curve], [reflect_map] and [reconstruct] never
    write to memory that exists: whenever one of them returns, every block
    of the store, the receiver's included, holds the entries it held
    ([rot_curve] and [reconstruct] leave the store as it is, the other two
    only allocate their intermediate arrays). *)
Theorem curve_methods_preserve_store `{Utils} (σ σ' : store) (self : zmarray) :
  (forall thetas r, rot_curve self thetas σ = Ok (r, σ') -> σ' = σ) /\
  (forall zps_data r, reconstruct self zps_data σ = Ok (r, σ') -> σ' = σ) /\
  (forall thetas tt,
     reflect_curve self thetas σ = Ok (tt, σ') -> preserved σ σ') /\
  (forall thetas reshape r,
     reflect_map self thetas reshape σ = Ok (r, σ') -> preserved σ σ').
Proof.
  split; [intros; by eapply rot_curve_preserves|].
  split; [intros; by eapply reconstruct_preserves|].
  split; [intros; by eapply reflect_curve_preserves|].
  intros; by eapply reflect_map_preserves.
Qed.

Lemma curve_methods_preserve_store_witness :
  let self := ZM 0 Whole 2 [1; 1]%Z [-1; 1]%Z None in
  let σ : store := {[ 0 := FloatBuf (Mat 1 2 [[3; 4]%R]) ]} in
  exists tt σ',
    @reflect_curve example_utils self (Some [0%R]) σ = Ok (tt, σ') /\
    preserved σ σ'.
Proof.
  intros self σ.
  destruct (@reflect_curve example_utils self (Some [0%R]) σ)
    as [[tt σ']|] eqn:E.
  - exists tt, σ'. split; [done|].
    destruct (@curve_methods_preserve_store example_utils σ σ' self)
      as (_ & _ & Hc & _).
    by eapply Hc.
  - exfalso. revert E. by vm_compute.
Defined.

(** ** [reflect_curve] *)

Lemma np_where_all_false i mask :
  Forall (fun b => b = false) mask -> where_from i mask = [].
Proof.
  intros Hall. revert i. induction Hall as [|b mask -> _ IH]; intros i; simpl; auto.
Qed.

Lemma states_mask_zero_m (m : list Z) (s : Z) :
  (s < 0)%Z -> Forall (fun em => em = 0%Z) m ->
  Forall (fun b => b = false) (states_mask m (StatesScalar s)).
Proof.
  intros Hs Hm. unfold states_mask, np_in1d.
  apply Forall_fmap, Forall_fmap, Forall_forall. intros em Hem.
  unfold compose. apply bool_decide_eq_false_2.
  rewrite get_m_states_neg by done.
  intros [Hne _]. apply Hne.
  rewrite Forall_forall in Hm. by rewrite (Hm em Hem).
Qed.

Section ReflectCurve.
Context `{Utils}.

Lemma zm_copy_spec (σ : store) (self : zmarray) :
  zm_copy self σ =
  Ok (ZM (fresh (dom σ)) Whole (z_N self) (z_n self) (z_m self) (z_alpha self),
      <[fresh (dom σ) := zm_buffer σ self]> σ).
Proof. done. Qed.

Lemma zm_copy_wf (σ : store) (self : zmarray) :
  wf_zmarray σ self ->
  wf_zmarray (<[fresh (dom σ) := zm_buffer σ self]> σ)
    (ZM (fresh (dom σ)) Whole (z_N self) (z_n self) (z_m self) (z_alpha self)) /\
  zm_buffer (<[fresh (dom σ) := zm_buffer σ self]> σ)
    (ZM (fresh (dom σ)) Whole (z_N self) (z_n self) (z_m self) (z_alpha self))
  = zm_buffer σ self.
Proof.
  intros (Hs & Hwf & Hc & Hn & Hm).
  assert (Hb : zm_buffer (<[fresh (dom σ) := zm_buffer σ self]> σ)
            (ZM (fresh (dom σ)) Whole (z_N self) (z_n self) (z_m self)
                (z_alpha self)) = zm_buffer σ self).
  { unfold zm_buffer at 1. simpl. by rewrite lookup_total_insert_eq. }
  split; [|done]. unfold wf_zmarray. rewrite Hb. simpl.
  split; [|done]. rewrite lookup_insert_eq. by eexists.
Qed.

(** [reflect_curve] needs a component with [m <> 0]: on a well-formed
    moment array all of whose [m] are zero, [select(-1)] keeps no column
    and the method raises [ValueError] (from [normalize] on a real array,
    from the reshape of the empty angle table on a complex one). *)
Theorem reflect_curve_needs_nonzero_m (σ : store) (self : zmarray)
    (thetas : option (list R)) :
  wf_zmarray σ self -> Forall (fun em => em = 0%Z) (z_m self) ->
  reflect_curve self thetas σ = Raise ValueError.
Proof.
  intros Hwf Hm0.
  destruct (zm_copy_wf σ self Hwf) as [Hwf1 Hb1].
  set (σ1 := <[fresh (dom σ) := zm_buffer σ self]> σ) in *.
  set (t := ZM (fresh (dom σ)) Whole (z_N self) (z_n self) (z_m self)
               (z_alpha self)) in *.
  pose proof (select_spec σ1 t (StatesScalar (-1)) Hwf1) as Hsel.
  cbv zeta in Hsel. rewrite Hb1 in Hsel.
  pose proof (states_mask_zero_m (z_m self) (-1) ltac:(lia) Hm0) as Hmask.
  change (z_m t) with (z_m self) in Hsel.
  change (z_n t) with (z_n self) in Hsel.
  rewrite !compress_all_false in Hsel by done.
  unfold np_where in Hsel. rewrite np_where_all_false in Hsel by done.
  unfold reflect_curve. unfold hbind at 1. rewrite zm_copy_spec.
  fold σ1. fold t. unfold hbind at 1. rewrite Hsel.
  set (a2 := fresh (dom σ1)).
  set (keep := states_mask (z_m self) (StatesScalar (-1))) in *.
  unfold hbind at 1, normalize at 1. unfold hbind at 1, read at 1.
  cbn [z_data z_view view_buffer]. rewrite lookup_total_insert_eq.
  destruct (zm_buffer σ self) as [X|X]; cbn [buf_compress_cols].
  - unfold hbind at 1, lift at 1, sk_normalize.
    rewrite bool_decide_eq_true_2 by (apply list_elem_of_In; simpl; tauto).
    cbn [negb compress_cols ncols nrows].
    unfold np_where. rewrite np_where_all_false by done. cbn [length].
    by rewrite orb_true_r.
  - cbn [hret]. unfold hbind at 1, complex at 1. unfold hbind at 1, read at 1.
    cbn [z_data z_view view_buffer]. rewrite lookup_total_insert_eq.
    cbn [hret]. unfold hbind at 1, read at 1.
    cbn [z_data z_view view_buffer]. rewrite lookup_total_insert_eq.
    unfold hbind at 1, complex at 1. unfold hbind at 1, read at 1.
    cbn [z_data z_view view_buffer]. rewrite lookup_total_insert_eq.
    cbn [hret]. unfold hbind at 1, read at 1.
    cbn [z_data z_view view_buffer]. rewrite lookup_total_insert_eq.
    unfold np_binop2, broadcast_dim.
    cbn [buf_re buf_im matrix_map nrows ncols compress_cols].
    rewrite !Nat.eqb_refl. cbn [rbind].
    unfold hbind at 1, lift at 1. unfold hbind at 1, lift at 1.
    unfold hbind at 1, lift at 1, np_hstack. cbn [nrows mk_matrix].
    rewrite decide_True by done.
    unfold hbind at 1, complex at 1. unfold hbind at 1, read at 1.
    cbn [z_data z_view view_buffer]. rewrite lookup_total_insert_eq.
    cbn [hret z_m]. done.
Qed.

End ReflectCurve.

Lemma reflect_curve_needs_nonzero_m_witness :
  let self := ZM 0 Whole 2 [0; 2]%Z [0; 0]%Z None in
  let σ : store := {[ 0 := FloatBuf (Mat 1 2 [[3; 4]%R]) ]} in
  @reflect_curve example_utils self None σ = Raise ValueError.
Proof.
  intros self σ.
  apply (@reflect_curve_needs_nonzero_m example_utils σ self None).
  - unfold wf_zmarray, zm_buffer. simpl. repeat split; try done.
    by repeat constructor.
  - by repeat constructor.
Defined.

Section ReflectCurveAlpha.
Context `{Utils}.

Lemma select_with_alpha (t : zmarray) (al : option R) st σ :
  select (with_alpha t al) st σ =
  match select t st σ with
  | Ok (s, σ') => Ok (with_alpha s al, σ')
  | Raise e => Raise e
  end.
Proof.
  unfold select. heap_unfold. simpl.
  destruct (buf_take_cols _ _); [|done].
  destruct (take_index (z_n t) _); [|done].
  destruct (take_index (z_m t) _); [|done]. done.
Qed.

Lemma select_keeps_dtype (t s : zmarray) st σ σ' X :
  zm_buffer σ t = FloatBuf X -> select t st σ = Ok (s, σ') ->
  exists X', zm_buffer σ' s = FloatBuf X'.
Proof.
  intros HX Hsel. unfold select in Hsel. heap_unfold.
  fold (zm_buffer σ t) in Hsel. rewrite HX in Hsel. simpl in Hsel.
  destruct (take_cols X _) as [X'|]; [|done]. simpl in Hsel.
  destruct (take_index (z_n t) _); [|done].
  destruct (take_index (z_m t) _); [|done].
  injection Hsel as <- <-. exists X'.
  unfold zm_buffer. simpl. by rewrite lookup_total_insert_eq.
Qed.

Lemma normalize_with_alpha (s : zmarray) (al : option R) norm σ X :
  zm_buffer σ s = FloatBuf X ->
  normalize (with_alpha s al) norm σ = normalize s norm σ.
Proof.
  intros HX. unfold normalize. heap_unfold. simpl.
  fold (zm_buffer σ s). by rewrite HX.
Qed.

(** On a real moment array [reflect_curve] does not look at [alpha]:
    [normalize] hands on an array without it, so the complex form is taken
    with the index functions at [alpha = None], and the result and the
    store are those of the same array with [alpha = None]. *)
Theorem reflect_curve_ignores_alpha (σ : store) (self : zmarray)
    (thetas : option (list R)) (al : option R) (X : matrix R) :
  zm_buffer σ self = FloatBuf X ->
  reflect_curve (with_alpha self al) thetas σ = reflect_curve self thetas σ.
Proof.
  intros HX. unfold reflect_curve.
  unfold hbind at 1. unfold hbind at 14. rewrite !zm_copy_spec.
  change (zm_buffer σ (with_alpha self al)) with (zm_buffer σ self).
  set (σ1 := <[fresh (dom σ) := zm_buffer σ self]> σ).
  set (t := ZM (fresh (dom σ)) Whole (z_N self) (z_n self) (z_m self)
               (z_alpha self)).
  change (ZM (fresh (dom σ)) Whole (z_N (with_alpha self al))
             (z_n (with_alpha self al)) (z_m (with_alpha self al))
             (z_alpha (with_alpha self al))) with (with_alpha t al).
  assert (Ht : zm_buffer σ1 t = FloatBuf X).
  { unfold zm_buffer, σ1, t. simpl. by rewrite lookup_total_insert_eq. }
  unfold hbind at 1. unfold hbind at 13. rewrite select_with_alpha.
  destruct (select t (StatesScalar (-1)) σ1) as [[s σ2]|] eqn:Hsel; [|done].
  destruct (select_keeps_dtype t s _ σ1 σ2 X Ht Hsel) as [X' HX'].
  unfold hbind at 1. unfold hbind at 12.
  by rewrite (normalize_with_alpha s al "l2" σ2 X' HX').
Qed.

End ReflectCurveAlpha.

Lemma reflect_curve_ignores_alpha_witness :
  let self := ZM 0 Whole 2 [1; 1]%Z [-1; 1]%Z None in
  let σ : store := {[ 0 := FloatBuf (Mat 1 2 [[3; 4]%R]) ]} in
  @reflect_curve example_utils (with_alpha self (Some 1%R)) (Some [0%R]) σ =
  @reflect_curve example_utils self (Some [0%R]) σ.
Proof.
  intros self σ.
  by apply (@reflect_curve_ignores_alpha example_utils σ self (Some [0%R])
              (Some 1%R) (Mat 1 2 [[3; 4]%R])).
Defined.

(** ** The symmetry map and the rotation curve *)

Lemma angle_table_spec (f : R -> R) (ms : list Z) (thetas : list R) :
  ms <> [] ->
  angle_table f ms thetas =
  Ok (Mat (length ms) (length thetas)
        ((fun m => (fun t => f (IZR m * t)%R) <$> thetas) <$> ms)).
Proof.
  intros Hne. unfold angle_table. cbv zeta. rewrite list_bind_concat.
  set (L := (fun m => (fun t => f (IZR m * t)%R) <$> thetas) <$> ms).
  assert (HLw : Forall (fun r => length r = length thetas) L).
  { unfold L. apply Forall_fmap, Forall_forall. intros m _. simpl.
    by rewrite length_fmap. }
  assert (HLl : length L = length ms) by (unfold L; by rewrite length_fmap).
  unfold reshape_rows. cbn [shape data numel foldr].
  rewrite (length_concat_uniform _ L HLw), HLl.
  destruct (Nat.eqb_spec (length ms) 0) as [H0|H0].
  { by destruct ms. }
  replace (length ms * length thetas * 1) with (length thetas * length ms) by lia.
  rewrite Nat.Div0.mod_mul, Nat.div_mul by done. cbn [Nat.eqb].
  by rewrite chunks_concat.
Qed.

Lemma maps_on_prefix {T} `{Scalar T} (t : matrix T) m a reshape :
  maps_on t m a reshape =
  let* t2 := normalized_squares t m in
  let* ss := dot t2 (promote (Mat (length a) 1 a)) in
  let ss := (fun i => entry ss i 0) <$> seq 0 (nrows ss) in
  let size := Nat.sqrt (length ss) in
  if reshape && (size * size =? length ss)
  then Ok (NdArray [size; size] ss)
  else Ok (NdArray [length ss] ss).
Proof.
  unfold maps_on, normalized_squares.
  destruct (map_cols_where _ _ t) as [t1|]; [|done]. cbn [rbind].
  destruct (map_cols_where _ _ t1) as [t2|]; [|done]. done.
Qed.

Lemma rot_curve_on_prefix {T} `{Scalar T} (t : matrix T) m thetas :
  rot_curve_on t m thetas =
  let* t2 := normalized_squares t m in
  let* cosmt := angle_table cos (Z.abs <$> m) thetas in
  dot t2 (promote cosmt).
Proof.
  unfold rot_curve_on, normalized_squares.
  destruct (map_cols_where _ _ t) as [t1|]; [|done]. cbn [rbind].
  destruct (map_cols_where _ _ t1) as [t2|]; [|done]. done.
Qed.

Lemma normalized_squares_ok {T} `{Scalar T} (t : matrix T) m :
  ncols t = length m ->
  exists t2, normalized_squares t m = Ok t2 /\
             nrows t2 = nrows t /\ ncols t2 = ncols t.
Proof.
  intros Hc. unfold normalized_squares, map_cols_where.
  rewrite decide_True by (by rewrite length_fmap). cbn [rbind ncols nrows].
  rewrite decide_True by (by rewrite length_fmap). cbn [rbind ncols nrows].
  by eexists.
Qed.

Lemma construct_rot_weight_matrix_average n_fold m :
  (2 <= n_fold)%Z ->
  construct_rot_weight_matrix n_fold m =
  Ok ((fun em => [average_cos_weight n_fold em]) <$> m).
Proof.
  intros Hn. unfold construct_rot_weight_matrix.
  destruct (Z.eqb_spec n_fold 1); [lia|]. cbn [negb py_assert rbind].
  cbv zeta. rewrite rot_weight_loop by apply length_replicate.
  f_equal. apply list_eq. intros i.
  rewrite !list_lookup_fmap, lookup_zip_with.
  destruct (m !! i) as [em|] eqn:Hm; simpl.
  - rewrite lookup_replicate_2 by (by eapply lookup_lt_Some). simpl.
    unfold average_cos_weight. do 3 f_equal. lra.
  - destruct (replicate _ _ !! i); done.
Qed.

Lemma rsum_exchange {A B} (f : A -> B -> R) (la : list A) (lb : list B) :
  rsum ((fun a => rsum (f a <$> lb)) <$> la) =
  rsum ((fun b => rsum ((fun a => f a b) <$> la)) <$> lb).
Proof.
  induction la as [|a la IH].
  - simpl. unfold rsum at 1. simpl.
    induction lb as [|b lb IHb]; [done|].
    rewrite fmap_cons. unfold rsum in *. cbn [foldr]. rewrite <- IHb. simpl. lra.
  - rewrite fmap_cons. unfold rsum at 1. cbn [foldr]. fold (rsum ((fun a0 => rsum (f a0 <$> lb)) <$> la)).
    rewrite IH. clear IH.
    induction lb as [|b lb IHb]; [unfold rsum; simpl; lra|].
    rewrite !fmap_cons. unfold rsum in *. cbn [foldr].
    rewrite <- IHb. lra.
Qed.

Lemma rsum_scale_gen {A} (c : R) (f : A -> R) (l : list A) :
  rsum ((fun x => c * f x)%R <$> l) = (c * rsum (f <$> l))%R.
Proof.
  unfold rsum. induction l as [|x l IH]; [simpl; lra|].
  rewrite !fmap_cons. cbn [foldr]. rewrite IH. lra.
Qed.

Lemma ssum_R (l : list R) : ssum l = rsum l.
Proof. done. Qed.

Lemma promote_R (A : matrix R) i j : entry (promote A) i j = entry A i j.
Proof.
  unfold entry, promote, matrix_map. simpl. rewrite list_lookup_fmap.
  destruct (rows A !! i) as [r|]; simpl; [|done].
  rewrite list_lookup_fmap. by destruct (r !! j).
Qed.

(** The [n_fold]-fold symmetry map is the mean of the rotation curve at
    the angles of the [n_fold]-fold rotations.  On a well-formed real
    moment array with at least one column, [maps(n_fold, reshape=False)]
    and [rot_curve] at [2 pi k / n_fold], [k = 1 .. n_fold - 1], both
    return, and the map's value for a sample is the sum of that sample's
    row of the curve divided by [n_fold - 1] (exactly, in real
    arithmetic). *)
Theorem maps_mean_of_rot_curve (σ : store) (self : zmarray) (n_fold : Z)
    (X : matrix R) :
  wf_zmarray σ self -> zm_buffer σ self = FloatBuf X ->
  1 <= z_N self -> (2 <= n_fold)%Z ->
  exists ss tt,
    maps self n_fold false σ = Ok (inl ss, σ) /\
    rot_curve self (Some (fold_angles n_fold)) σ = Ok (inl tt, σ) /\
    nrows tt = nrows X /\ ncols tt = Z.to_nat (n_fold - 1) /\
    shape ss = [nrows X] /\
    forall s row, rows tt !! s = Some row ->
      data ss !! s = Some (rsum row / IZR (n_fold - 1))%R.
Proof.
  intros (_ & _ & Hc & _ & Hm) HX HN Hn. rewrite HX in Hc. simpl in Hc.
  destruct (normalized_squares_ok X (z_m self) ltac:(lia))
    as (t2 & Ht2 & Hr2 & Hc2).
  assert (Hne : Z.abs <$> z_m self <> []).
  { destruct (z_m self); simpl in *; [lia|done]. }
  assert (Hlen : length (fold_angles n_fold) = Z.to_nat (n_fold - 1)).
  { unfold fold_angles, arange. by rewrite length_fmap, length_seqZ. }
  unfold maps, rot_curve. heap_unfold.
  rewrite construct_rot_weight_matrix_average by done.
  fold (zm_buffer σ self). rewrite HX.
  rewrite maps_on_prefix, rot_curve_on_prefix, Ht2. cbn [rbind].
  rewrite angle_table_spec by done. cbn [rbind].
  unfold dot. cbn [nrows ncols promote matrix_map].
  rewrite !length_fmap.
  rewrite !decide_True by lia. cbn [rbind andb nrows ncols mk_matrix].
  rewrite !length_fmap, !length_seq.
  eexists _, _. split; [reflexivity|]. split; [reflexivity|].
  cbn [nrows ncols shape data rows].
  split; [done|]. split; [done|]. split; [by rewrite Hr2|].
  intros s row Hrow.
  assert (Hs : s < nrows t2).
  { apply lookup_lt_Some in Hrow.
    by rewrite (proj1 (mk_matrix_wf _ _ _)) in Hrow. }
  rewrite mk_matrix_rows_lookup in Hrow by done. injection Hrow as <-.
  rewrite list_lookup_fmap, lookup_seq_lt by done.
  cbn [fmap option_fmap option_map]. f_equal.
  rewrite entry_mk_matrix by lia.
  set (L := Z.to_nat (n_fold - 1)) in *.
  set (D := IZR (n_fold - 1)).
  set (g := fun (k c : nat) =>
              cos (IZR (Z.abs (default 0%Z (z_m self !! k)))
                   * (2 * PI / IZR n_fold * IZR (Z.of_nat c + 1)))).
  assert (HD : (0 < D)%R) by (apply IZR_lt; lia).
  assert (HNf : (0 < IZR n_fold)%R) by (apply IZR_lt; lia).
  assert (Hang : forall c, c < L ->
            fold_angles n_fold !! c =
            Some (2 * PI / IZR n_fold * IZR (Z.of_nat c + 1))%R).
  { intros c Hc'. unfold fold_angles, arange.
    rewrite list_lookup_fmap, lookup_seqZ_lt by lia. simpl.
    do 3 f_equal. lia. }
  assert (HA : forall k, k < ncols t2 ->
            entry (promote (Mat (length (z_m self)) 1
                     ((fun em => [average_cos_weight n_fold em]) <$> z_m self))) k 0 =
            (rsum (g k <$> seq 0 L) / D)%R).
  { intros k Hk. rewrite promote_R. unfold entry. simpl.
    rewrite list_lookup_fmap.
    destruct (lookup_lt_is_Some_2 (z_m self) k ltac:(lia)) as [em Hem].
    rewrite Hem. simpl. unfold average_cos_weight, arange, seqZ. fold D. fold L.
    rewrite <- list_fmap_compose. do 2 f_equal.
    apply list_fmap_ext. intros ? c _. unfold g, compose. rewrite Hem. simpl.
    f_equal. field. lra. }
  assert (HC : forall k c, k < ncols t2 -> c < L ->
            entry (promote (Mat (length (z_m self)) L
                     ((fun m => (fun t => cos (IZR m * t)) <$> fold_angles n_fold)
                        <$> (Z.abs <$> z_m self)))) k c = g k c).
  { intros k c Hk Hc'. rewrite promote_R. unfold entry. simpl.
    rewrite !list_lookup_fmap.
    destruct (lookup_lt_is_Some_2 (z_m self) k ltac:(lia)) as [em Hem].
    rewrite Hem. simpl. rewrite list_lookup_fmap, (Hang c Hc'). simpl.
    unfold g. by rewrite Hem. }
  rewrite ssum_R.
  transitivity (rsum ((fun k => rsum ((fun c => / D * (entry t2 s k * g k c))%R
                                        <$> seq 0 L)) <$> seq 0 (ncols t2))).
  { f_equal. apply list_fmap_ext. intros ? k Hk%lookup_seq.
    rewrite HA by lia. simpl.
    rewrite (rsum_scale_gen (/ D) (fun c => entry t2 s k * g k c)%R).
    rewrite (rsum_scale_gen (entry t2 s k) (g k)). unfold Rdiv. ring. }
  rewrite (rsum_exchange (fun k c => (/ D * (entry t2 s k * g k c))%R)).
  rewrite Hlen. fold L.
  transitivity (rsum ((fun c => / D * rsum ((fun k => entry t2 s k * g k c)%R
                                             <$> seq 0 (ncols t2)))%R
                        <$> seq 0 L)).
  { f_equal. apply list_fmap_ext. intros ? c _.
    by rewrite (rsum_scale_gen (/ D) (fun k => entry t2 s k * g k c)%R). }
  rewrite (rsum_scale_gen (/ D)
             (fun c => rsum ((fun k => entry t2 s k * g k c)%R <$> seq 0 (ncols t2)))).
  unfold Rdiv. rewrite Rmult_comm. do 2 f_equal.
  apply list_fmap_ext. intros ? c Hc'%lookup_seq.
  change (ssum ?l) with (rsum l). f_equal.
  apply list_fmap_ext. intros ? k Hk%lookup_seq. cbv beta.
  rewrite HC by lia. done.
Qed.

Lemma maps_mean_of_rot_curve_witness :
  let self := ZM 0 Whole 2 [2; 2]%Z [-2; 2]%Z None in
  let σ : store := {[ 0 := FloatBuf (Mat 1 2 [[3; 4]%R]) ]} in
  exists ss tt,
    maps self 4 false σ = Ok (inl ss, σ) /\
    rot_curve self (Some (fold_angles 4)) σ = Ok (inl tt, σ) /\
    nrows tt = 1 /\ ncols tt = 3 /\ shape ss = [1] /\
    forall s row, rows tt !! s = Some row ->
      data ss !! s = Some (rsum row / IZR (4 - 1))%R.
Proof.
  intros self σ.
  apply (maps_mean_of_rot_curve σ self 4 (Mat 1 2 [[3; 4]%R])); try done.
  - unfold wf_zmarray, zm_buffer. simpl. repeat split; try done.
    by repeat constructor.
  - simpl. lia.
Defined.

(** ** Reconstruction *)

Lemma chunks_lookup {T} c r (l : list T) j :
  j < r -> chunks c r l !! j = Some (take c (drop (j * c) l)).
Proof.
  revert l j. induction r as [|r IH]; intros l j Hj; [lia|].
  destruct j as [|j]; simpl; [done|].
  rewrite IH by lia. by rewrite drop_drop.
Qed.

Lemma chunks_entry c r (l : list R) j p :
  j < r -> p < c ->
  entry (Mat r c (chunks c r l)) j p = default 0%R (l !! (j * c + p)).
Proof.
  intros Hj Hp. unfold entry. simpl. rewrite chunks_lookup by done. simpl.
  by rewrite lookup_take_lt, lookup_drop by done.
Qed.

(** [reconstruct] combines the basis images linearly.  For a real moment
    array with as many columns as [zps_data] has images, the result has
    one image per sample, each pixel being the sum over the polynomials of
    the sample's moment times the basis image's pixel; with another
    number of columns the product fails with [ValueError].  Nothing is
    allocated. *)
Theorem reconstruct_linear_combination (σ : store) (self : zmarray)
    (zps_data : ndarray R) (X : matrix R) (k h w : nat) :
  zm_buffer σ self = FloatBuf X ->
  shape zps_data = [k; h; w] -> 1 <= k ->
  (ncols X = k ->
   reconstruct self zps_data σ =
   Ok (inl (NdArray [nrows X; h; w]
              (concat ((fun s =>
                 (fun p => rsum ((fun j =>
                    (entry X s j * default 0 (data zps_data !! (j * (h * w) + p)%nat))%R)
                    <$> seq 0 k))
                 <$> seq 0 (h * w)) <$> seq 0 (nrows X)))), σ)) /\
  (ncols X <> k -> reconstruct self zps_data σ = Raise ValueError).
Proof.
  intros HX Hsh Hk.
  assert (Hresh : reshape_rows zps_data k =
                  Ok (Mat k (h * w) (chunks (h * w) k (data zps_data)))).
  { unfold reshape_rows. rewrite Hsh. simpl.
    destruct (Nat.eqb_spec k 0); [lia|].
    replace (k * (h * (w * 1))) with ((h * w) * k) by lia.
    rewrite Nat.Div0.mod_mul, Nat.div_mul by lia. done. }
  unfold reconstruct. heap_unfold. unfold getitem. rewrite Hsh. simpl.
  rewrite Hresh. fold (zm_buffer σ self). rewrite HX. simpl.
  split; intros Hc.
  - unfold dot. simpl. rewrite decide_True by done.
    unfold np_reshape. simpl. rewrite !Nat2Z.id.
    assert (Hpos : (0 <=? Z.of_nat (nrows X))%Z &&
                   ((0 <=? Z.of_nat h)%Z && ((0 <=? Z.of_nat w)%Z && true)) = true).
    { rewrite !andb_true_iff. repeat split; try done; apply Z.leb_le; lia. }
    rewrite Hpos.
    destruct (Nat.eqb_spec (nrows X * (h * (w * 1))) (nrows X * (h * w * 1)));
      [|lia].
    do 5 f_equal.
    apply list_fmap_ext. intros ? s _. simpl.
    apply list_fmap_ext. intros ? p Hp%lookup_seq. simpl.
    rewrite Hc. change (ssum ?l) with (rsum l). f_equal.
    apply list_fmap_ext. intros ? j Hj%lookup_seq. simpl.
    by rewrite chunks_entry by lia.
  - unfold dot. simpl. by rewrite decide_False.
Qed.

Lemma reconstruct_linear_combination_witness :
  let self := ZM 0 Whole 1 [0]%Z [0]%Z None in
  let σ : store := {[ 0 := FloatBuf (Mat 2 1 [[3]; [4]]%R) ]} in
  let zps_data := NdArray [1; 1; 2] [1; 2]%R in
  exists r, reconstruct self zps_data σ = Ok (inl r, σ) /\
            shape r = [2; 1; 2].
Proof.
  intros self σ zps_data.
  destruct (reconstruct_linear_combination σ self zps_data
              (Mat 2 1 [[3]; [4]]%R) 1 1 2 eq_refl eq_refl (le_n 1))
    as [Hok _].
  eexists. split; [by apply Hok|done].
Defined.

(** ** [fit_transform] and the functional form *)

Section FitTransform.
Context `{Utils} `{Kernels}.

Lemma check_array_inv (X Y : ndarray R) : check_array X = Ok Y -> Y = X.
Proof.
  unfold check_array. destruct (shape X) as [|k [|a rest]]; [done|done|].
  destruct (k =? 0); [done|]. destruct rest as [|b rest].
  - destruct (a =? 0); [done|]. by intros [= <-].
  - by intros [= <-].
Qed.

Lemma fit_3d_inv (self : ZPs) (X : ndarray R) (method : string) σ r k a b :
  shape X = [k; a; b] ->
  fit self X method σ = Ok r -> fit_method self X method σ = Ok r.
Proof.
  intros HX. unfold fit. destruct r as [self' σ']. intros Hfit.
  apply hbind_inv in Hfit as (X1 & ? & HX1 & Hfit).
  apply lift_inv in HX1 as [HX1 ->]. apply check_array_inv in HX1 as ->.
  apply hbind_inv in Hfit as ([X' method'] & ? & HXm & Hfit).
  apply lift_inv in HXm as [HXm ->]. unfold ndim in HXm.
  rewrite HX in HXm. simpl in HXm. by injection HXm as <- <-.
Qed.

Lemma fit_2d_grid_inv (self : ZPs) (X : ndarray R) (method : string) σ r
    size w :
  shape X = [size; w] -> shape (zps_data self) !! 1 = Some size ->
  fit self X method σ = Ok r ->
  fit_method self (NdArray (1 :: shape X) (data X)) method σ = Ok r.
Proof.
  intros HX Hd. unfold fit. destruct r as [self' σ']. intros Hfit.
  apply hbind_inv in Hfit as (X1 & ? & HX1 & Hfit).
  apply lift_inv in HX1 as [HX1 ->]. apply check_array_inv in HX1 as ->.
  apply hbind_inv in Hfit as ([X' method'] & ? & HXm & Hfit).
  apply lift_inv in HXm as [HXm ->]. unfold ndim, getitem in HXm.
  rewrite HX, Hd in HXm. simpl in HXm. rewrite Nat.eqb_refl in HXm.
  injection HXm as <- <-. by rewrite HX.
Qed.

Lemma fit_method_matrix_rows (self self' : ZPs) (X : ndarray R) σ σ' k :
  getitem (shape X) 0 = Ok k ->
  fit_method self X "matrix" σ = Ok (self', σ') ->
  exists z, zps_moments self' = Some z /\
            buf_nrows (zm_buffer σ' z) = k.
Proof.
  intros Hk Hfit. unfold fit_method in Hfit.
  apply hbind_inv in Hfit as (k' & ? & Hk' & Hfit). cbv beta zeta in Hfit.
  apply lift_inv in Hk' as [Hk' ->]. rewrite Hk in Hk'. injection Hk' as <-.
  simpl in Hfit. heap_inv.
  repeat match goal with
         | E : reshape_rows _ _ = Ok _ |- _ =>
             apply reshape_rows_inv in E as (? & ? & ? & ?)
         | E : dot _ _ = Ok _ |- _ => apply dot_inv in E as (? & ? & ? & ?)
         end.
  rewrite store_moments_spec in Hfit. injection Hfit as <- <-.
  eexists. split; [done|]. unfold zm_buffer. simpl.
  rewrite lookup_total_insert_eq. simpl in *. lia.
Qed.

Lemma fit_sets_moments (self self' : ZPs) (X : ndarray R) σ σ' :
  fit self X "matrix" σ = Ok (self', σ') -> is_Some (zps_moments self').
Proof.
  intros Hfit. apply fit_inv in Hfit as (X' & [Hfit|Hfit]);
    unfold fit_method in Hfit;
    apply hbind_inv in Hfit as (k' & ? & Hk' & Hfit); cbv beta zeta in Hfit;
    apply lift_inv in Hk' as [Hk' ->]; simpl in Hfit; heap_inv;
    rewrite store_moments_spec in Hfit; injection Hfit as <- <-; by eexists.
Qed.

(** What [fit_transform] returns.  When it returns, the extractor's
    [moments] are set and the result is a view of them: the first row when
    the moment array has one row, the whole array otherwise.  A stack of
    [k] images gives [k] rows, and a single two-dimensional image of the
    grid size gives one row, hence the first-row view. *)
Theorem fit_transform_result (self self' : ZPs) (X : ndarray R)
    (σ σ' : store) (r : zm_view) :
  fit_transform self X σ = Ok ((self', r), σ') ->
  exists z, zps_moments self' = Some z /\
    (r = if buf_nrows (zm_buffer σ' z) =? 1 then RowOf z 0 else AllOf z) /\
    (forall k a b, shape X = [k; a; b] -> buf_nrows (zm_buffer σ' z) = k) /\
    (forall size w, shape X = [size; w] ->
       shape (zps_data self) !! 1 = Some size -> r = RowOf z 0).
Proof.
  intros Hft. unfold fit_transform in Hft.
  apply hbind_inv in Hft as (self1 & σ1 & Hfit & Hft).
  destruct (zps_moments self1) as [z|] eqn:Hz; [|done].
  apply hbind_inv in Hft as (b & ? & Hb & Hft).
  apply read_inv in Hb as [-> ->].
  fold (zm_buffer σ1 z) in Hft.
  assert (Hres : self' = self1 /\ σ' = σ1 /\
            r = if buf_nrows (zm_buffer σ1 z) =? 1 then RowOf z 0 else AllOf z).
  { destruct (buf_nrows (zm_buffer σ1 z) =? 1); by injection Hft as <- <- <-. }
  destruct Hres as (-> & -> & Hr). exists z. split; [done|]. split; [done|].
  split.
  - intros k a b HX. apply (fit_3d_inv _ _ _ _ _ k a b HX) in Hfit.
    destruct (fit_method_matrix_rows self self1 X σ σ1 k) as (z' & Hz' & Hk);
      [unfold getitem; by rewrite HX|done|].
    rewrite Hz in Hz'. by injection Hz' as <-.
  - intros size w HX Hd. apply (fit_2d_grid_inv _ _ _ _ _ size w HX Hd) in Hfit.
    destruct (fit_method_matrix_rows self self1
                (NdArray (1 :: shape X) (data X)) σ σ1 1 eq_refl Hfit)
      as (z' & Hz' & Hk).
    rewrite Hz in Hz'. injection Hz' as <-. by rewrite Hr, Hk.
Qed.

End FitTransform.

Lemma fit_transform_result_witness :
  let X := NdArray [2; 2] [1; 2; 3; 4]%R in
  exists self' z σ',
    @fit_transform example_utils scalar_kernels example_zps X ∅ =
      Ok ((self', RowOf z 0), σ') /\
    zps_moments self' = Some z.
Proof.
  intros X.
  destruct (@fit_transform example_utils scalar_kernels example_zps X ∅)
    as [[[self' r] σ']|] eqn:E.
  - destruct (@fit_transform_result example_utils scalar_kernels example_zps
                self' X ∅ σ' r E) as (z & Hz & _ & _ & Hrow).
    rewrite (Hrow 2 2 eq_refl eq_refl). by exists self', z, σ'.
  - exfalso. revert E. by vm_compute.
Defined.

Section FunctionalForm.
Context `{Utils} `{Kernels}.

Lemma moments_slice (n_max size : Z) (alpha : option R) (ps : ndarray R)
    (n_components : Z) (σ σ' : store) (zps0 zps1 : ZPs) (v : zm_view) :
  ZPs_init n_max size alpha StatesNone = Ok zps0 ->
  fit zps0 ps "matrix" σ = Ok (zps1, σ') ->
  match zps_moments zps1 with
  | Some moments =>
      let! b := read (z_data moments) (z_view moments) in
      hret (ColsOf moments (slice_stop (buf_ncols b) n_components))
  | None => lift (Raise TypeError)
  end σ' = Ok (v, σ') ->
  exists z, wf_zmarray σ' z /\
    v = ColsOf z (slice_stop (z_N z) n_components) /\
    length (view_n v) = z_N z /\ length (view_m v) = z_N z /\
    view_alpha v = alpha.
Proof.
  intros Hinit Hfit Hv.
  pose proof (ZPs_init_configured _ _ _ _ _ Hinit) as Hconf.
  assert (Hal : zps_alpha zps0 = alpha).
  { unfold ZPs_init in Hinit. cbv zeta in Hinit.
    destruct (take_index _ _); [|done]. cbn [rbind] in Hinit.
    destruct (take_index _ _); [|done]. cbn [rbind] in Hinit.
    destruct (generate_data_from_nm _ _ _ _ _); [|done].
    by injection Hinit as <-. }
  assert (exists z, zps_moments zps1 = Some z /\ wf_zmarray σ' z /\
            z_n z = zps_n zps0 /\ z_m z = zps_m zps0 /\
            z_alpha z = zps_alpha zps0 /\ z_N z = zps_n_components_ zps0)
    as (z & Hz & Hwf & Hn & Hm & Ha & HN).
  { apply fit_inv in Hfit as (X' & [Hfit|Hfit]);
      (eapply fit_method_moments; [exact Hconf| |exact Hfit]);
      apply list_elem_of_In; simpl; tauto. }
  rewrite Hz in Hv. heap_unfold. injection Hv as <-.
  exists z. split; [done|].
  destruct Hwf as (_ & _ & Hc & Hln & Hlm).
  fold (zm_buffer σ' z). rewrite Hc.
  repeat split; try done. unfold view_alpha. simpl. by rewrite Ha.
Qed.

(** The functional forms return a view that keeps all the metadata.
    When [ps_zps] or [ps_pzp] returns, the result is the slice
    [moments[:, 0:n_components]] of a well-formed moment array with [N]
    columns: it has [min(N, n_components)] columns (counted from the end
    for a negative [n_components]), while its [n] and [m] are those of the
    whole array, with [N] entries each. *)
Theorem functional_form_keeps_all_metadata (ps : ndarray R)
    (n_components : Z) :
  (forall σ v σ', ps_zps ps n_components σ = Ok (v, σ') ->
     exists z, wf_zmarray σ' z /\
       v = ColsOf z (slice_stop (z_N z) n_components) /\
       length (view_n v) = z_N z /\ length (view_m v) = z_N z /\
       view_alpha v = None) /\
  (forall alpha σ v σ', ps_pzp ps n_components alpha σ = Ok (v, σ') ->
     exists z, wf_zmarray σ' z /\
       v = ColsOf z (slice_stop (z_N z) n_components) /\
       length (view_n v) = z_N z /\ length (view_m v) = z_N z /\
       view_alpha v = Some alpha).
Proof.
  split.
  - intros σ v σ' Hps. unfold ps_zps in Hps. cbv zeta in Hps.
    apply hbind_inv in Hps as (size & ? & Hsize & Hps).
    apply lift_inv in Hsize as [_ ->].
    apply hbind_inv in Hps as (zps0 & ? & Hinit & Hps).
    apply lift_inv in Hinit as [Hinit ->].
    apply hbind_inv in Hps as (zps1 & σ1 & Hfit & Hps).
    assert (σ' = σ1) as ->.
    { destruct (zps_moments zps1); [|done]. heap_unfold. by injection Hps. }
    by eapply moments_slice.
  - intros alpha σ v σ' Hps. unfold ps_pzp in Hps. cbv zeta in Hps.
    apply hbind_inv in Hps as (size & ? & Hsize & Hps).
    apply lift_inv in Hsize as [_ ->].
    apply hbind_inv in Hps as (zps0 & ? & Hinit & Hps).
    apply lift_inv in Hinit as [Hinit ->].
    apply hbind_inv in Hps as (zps1 & σ1 & Hfit & Hps).
    assert (σ' = σ1) as ->.
    { destruct (zps_moments zps1); [|done]. heap_unfold. by injection Hps. }
    by eapply moments_slice.
Qed.

End FunctionalForm.

Lemma functional_form_keeps_all_metadata_witness :
  let ps := NdArray [1; 2; 2] [1; 2; 3; 4]%R in
  exists v σ' z,
    @ps_zps example_utils scalar_kernels ps 1 ∅ = Ok (v, σ') /\
    wf_zmarray σ' z /\ v = ColsOf z (slice_stop (z_N z) 1).
Proof.
  intros ps.
  destruct (@ps_zps example_utils scalar_kernels ps 1 ∅) as [[v σ']|] eqn:E.
  - destruct (@functional_form_keeps_all_metadata example_utils scalar_kernels
                ps 1) as [Hzps _].
    destruct (Hzps ∅ v σ' E) as (z & Hwf & Hv & _).
    by exists v, σ', z.
  - exfalso. revert E. by vm_compute.
Defined.

(** ** The basis images *)

Lemma lookup_concat_uniform {A} c (ls : list (list A)) i p :
  Forall (fun r => length r = c) ls -> p < c ->
  concat ls !! (i * c + p) = ls !! i ≫= (fun r => r !! p).
Proof.
  intros HF Hp. revert i. induction HF as [|r ls Hr _ IH]; intros i.
  - by rewrite !lookup_nil.
  - destruct i as [|i]; simpl.
    + by rewrite lookup_app_l by lia.
    + rewrite lookup_app_r by lia. rewrite <- IH. f_equal. lia.
Qed.

Section BasisImages.
Context `{Utils}.

Lemma get_Rn_matrix_spec (n : list Z) (size n_max : Z) (s : nat) (rd : list R) :
  np_max n = Ok n_max -> (0 <= n_max)%Z ->
  size = Z.of_nat s -> 1 <= s ->
  (grid_rt size).1 = NdArray [s; s] rd -> length rd = s * s ->
  exists Rn, get_Rn_matrix n size None = Ok Rn /\
    nrows Rn = Z.to_nat (n_max + 1) /\ ncols Rn = s * s /\
    forall j p x, j < Z.to_nat (n_max + 1) -> rd !! p = Some x ->
      entry Rn j p =
      if decide (j = Z.to_nat n_max) then (disk_value s p x * 1)%R
      else (x ^ (Z.to_nat n_max - j) * 1)%R.
Proof.
  intros Hmax Hpos -> Hs Hr Hlen.
  unfold get_Rn_matrix. rewrite Hmax. cbn [rbind]. rewrite Hr.
  cbn [shape nd_map data].
  set (c := Z.to_nat (Z.of_nat s `div` 2)).
  assert (Hc : norm_index s (Z.of_nat s `div` 2) = Ok c).
  { unfold norm_index. rewrite decide_True; [done|].
    split; [apply Z.div_pos; lia|]. apply Z.div_lt_upper_bound; lia. }
  rewrite Hc. cbn [rbind shape data].
  destruct (Z.leb_spec (n_max + 1) 0); [lia|].
  set (disk := <[c * s + c := 1%R]> ((fun x => if Rlt_dec 0 x then 1%R else 0%R) <$> rd)).
  set (Rn := ((fun i => zip_with (fun x w => (x ^ Z.to_nat i * w)%R) rd
                          ((fun _ => 1%R) <$> rd))
                <$> reverse (arange 1 (n_max + 1)))
             ++ [zip_with Rmult disk ((fun _ => 1%R) <$> rd)]).
  assert (HRl : length Rn = Z.to_nat (n_max + 1)).
  { unfold Rn, arange. rewrite length_app, length_fmap, length_reverse, length_seqZ.
    simpl. lia. }
  assert (Hdl : length disk = s * s).
  { unfold disk. by rewrite length_insert, length_fmap. }
  assert (HRw : Forall (fun r => length r = s * s) Rn).
  { unfold Rn. apply Forall_app. split.
    - apply Forall_fmap, Forall_forall. intros i _. simpl.
      rewrite length_zip_with, length_fmap. lia.
    - constructor; [|constructor]. rewrite length_zip_with, length_fmap. lia. }
  unfold reshape_rows. cbn [shape data numel foldr]. rewrite HRl.
  destruct (Nat.eqb_spec (Z.to_nat (n_max + 1)) 0); [lia|].
  replace (Z.to_nat (n_max + 1) * (s * (s * 1)))
    with ((s * s) * Z.to_nat (n_max + 1)) by lia.
  rewrite Nat.Div0.mod_mul, Nat.div_mul by lia. cbn [Nat.eqb].
  rewrite chunks_concat by done.
  eexists. split; [reflexivity|]. split; [done|]. split; [done|].
  intros j p x Hj Hx. unfold entry. cbn [rows]. unfold Rn.
  case_decide as Hjn.
  - rewrite lookup_app_r by (unfold arange; rewrite length_fmap, length_reverse, length_seqZ; lia).
    unfold arange. rewrite length_fmap, length_reverse, length_seqZ.
    replace (j - Z.to_nat (n_max + 1 - 1)) with 0 by lia. simpl.
    rewrite lookup_zip_with, list_lookup_fmap, Hx. simpl.
    unfold disk, disk_value. fold c.
    destruct (decide (p = c * s + c)) as [->|Hne].
    + rewrite list_lookup_insert_eq by (rewrite length_fmap; by eapply lookup_lt_Some).
      done.
    + rewrite list_lookup_insert_ne by done.
      rewrite list_lookup_fmap, Hx. done.
  - rewrite lookup_app_l by (unfold arange; rewrite length_fmap, length_reverse, length_seqZ; lia).
    rewrite list_lookup_fmap.
    assert (Hrev : reverse (arange 1 (n_max + 1)) !! j =
                   Some (n_max - Z.of_nat j)%Z).
    { unfold arange. rewrite reverse_lookup by (rewrite length_seqZ; lia).
      rewrite length_seqZ. rewrite lookup_seqZ_lt by lia. f_equal. lia. }
    rewrite Hrev. simpl. rewrite lookup_zip_with, list_lookup_fmap, Hx. simpl.
    do 2 f_equal. lia.
Qed.


(** The basis images factor: the image of [(n, m)] at a pixel is the value
    of the radial polynomial with the coefficients of [zp_get_coeffs] at the
    pixel's radius, times the cosine (for [0 <= m]) or sine (for [m < 0])
    of [|m|] times the pixel's angle.  The constant term of the polynomial
    counts only where the radius is positive, and at the centre pixel. *)
Theorem basis_images_factor (n m : list Z) (size n_max : Z) (s : nat)
    (rd td : list R) :
  valid_nm n m -> np_max n = Ok n_max ->
  size = Z.of_nat s -> 1 <= s ->
  grid_rt size = (NdArray [s; s] rd, NdArray [s; s] td) ->
  length rd = s * s -> length td = s * s ->
  exists c d, zp_get_coeffs n m true = Ok c /\
    generate_data_from_nm n m size None true = Ok d /\
    shape d = [length n; s; s] /\
    length (data d) = length n * (s * s) /\
    forall i p row em x t,
      c !! i = Some row -> m !! i = Some em ->
      rd !! p = Some x -> td !! p = Some t ->
      data d !! (i * (s * s) + p)
      = Some (radial_value row x (disk_value s p x) * angular_value em t)%R.
Proof.
  intros Hv Hmax Hsize Hs Hgrid Hrl Htl.
  pose proof Hv as [Hne HF].
  pose proof (Forall2_length _ _ _ HF) as Hnm.
  assert (Hpos : (0 <= n_max)%Z).
  { destruct n as [|n0 n']; [done|].
    destruct m as [|m0 m']; [done|].
    apply Forall2_cons in HF as [[H0 _] _].
    assert (n0 <= n_max)%Z by (eapply np_max_ge; [done|by left]). lia. }
  destruct (zp_get_coeffs_valid n m true n_max Hv Hmax) as (c & Hc & Hcl & Hrows).
  assert (Hcw : Forall (fun r => length r = Z.to_nat (n_max + 1)) c).
  { apply Forall_forall. intros r (i & Hi)%list_elem_of_lookup.
    assert (i < length n) as Hin by (rewrite <- Hcl; by eapply lookup_lt_Some).
    destruct (lookup_lt_is_Some_2 n i Hin) as [ni Hni].
    destruct (lookup_lt_is_Some_2 m i ltac:(lia)) as [mi Hmi].
    rewrite (Hrows i ni mi Hni Hmi) in Hi. injection Hi as <-.
    rewrite length_fmap. apply zp_row_length.
    destruct (Forall2_lookup_lr _ _ _ _ _ _ HF Hni Hmi) as [? _].
    split; [lia|]. eapply np_max_ge; [done|]. by eapply list_elem_of_lookup_2. }
  destruct (get_Rn_matrix_spec n size n_max s rd Hmax Hpos Hsize Hs
              ltac:(by rewrite Hgrid) Hrl)
    as (Rn & HRn & HRr & HRc & HRe).
  exists c. unfold generate_data_from_nm. rewrite HRn, Hc. cbn [rbind].
  assert (Hcc : ncols (matrix_of_rows c) = Z.to_nat (n_max + 1)).
  { unfold matrix_of_rows. cbn [ncols].
    destruct c as [|r0 c']; [by destruct n|].
    apply Forall_cons in Hcw as [Hr0 _]. done. }
  unfold dot. rewrite decide_True by (by rewrite Hcc, HRr). cbn [rbind].
  rewrite Hcc, HRc. cbn [matrix_of_rows nrows].
  set (Rnm := mk_matrix (length c) (s * s) _).
  assert (Hmtr : Forall (fun r => length r = s * s) (rows (get_mt_matrix m size))).
  { unfold get_mt_matrix, matrix_of_rows. cbn [rows]. rewrite Hgrid. cbn [snd data].
    apply Forall_fmap, Forall_forall. intros em _. simpl. by rewrite length_fmap. }
  assert (Hmtn : nrows (get_mt_matrix m size) = length c).
  { unfold get_mt_matrix, matrix_of_rows. cbn [nrows]. rewrite length_fmap. lia. }
  assert (Hmtc : ncols (get_mt_matrix m size) = s * s).
  { unfold get_mt_matrix, matrix_of_rows. cbn [ncols]. rewrite Hgrid. cbn [snd data].
    destruct m as [|m0 m']; [by destruct n|]. simpl. by rewrite length_fmap. }
  assert (Hmtl : length (rows (get_mt_matrix m size)) = length c).
  { unfold get_mt_matrix, matrix_of_rows. cbn [rows]. rewrite length_fmap. lia. }
  assert (HRl : length (rows Rnm) = length c).
  { unfold Rnm. apply mk_matrix_wf. }
  assert (HRw : Forall (fun r => length r = s * s) (rows Rnm)).
  { unfold Rnm. apply mk_matrix_wf. }
  assert (HRnr : nrows Rnm = length c) by done.
  assert (HRnc : ncols Rnm = s * s) by done.
  rewrite np_mul_same_shape; cycle 1.
  { unfold wf_ndarray, flatten. cbn [data shape numel foldr].
    rewrite (length_concat_uniform (s * s)) by exact HRw.
    rewrite HRl, HRnr, HRnc. lia. }
  { unfold wf_ndarray, flatten. cbn [data shape numel foldr].
    rewrite (length_concat_uniform (s * s)) by exact Hmtr.
    rewrite Hmtl, Hmtn, Hmtc. lia. }
  { unfold flatten. cbn [shape]. rewrite Hmtn, Hmtc. done. }
  cbn [rbind flatten shape data].
  unfold np_reshape.
  assert (forallb (fun d => (0 <=? d)%Z) [Z.of_nat (length c); size; size] = true) as ->.
  { subst size. simpl. rewrite !andb_true_iff. repeat split; apply Z.leb_le; lia. }
  cbn [shape fmap list_fmap]. subst size. rewrite !Nat2Z.id.
  assert (numel [length c; s; s] = numel [nrows Rnm; ncols Rnm]) as ->.
  { rewrite HRnr, HRnc. cbn [numel foldr]. lia. }
  rewrite Nat.eqb_refl. eexists. split; [done|]. split; [reflexivity|].
  cbn [shape data]. split; [by rewrite Hcl|]. split.
  { rewrite length_zip_with, !(length_concat_uniform (s * s)) by done.
    rewrite HRl, Hmtl. lia. }
  intros i p row em x t Hi Hem Hx Ht.
  assert (Hp : p < s * s) by (rewrite <- Hrl; by eapply lookup_lt_Some).
  assert (Hil : i < length c) by (by eapply lookup_lt_Some).
  rewrite lookup_zip_with.
  rewrite !(lookup_concat_uniform (s * s)) by done.
  unfold Rnm. rewrite mk_matrix_rows_lookup by done.
  unfold get_mt_matrix, matrix_of_rows. cbn [rows]. rewrite Hgrid. cbn [snd data].
  rewrite !list_lookup_fmap, Hem. cbn [fmap option_fmap option_map mbind option_bind].
  rewrite !list_lookup_fmap, lookup_seq_lt by done.
  rewrite Ht. cbn [fmap option_fmap option_map mbind option_bind plus].
  f_equal. unfold angular_value. f_equal.
  unfold radial_value.
  assert (Hrow : length row = Z.to_nat (n_max + 1)).
  { eapply Forall_forall in Hcw; [exact Hcw|]. by eapply list_elem_of_lookup_2. }
  rewrite Hrow.
  change (ssum ?l) with (rsum l).
  f_equal. apply list_fmap_ext. intros k j [Hjk Hj]%lookup_seq.
  cbn [plus] in Hjk. subst k.
  unfold entry at 1. cbn [rows]. rewrite Hi. cbn [mbind option_bind].
  rewrite (HRe j p x Hj Hx).
  change (@s_mul R _) with Rmult. change (@s_zero R _) with 0%R.
  destruct (decide (j = Z.to_nat n_max)), (decide (S j = Z.to_nat (n_max + 1)));
    try lia.
  - lra.
  - replace (Z.to_nat (n_max + 1) - 1 - j) with (Z.to_nat n_max - j) by lia. lra.
Qed.

End BasisImages.

Lemma basis_images_factor_witness :
  exists c d, @zp_get_coeffs [0; 1; 1]%Z [0; -1; 1]%Z true = Ok c /\
    @generate_data_from_nm example_utils [0; 1; 1]%Z [0; -1; 1]%Z 2 None true
      = Ok d /\
    shape d = [3; 2; 2] /\
    length (data d) = 3 * (2 * 2) /\
    forall i p row em x t,
      c !! i = Some row -> [0; -1; 1]%Z !! i = Some em ->
      replicate 4 (1 / 2)%R !! p = Some x -> replicate 4 0%R !! p = Some t ->
      data d !! (i * (2 * 2) + p)
      = Some (radial_value row x (disk_value 2 p x) * angular_value em t)%R.
Proof.
  apply (@basis_images_factor example_utils [0; 1; 1]%Z [0; -1; 1]%Z 2 1 2
           (replicate 4 (1 / 2)%R) (replicate 4 0%R)).
  - split; [done|]. repeat constructor; simpl; lia.
  - reflexivity.
  - reflexivity.
  - lia.
  - reflexivity.
  - reflexivity.
  - reflexivity.
Defined.
